(** * go-tss: the coordination engine around the threshold-signature library

    A shallow embedding of the parts of the node that the specification
    makes promises about:

    - package [p2p]: the length-prefixed stream reader and writer, the
      broadcast path and its queue, the bootstrap peers and the
      subscription table of [Communication];
    - package [eddsa]: [GenerateNewKey], the select loops [processKeyGen]
      and [processKeySign], and [SignMessage] with its final sort;
    - package [tss]: the [KeySign] entry point;
    - Go's [sort.SliceStable], which [SignMessage] calls with its own
      comparison.

    Conventions.  A Go function returning [(T, error)] is a function into
    [T * option error] ([None] is the nil error).  A nil slice and an empty
    slice are both the empty list.  Collaborators whose code is outside the
    files at hand (storage, the blame manager, party formation, the MPC
    library, the network) are records of answers: the model asks them what
    the Go code asks, in the same order, and writes down every call with an
    outside effect in an effect list.  A [select] loop consumes the list of
    events that its channels deliver. *)

From Stdlib Require Import ZArith.
From Stdlib.Strings Require Import Byte.
From Stdlib Require QArith Qround.
From stdpp Require Import gmap strings list sorting.

Local Open Scope Z_scope.

(** ** Errors *)

(** [errors.New] / [fmt.Errorf] without a cause, and [fmt.Errorf] with the
    verb [%w], which keeps the cause. *)
Inductive error : Type :=
| errNew (text : string)
| errWrap (text : string) (cause : error).

(** A call returns, or the goroutine panics. *)
Inductive Run (T : Type) : Type :=
| Returns (v : T)
| Panics (why : string).

Arguments Returns {T} v.
Arguments Panics {T} why.

#[global] Instance byte_eq_decision : EqDecision byte := Byte.byte_eq_dec.

(** Go's [len]: an [int]. *)
Definition len {A : Type} (l : list A) : Z := Z.of_nat (length l).

(** The value of a byte. *)
Definition byteVal (b : byte) : Z := Z.of_N (Byte.to_N b).

(** ** Package conversion (and [common] in the older [tss] file) *)

Module conversion.

(** Modelled from the spec: [GetThreshold] is declared outside the files at
    hand.  The spec gives [threshold = ceil((2/3) * n) - 1] and names no input
    on which it fails, so the error it returns is always nil here. *)
Definition GetThreshold (value : Z) : Z * option error :=
  (Qround.Qceiling (QArith_base.Qmult (QArith_base.Qmake 2 3) (QArith_base.inject_Z value)) - 1, None).

End conversion.

(** ** Package peer (libp2p) *)

Module peer.

(** [peer.ID]; the code compares peers through [String()]. *)
Definition ID : Type := string.

(** [peer.AddrInfo]. *)
Record AddrInfo : Type := {
  AddrInfo_ID : ID;
  Addrs : list string;
}.

End peer.

(** ** Package p2p *)

Module p2p.

(** [MaxPayload] the maximum payload for a message: 80kb. *)
Definition MaxPayload : Z := 81920.

(** Modelled from the spec: [LengthHeader] is declared outside the files at
    hand; every write is [u32-le length || payload], a header of four bytes. *)
Definition LengthHeader : nat := 4.

(** Modelled from the spec: the message types of a [WrappedMessage].  The
    constructors the code names keep the code's names. *)
Inductive THORChainTSSMessageType : Type :=
| JoinPartyRequest
| JoinPartyResponse
| TSSKeyGenMsg
| TSSKeyGenVerMsg
| TSSKeySignMsg
| TSSKeySignVerMsg
| TSSControlMsg
| TSSTaskDone
| SignatureNotifier.

#[global] Instance THORChainTSSMessageType_eq_dec : EqDecision THORChainTSSMessageType.
Proof. solve_decision. Defined.

Definition messageTypeCode (t : THORChainTSSMessageType) : nat :=
  match t with
  | JoinPartyRequest => 0 | JoinPartyResponse => 1 | TSSKeyGenMsg => 2
  | TSSKeyGenVerMsg => 3 | TSSKeySignMsg => 4 | TSSKeySignVerMsg => 5
  | TSSControlMsg => 6 | TSSTaskDone => 7 | SignatureNotifier => 8
  end%nat.

Definition messageTypeOfCode (n : nat) : THORChainTSSMessageType :=
  match n with
  | 0 => JoinPartyRequest | 1 => JoinPartyResponse | 2 => TSSKeyGenMsg
  | 3 => TSSKeyGenVerMsg | 4 => TSSKeySignMsg | 5 => TSSKeySignVerMsg
  | 6 => TSSControlMsg | 7 => TSSTaskDone | _ => SignatureNotifier
  end%nat.

#[global] Instance THORChainTSSMessageType_countable : Countable THORChainTSSMessageType.
Proof.
  refine (inj_countable' messageTypeCode messageTypeOfCode _).
  intros []; reflexivity.
Defined.

(** [Message] that get transfer across the wire. *)
Record Message : Type := {
  PeerID : peer.ID;
  Payload : list byte;
}.

(** Modelled from the spec: the unit on the wire, [message-type], [msg-id]
    and an opaque payload. *)
Record WrappedMessage : Type := {
  MessageType : THORChainTSSMessageType;
  MsgID : string;
  WPayload : list byte;
}.

(** A [chan *Message], known by its identity. *)
Definition Chan : Type := nat.

(** *** The subscription table *)

(** Modelled from the spec: [MessageIDSubscriber] is declared outside the
    files at hand; it is the inner map [msg-id -> channel] of the
    subscription table, with the five operations [Communication] calls. *)
Definition MessageIDSubscriber : Type := gmap string Chan.

Definition NewMessageIDSubscriber : MessageIDSubscriber := ∅.

Definition Subscribe (msgID : string) (channel : Chan)
    (ms : MessageIDSubscriber) : MessageIDSubscriber :=
  <[msgID := channel]> ms.

Definition UnSubscribe (msgID : string) (ms : MessageIDSubscriber) : MessageIDSubscriber :=
  delete msgID ms.

Definition IsEmpty (ms : MessageIDSubscriber) : bool :=
  bool_decide (size ms = 0%nat).

Definition GetSubscriber (msgID : string) (ms : MessageIDSubscriber) : option Chan :=
  ms !! msgID.

(** The fields of [Communication] that the modelled methods read or write.
    The map holds pointers to subscribers; the only writer, [SetSubscribe],
    stores the pointer [NewMessageIDSubscriber()] returns, so no nil pointer
    is ever a value of the map and the values are the subscribers
    themselves. *)
Record Communication : Type := {
  rendezvous : string;
  host : peer.ID;
  subscribers : gmap THORChainTSSMessageType MessageIDSubscriber;
}.

(** [NewCommunication]: the table starts empty.  The host id is filled in by
    [Start]; it is a parameter here. *)
Definition NewCommunication (rendezvous : string) (hostID : peer.ID) : Communication :=
  {| rendezvous := rendezvous; host := hostID; subscribers := ∅ |}.

Definition withSubscribers (c : Communication)
    (s : gmap THORChainTSSMessageType MessageIDSubscriber) : Communication :=
  {| rendezvous := rendezvous c; host := host c; subscribers := s |}.

Definition SetSubscribe (topic : THORChainTSSMessageType) (msgID : string)
    (channel : Chan) (c : Communication) : Communication :=
  let messageIDSubscribers :=
    match subscribers c !! topic with
    | Some ms => ms
    | None => NewMessageIDSubscriber
    end in
  withSubscribers c (<[topic := Subscribe msgID channel messageIDSubscribers]> (subscribers c)).

Definition getSubscriber (topic : THORChainTSSMessageType) (msgID : string)
    (c : Communication) : option Chan :=
  match subscribers c !! topic with
  | None => None
  | Some messageIDSubscribers => GetSubscriber msgID messageIDSubscribers
  end.

(** [CancelSubscribe].  The test [nil == messageIDSubscribers] cannot
    succeed on a table built by [SetSubscribe] (see [Communication]). *)
Definition CancelSubscribe (topic : THORChainTSSMessageType) (msgID : string)
    (c : Communication) : Communication :=
  match subscribers c !! topic with
  | None => c
  | Some messageIDSubscribers =>
      let ms := UnSubscribe msgID messageIDSubscribers in
      if IsEmpty ms
      then withSubscribers c (delete topic (subscribers c))
      else withSubscribers c (<[topic := ms]> (subscribers c))
  end.

(** A call on the subscription bus, and a sequence of calls run in order
    (each holds [subscriberLocker] from start to end). *)
Inductive BusCall : Type :=
| CallSetSubscribe (topic : THORChainTSSMessageType) (msgID : string) (channel : Chan)
| CallCancelSubscribe (topic : THORChainTSSMessageType) (msgID : string).

Definition busStep (c : Communication) (call : BusCall) : Communication :=
  match call with
  | CallSetSubscribe topic msgID channel => SetSubscribe topic msgID channel c
  | CallCancelSubscribe topic msgID => CancelSubscribe topic msgID c
  end.

Definition busRun (calls : list BusCall) (c : Communication) : Communication :=
  fold_left busStep calls c.

(** No empty leaves: every topic of the table has a subscriber. *)
Definition noEmptyLeaves (c : Communication) : Prop :=
  ∀ topic ms, subscribers c !! topic = Some ms → ∃ msgID channel, ms !! msgID = Some channel.

(** *** Reading a stream *)

(** [binary.LittleEndian.Uint32]:
    [uint32(b[0]) | uint32(b[1])<<8 | uint32(b[2])<<16 | uint32(b[3])<<24]. *)
Definition Uint32 (b : list byte) : Z :=
  match b with
  | b0 :: b1 :: b2 :: b3 :: _ =>
      Z.lor (Z.lor (Z.lor (byteVal b0) (Z.shiftl (byteVal b1) 8))
                   (Z.shiftl (byteVal b2) 16))
            (Z.shiftl (byteVal b3) 24)
  | _ => 0
  end.

(** What the network hands to [stream.Read]: bytes as they arrive, or a
    failure ([io.EOF] or another error). *)
Inductive ReadError : Type :=
| EOF
| readErr (text : string).

Inductive Chunk : Type :=
| Arrived (data : list byte)
| Broken (e : ReadError).

(** An inbound [network.Stream] and what surrounds one run of
    [readFromStream]: the remote peer, the chunks still to arrive, the
    answers of the coming [SetReadDeadline] calls (nil once the list is
    used up) and whether [stopChan] is found closed at each coming poll
    (open once the list is used up). *)
Record Stream : Type := {
  RemotePeer : peer.ID;
  arriving : list Chunk;
  deadlineAnswers : list (option error);
  stopPolls : list bool;
}.

Definition withArriving (s : Stream) (cs : list Chunk) : Stream :=
  {| RemotePeer := RemotePeer s; arriving := cs;
     deadlineAnswers := deadlineAnswers s; stopPolls := stopPolls s |}.

(** [stream.Read(buf)] with [len(buf) = k]: at most [k] bytes of the first
    chunk; what is left of the chunk stays for the next call.  A stream with
    nothing more to arrive has been closed by the peer. *)
Definition Read (k : nat) (s : Stream) : list byte * option ReadError * Stream :=
  match arriving s with
  | [] => ([], Some EOF, s)
  | Broken e :: rest => ([], Some e, withArriving s rest)
  | Arrived data :: rest =>
      (take k data, None,
       withArriving s (match drop k data with
                       | [] => rest
                       | remaining => Arrived remaining :: rest
                       end))
  end.

Definition SetReadDeadline (s : Stream) : option error * Stream :=
  match deadlineAnswers s with
  | [] => (None, s)
  | a :: rest =>
      (a, {| RemotePeer := RemotePeer s; arriving := arriving s;
             deadlineAnswers := rest; stopPolls := stopPolls s |})
  end.

(** [select { case <-c.stopChan: ...; default: ... }]. *)
Definition pollStop (s : Stream) : bool * Stream :=
  match stopPolls s with
  | [] => (false, s)
  | b :: rest =>
      (b, {| RemotePeer := RemotePeer s; arriving := arriving s;
             deadlineAnswers := deadlineAnswers s; stopPolls := rest |})
  end.

(** What a run of the reader does that others can see. *)
Inductive ReaderAction : Type :=
| Delivered (channel : Chan) (m : Message)
| Logged (text : string) (peerID : peer.ID) (n : Z).

(** Why the reader returned; on every return the deferred function resets
    the stream. *)
Inductive ReaderExit : Type :=
| StopRequested
| HeaderDeadlineFailed
| StreamClosed
| HeaderReadFailed
| ShortHeader
| PayloadTooLarge
| BodyReadFailed
| OutOfFuel.

(** [readFromStream], one turn of its loop per unit of fuel.  [unmarshal]
    is [json.Unmarshal] into a [WrappedMessage]. *)
Fixpoint readLoop (unmarshal : list byte → option WrappedMessage)
    (c : Communication) (fuel : nat) (s : Stream) : list ReaderAction * ReaderExit :=
  match fuel with
  | O => ([], OutOfFuel)
  | S fuel =>
      let peerID := RemotePeer s in
      let '(stop, s) := pollStop s in
      if stop then ([], StopRequested) else
      let '(err, s) := SetReadDeadline s in
      match err with
      | Some _ => ([Logged "fail to set read header timeout" peerID 0], HeaderDeadlineFailed)
      | None =>
          let '(length, err, s) := Read LengthHeader s in
          match err with
          | Some EOF => ([], StreamClosed)
          | Some _ => ([Logged "fail to read from header from stream" peerID 0], HeaderReadFailed)
          | None =>
              if (base.length length <? LengthHeader)%nat
              then ([Logged "short read" peerID (len length)], ShortHeader)
              else
                let l := Uint32 length in
                if MaxPayload <? l
                then ([Logged "trying to send bytes payload" peerID l], PayloadTooLarge)
                else
                  let '(err, s) := SetReadDeadline s in
                  let deadlineLog :=
                    match err with
                    | Some _ => [Logged "fail to set read deadline" peerID 0]
                    | None => []
                    end in
                  let '(read, err, s) := Read (Z.to_nat l) s in
                  match err with
                  | Some _ =>
                      (deadlineLog ++ [Logged "fail to read from stream" peerID 0], BodyReadFailed)
                  | None =>
                      let buf := read ++ replicate (Z.to_nat l - base.length read) x00 in
                      let shortLog :=
                        if len read =? l then []
                        else [Logged "we are expecting bytes" peerID (len read)] in
                      let '(rest, exit) := readLoop unmarshal c fuel s in
                      match unmarshal buf with
                      | None =>
                          (deadlineLog ++ shortLog
                             ++ Logged "fail to unmarshal wrapped message bytes" peerID 0 :: rest,
                           exit)
                      | Some wrappedMsg =>
                          match getSubscriber (MessageType wrappedMsg) (MsgID wrappedMsg) c with
                          | None =>
                              (deadlineLog ++ shortLog
                                 ++ Logged "no MsgID found for this message" peerID 0 :: rest,
                               exit)
                          | Some channel =>
                              (deadlineLog ++ shortLog
                                 ++ Delivered channel {| PeerID := peerID; Payload := buf |} :: rest,
                               exit)
                          end
                      end
                  end
          end
      end
  end.

(** The bytes and chunks still to arrive: every turn of the loop that does
    not return takes four header bytes off them. *)
Definition pending (s : Stream) : nat :=
  fold_right (λ c n, match c with
                     | Arrived data => S (base.length data + n)
                     | Broken _ => S n
                     end) 0%nat (arriving s).

Definition readFromStream (unmarshal : list byte → option WrappedMessage)
    (c : Communication) (s : Stream) : list ReaderAction * ReaderExit :=
  readLoop unmarshal c (S (pending s)) s.

Definition deliveries (run : list ReaderAction * ReaderExit) : list (Chan * Message) :=
  omap (λ a, match a with Delivered ch m => Some (ch, m) | Logged _ _ _ => None end) run.1.

(** *** Broadcasting *)

(** What a fresh outbound stream answers to [writeToStream]'s calls, in the
    order it makes them. *)
Record OutStream : Type := {
  writeDeadline1 : option error;
  write1 : Z * option error;
  writeDeadline2 : option error;
  write2 : Z * option error;
  closeAnswer : option error;
}.

(** The network as one broadcast sees it: what [FindPeers] returns (an
    error, or the peers its channel delivers before it is closed; [None] in
    that list is a turn of the [select] that finds [stopChan] closed), and
    what [host.NewStream] returns for each peer. *)
Record Network : Type := {
  FindPeers : string → list (option peer.AddrInfo) * option error;
  NewStream : peer.ID → OutStream * option error;
}.

Inductive NetAction : Type :=
| Discovered (rendezvous : string)
| Opened (to : peer.ID)
| WroteHeader (to : peer.ID) (data : list byte)
| WroteBody (to : peer.ID) (data : list byte)
| Closed (to : peer.ID)
| Noted (text : string).

Definition shouldWeWriteToPeer (ai : peer.AddrInfo) (peers : list peer.ID) : bool :=
  if len peers =? 0 then
    (* broadcast to everyone *)
    true
  else existsb (λ p, bool_decide (peer.AddrInfo_ID ai = p)) peers.

(** [connectToOnePeer]: the stream (nil for the node itself) and the error. *)
Definition connectToOnePeer (c : Communication) (net : Network) (ai : peer.AddrInfo)
    : option OutStream * option error * list NetAction :=
  if bool_decide (peer.AddrInfo_ID ai = host c) then (None, None, [])
  else
    match NewStream net (peer.AddrInfo_ID ai) with
    | (_, Some err) => (None, Some (errWrap "fail to create new stream to peer" err), [])
    | (stream, None) => (Some stream, None, [Opened (peer.AddrInfo_ID ai)])
    end.

(** [binary.LittleEndian.PutUint32(buf, uint32(length))]. *)
Definition byteOf (z : Z) : byte :=
  default x00 (Byte.of_N (Z.to_N (z mod 256))).

Definition PutUint32 (v : Z) : list byte :=
  let v := v mod 2 ^ 32 in
  [byteOf v; byteOf (Z.shiftr v 8); byteOf (Z.shiftr v 16); byteOf (Z.shiftr v 24)].

(** [writeToStream]: the error it returns and what it did.  The deferred
    [stream.Close] runs on every return once the stream is open. *)
Definition writeToStream (c : Communication) (net : Network) (ai : peer.AddrInfo)
    (msg : list byte) : option error * list NetAction :=
  let to := peer.AddrInfo_ID ai in
  (* don't send to ourself *)
  if bool_decide (to = host c) then (None, []) else
  let '(stream, err, opened) := connectToOnePeer c net ai in
  match err with
  | Some err => (Some (errWrap "fail to open stream to peer" err), opened)
  | None =>
      match stream with
      | None => (None, opened)
      | Some stream =>
          let length := len msg in
          let buf := PutUint32 length in
          match writeDeadline1 stream with
          | Some _ => (Some (errNew "fail to set write deadline"), opened ++ [Closed to])
          | None =>
              let '(n, err) := write1 stream in
              let wrote1 := WroteHeader to (take (Z.to_nat n) buf) in
              match err with
              | Some err => (Some err, opened ++ [wrote1; Closed to])
              | None =>
                  if n <? Z.of_nat LengthHeader
                  then (Some (errNew "short write"), opened ++ [wrote1; Closed to])
                  else
                    match writeDeadline2 stream with
                    | Some _ =>
                        (Some (errNew "fail to set write deadline"), opened ++ [wrote1; Closed to])
                    | None =>
                        let '(n, err) := write2 stream in
                        let wrote2 := WroteBody to (take (Z.to_nat n) msg) in
                        match err with
                        | Some err =>
                            (Some (errWrap "fail to write" err),
                             opened ++ [wrote1; wrote2; Closed to])
                        | None =>
                            if n <? length
                            then (Some (errNew "short write"),
                                  opened ++ [wrote1; wrote2; Closed to])
                            else (None, opened ++ [wrote1; wrote2; Closed to])
                        end
                    end
              end
          end
      end
  end.

(** The loop of [broadcastToPeers] over what [peerChan] and [stopChan]
    deliver; the channel is closed when the list ends. *)
Fixpoint broadcastLoop (c : Communication) (net : Network) (peers : list peer.ID)
    (msg : list byte) (found : list (option peer.AddrInfo)) : list NetAction :=
  match found with
  | [] => []
  | None :: _ => []
  | Some ai :: more =>
      (if shouldWeWriteToPeer ai peers then
         match writeToStream c net ai msg with
         | (Some _, done) => done ++ [Noted "fail to write to stream"]
         | (None, done) => done
         end
       else [])
      ++ broadcastLoop c net peers msg more
  end.

Definition broadcastToPeers (c : Communication) (net : Network) (peers : list peer.ID)
    (msg : list byte) : list NetAction :=
  if len peers =? 0 then [Noted "the peer list is empty"]
  else
    match FindPeers net (rendezvous c) with
    | (_, Some _) => [Discovered (rendezvous c); Noted "fail to find any peers"]
    | (peerChan, None) => Discovered (rendezvous c) :: broadcastLoop c net peers msg peerChan
    end.

(** [Broadcast] starts [broadcastToPeers] in a goroutine of its own; what
    the call does is what that goroutine does. *)
Definition Broadcast (c : Communication) (net : Network) (peers : list peer.ID)
    (msg : list byte) : list NetAction :=
  broadcastToPeers c net peers msg.

(** The peers a run wrote [msg] to in full. *)
Definition sentTo (msg : list byte) (done : list NetAction) : list peer.ID :=
  omap (λ a, match a with
             | WroteBody to data => if bool_decide (data = msg) then Some to else None
             | _ => None
             end) done.

(** *** A frame from end to end *)

(** What the reader does with the payload [buf] of a frame once it is
    read: [json.Unmarshal], then [getSubscriber], then the send on the
    subscriber's channel. *)
Definition dispatch (unmarshal : list byte → option WrappedMessage)
    (c : Communication) (peerID : peer.ID) (buf : list byte) : ReaderAction :=
  match unmarshal buf with
  | None => Logged "fail to unmarshal wrapped message bytes" peerID 0
  | Some wrappedMsg =>
      match getSubscriber (MessageType wrappedMsg) (MsgID wrappedMsg) c with
      | None => Logged "no MsgID found for this message" peerID 0
      | Some channel => Delivered channel {| PeerID := peerID; Payload := buf |}
      end
  end.

(** The bytes a run put on its stream to [to], in the order of the
    [stream.Write] calls. *)
Definition wire (to : peer.ID) (done : list NetAction) : list byte :=
  flat_map (λ a, match a with
                 | WroteHeader p data | WroteBody p data =>
                     if bool_decide (p = to) then data else []
                 | _ => []
                 end) done.

(** An inbound stream from [from] on which [chunks] arrive before the peer
    closes it, while the node is not stopping and every deadline is set. *)
Definition inbound (from : peer.ID) (chunks : list Chunk) : Stream :=
  {| RemotePeer := from; arriving := chunks; deadlineAnswers := []; stopPolls := [] |}.

(** The streams a run opened and the streams it closed. *)
Definition opened (done : list NetAction) : list peer.ID :=
  omap (λ a, match a with Opened to => Some to | _ => None end) done.

Definition closed (done : list NetAction) : list peer.ID :=
  omap (λ a, match a with Closed to => Some to | _ => None end) done.


(** *** The broadcast queue *)

(** [BroadcastMsgChan], declared outside the files at hand: what is queued
    for broadcast, of which the code reads [WrappedMessage] (here
    [Wrapped]) and [PeersID]. *)
Record BroadcastMsgChan : Type := {
  Wrapped : WrappedMessage;
  PeersID : list peer.ID;
}.

(** [ProcessBroadcast]: the loop over what [BroadcastMsgChan] delivers;
    [None] is a turn of the [select] that finds [stopChan] closed.
    [marshal] is [json.Marshal].  Each [Broadcast] runs in a goroutine of
    its own; its actions are listed where it is started. *)
Fixpoint ProcessBroadcast (marshal : WrappedMessage → list byte * option error)
    (c : Communication) (net : Network) (queue : list (option BroadcastMsgChan))
    : list NetAction :=
  match queue with
  | [] => []
  | None :: _ => []
  | Some msg :: queue =>
      match marshal (Wrapped msg) with
      | (_, Some _) =>
          Noted "fail to marshal a wrapped message to json bytes"
            :: ProcessBroadcast marshal c net queue
      | (wrappedMsgBytes, None) =>
          Broadcast c net (PeersID msg) wrappedMsgBytes
            ++ ProcessBroadcast marshal c net queue
      end
  end.

(** *** Bootstrap peers *)

(** What [connectToBootstrapPeers] asks: [peer.AddrInfoFromP2pAddr] for a
    multiaddress, and [host.Connect] for a peer. *)
Record Bootstrap : Type := {
  AddrInfoFromP2pAddr : string → peer.AddrInfo * option error;
  Connect : peer.AddrInfo → option error;
}.

(** [connectToBootstrapPeers]: the error it returns and the connections its
    goroutines try, each with the answer of [host.Connect], which is only
    logged.  An address that does not parse ends the loop at once. *)
Fixpoint connectToBootstrapPeers (b : Bootstrap) (bootstrapPeers : list string)
    : option error * list (peer.AddrInfo * option error) :=
  match bootstrapPeers with
  | [] => (None, [])
  | peerAddr :: bootstrapPeers =>
      let '(pi, err) := AddrInfoFromP2pAddr b peerAddr in
      match err with
      | Some err => (Some (errWrap "fail to add peer" err), [])
      | None =>
          let '(err, tried) := connectToBootstrapPeers b bootstrapPeers in
          (err, (pi, Connect b pi) :: tried)
      end
  end.

End p2p.

(** ** Package sort (Go's standard library): [SliceStable]

    [sort.SliceStable(x, less)] runs [stable_func] on the slice: insertion
    sort on blocks of 20 elements, then rounds of [symMerge_func] on
    neighbouring blocks.  The algorithm reads the slice only through
    [Less(i, j)] and writes it only through [Swap(i, j)].  The comparison a
    caller passes looks at the elements now at [i] and [j], so it is a
    function of two elements here.  Indices are natural numbers: they stay
    within the slice, far below the range of Go's [int]. *)

Module sort.

Section Stable.

Context {A : Type} (less : A → A → bool).

(** [data.Less(i, j)] and [data.Swap(i, j)]; Go panics outside the slice,
    which the algorithm never leaves. *)
Definition Less (data : list A) (i j : nat) : bool :=
  match data !! i, data !! j with
  | Some x, Some y => less x y
  | _, _ => false
  end.

Definition Swap (data : list A) (i j : nat) : list A :=
  match data !! i, data !! j with
  | Some x, Some y => <[i := y]> (<[j := x]> data)
  | _, _ => data
  end.

(** [for j := i; j > a && data.Less(j, j-1); j-- { data.Swap(j, j-1) }] *)
Fixpoint insertDown (data : list A) (a j : nat) : list A :=
  match j with
  | O => data
  | S j' =>
      if (a <? j)%nat && Less data j j'
      then insertDown (Swap data j j') a j'
      else data
  end.

(** [for i := a + 1; i < b; i++ { ... }], [count] turns from [i] on. *)
Fixpoint insertionLoop (data : list A) (a i count : nat) : list A :=
  match count with
  | O => data
  | S count => insertionLoop (insertDown data a i) a (S i) count
  end.

Definition insertionSort_func (data : list A) (a b : nat) : list A :=
  insertionLoop data a (a + 1) (b - (a + 1)).

(** The binary searches of [symMerge_func]:
    [for i < j { h := int(uint(i+j) >> 1); if right(h) { i = h + 1 } else { j = h } }],
    which leaves the result in [i].  The gap [j - i] shrinks at every turn,
    so [j - i] turns of fuel are enough. *)
Fixpoint search (right : nat → bool) (fuel i j : nat) : nat :=
  match fuel with
  | O => i
  | S fuel =>
      if (i <? j)%nat then
        let h := ((i + j) / 2)%nat in
        if right h then search right fuel (h + 1) j else search right fuel i h
      else i
  end.

(** [for k := a; k < i-1; k++ { data.Swap(k, k+1) }], [count] turns from [k] on. *)
Fixpoint swapUp (data : list A) (k count : nat) : list A :=
  match count with
  | O => data
  | S count => swapUp (Swap data k (k + 1)) (k + 1) count
  end.

(** [for k := m; k > i; k-- { data.Swap(k, k-1) }], [count] turns from [k] on. *)
Fixpoint swapDown (data : list A) (k count : nat) : list A :=
  match count with
  | O => data
  | S count => swapDown (Swap data k (k - 1)) (k - 1) count
  end.

(** [swapRange_func]: [for i := 0; i < n; i++ { data.Swap(a+i, b+i) }] *)
Fixpoint swapRange_func (data : list A) (a b n : nat) : list A :=
  match n with
  | O => data
  | S n => swapRange_func (Swap data a b) (S a) (S b) n
  end.

(** The loop of [rotate_func] and its last statement:
    [for i != j { if i > j { swapRange(m-i, m, j); i -= j }
                  else { swapRange(m-i, m+j-i, i); j -= i } }
     swapRange(m-i, m, i)] *)
Fixpoint rotateLoop (fuel : nat) (data : list A) (m i j : nat) : list A :=
  match fuel with
  | O => data
  | S fuel =>
      if (i =? j)%nat then swapRange_func data (m - i) m i
      else if (j <? i)%nat
      then rotateLoop fuel (swapRange_func data (m - i) m j) m (i - j) j
      else rotateLoop fuel (swapRange_func data (m - i) (m + j - i) i) m i (j - i)
  end.

Definition rotate_func (data : list A) (a m b : nat) : list A :=
  rotateLoop (b - a) data m (m - a) (b - m).

(** [symMerge_func] merges the sorted [data[a:m]] and [data[m:b]]; one unit
    of fuel per level of its recursion. *)
Fixpoint symMerge_func (fuel : nat) (data : list A) (a m b : nat) : list A :=
  match fuel with
  | O => data
  | S fuel =>
      if (m - a =? 1)%nat then
        let i := search (λ h, Less data h a) (b - m) m b in
        swapUp data a (i - 1 - a)
      else if (b - m =? 1)%nat then
        let i := search (λ h, negb (Less data m h)) (m - a) a m in
        swapDown data m (m - i)
      else
        let mid := ((a + b) / 2)%nat in
        let n := (mid + m)%nat in
        let '(start, r) := if (mid <? m)%nat then ((n - b)%nat, mid) else (a, m) in
        let p := (n - 1)%nat in
        let start := search (λ c, negb (Less data (p - c) c)) (r - start) start r in
        let end_ := (n - start)%nat in
        let data :=
          if (start <? m)%nat && (m <? end_)%nat
          then rotate_func data start m end_ else data in
        let data :=
          if (a <? start)%nat && (start <? mid)%nat
          then symMerge_func fuel data a start mid else data in
        if (mid <? end_)%nat && (end_ <? b)%nat
        then symMerge_func fuel data mid end_ b else data
  end.

(** [for b <= n { insertionSort(data, a, b); a = b; b += blockSize }];
    the slice and the last [a]. *)
Fixpoint insertBlocks (fuel : nat) (data : list A) (a b n blockSize : nat) : list A * nat :=
  match fuel with
  | O => (data, a)
  | S fuel =>
      if (b <=? n)%nat
      then insertBlocks fuel (insertionSort_func data a b) b (b + blockSize) n blockSize
      else (data, a)
  end.

(** [for b <= n { symMerge(data, a, a+blockSize, b); a = b; b += 2 * blockSize }] *)
Fixpoint mergeBlocks (fuel : nat) (data : list A) (a b n blockSize : nat) : list A * nat :=
  match fuel with
  | O => (data, a)
  | S fuel =>
      if (b <=? n)%nat
      then mergeBlocks fuel (symMerge_func (b - a) data a (a + blockSize) b)
             b (b + 2 * blockSize) n blockSize
      else (data, a)
  end.

(** [for blockSize < n { ...; blockSize *= 2 }] *)
Fixpoint mergeRounds (fuel : nat) (data : list A) (n blockSize : nat) : list A :=
  match fuel with
  | O => data
  | S fuel =>
      if (blockSize <? n)%nat then
        let '(data, a) := mergeBlocks n data 0 (2 * blockSize) n blockSize in
        let m := (a + blockSize)%nat in
        let data := if (m <? n)%nat then symMerge_func (n - a) data a m n else data in
        mergeRounds fuel data n (2 * blockSize)
      else data
  end.

Definition stable_func (data : list A) (n : nat) : list A :=
  let blockSize := 20%nat in
  let '(data, a) := insertBlocks n data 0 blockSize n blockSize in
  let data := insertionSort_func data a n in
  mergeRounds n data n blockSize.

Definition SliceStable (x : list A) : list A :=
  stable_func x (length x).

(** The order a comparison sorts by: [x] may stand before [y]. *)
Definition before (x y : A) : Prop := less x y = true.

(** The slice cut into sorted blocks of [bs] elements, the last one
    shorter or empty: what [stable_func] has after its insertion sorts and
    after every round of merges. *)
Inductive blocks (bs : nat) : list A → Prop :=
| blocks_last l : (length l ≤ bs)%nat → StronglySorted before l → blocks bs l
| blocks_cons b l :
    length b = bs → StronglySorted before b → blocks bs l → blocks bs (b ++ l).

End Stable.

End sort.

(** ** The collaborators of package eddsa *)

(** The MPC library (tss-lib). *)
Module tsslib.

(** [btss.Message], an interface: what the engine asks of an outbound
    message of the local party. *)
Record Message : Type := {
  MsgType : string;
  IsBroadcast : bool;
}.

(** [common.SignatureData]; [SigR] and [SigS] are its fields [R] and [S]. *)
Record SignatureData : Type := {
  Signature : list byte;
  SigR : list byte;
  SigS : list byte;
  M : list byte;
}.

(** [crypto.ECPoint] and [keygen.LocalPartySaveData], of which the engine
    reads [EDDSAPub]. *)
Record ECPoint : Type := { X : Z; Y : Z }.

Record LocalPartySaveData : Type := {
  EDDSAPub : ECPoint;
  saved : list byte;
}.

End tsslib.

Module messages.

(** The algorithm tags the code passes on. *)
Inductive Algo : Type :=
| EDDSAKEYGEN
| EDDSAKEYSIGN.

(** Constants of package [messages] declared outside the files at hand:
    the name of keygen round 2a and the numbers of rounds. *)
Record Rounds : Type := {
  EDDSAKEYGEN2a : string;
  EDDSAKEYGENROUNDS : Z;
  EDDSAKEYSIGNROUNDS : Z;
}.

End messages.

Module blame.

(** Modelled from the spec: a blame verdict is [{reason, nodes[], is-unicast}];
    a node is named by its public key. *)
Definition Node : Type := string.

Record Blame : Type := {
  FailReason : string;
  IsUnicast : bool;
  BlameNodes : list Node;
}.

(** Modelled from the spec: the reason tag [TssTimeout] and the error
    [ErrTssTimeOut], whose texts are declared outside the files at hand; the
    model names each by its identifier. *)
Definition TssTimeout : string := "TssTimeout".
Definition ErrTssTimeOut : error := errNew "ErrTssTimeOut".

(** The blame manager of a session, declared outside the files at hand:
    what its evidence tables answer when the timeout fires, and how the
    verdict takes new entries. *)
Record Manager : Type := {
  GetUnicastBlame : string → list Node * option error;
  GetBroadcastBlame : string → list Node * option error;
  TssMissingShareBlame : Z → messages.Algo → list Node * bool * option error;
  SetBlame : string → list Node → bool → string → Blame → Blame;
  AddBlameNodes : list Node → Blame → Blame;
}.

End blame.

Module storage.

(** [storage.KeygenLocalState]. *)
Record KeygenLocalState : Type := {
  PubKey : string;
  LocalData : list byte;
  ParticipantKeys : list string;
  LocalPartyKey : string;
}.

End storage.

(** ** Package keygen, as [GenerateNewKey] uses it *)

Module keygen.

(** [keygen.Request], of which the engine reads [Keys]. *)
Record Request : Type := {
  Keys : list string;
}.

End keygen.

(** ** Package eddsa: keygen and keysign *)

Module eddsa.

Import tsslib.

(** What a session keeps between the turns of its select loop: the last
    outbound message the blame manager was told of (nil at first) and the
    blame verdict. *)
Record Session : Type := {
  lastMsg : option Message;
  verdict : blame.Blame;
}.

(** The collaborators of one session, with their answers. *)
Record World : Type := {
  rounds : messages.Rounds;
  blameMgr : blame.Manager;
  GetPreviousKeySignUicast : string → string;
  P2PPeers : list peer.ID;
  ProcessOutCh : Message → p2p.THORChainTSSMessageType → option error;
  NotifyTaskDone : option error;
  SaveAddressBook : option error;
  GetTssPubKeyEDDSA : ECPoint → string * option error;
  Marshal : LocalPartySaveData → list byte * option error;
  SaveLocalState : storage.KeygenLocalState → messages.Algo → option error;
}.

(** What the select loops do that others can see, in order. *)
Inductive Effect : Type :=
| AskedUnicastBlame (round : string)
| AskedBroadcastBlame (round : string)
| AskedMissingShareBlame (rounds : Z) (algo : messages.Algo)
| DidSetBlame (reason : string) (nodes : list blame.Node) (isUnicast : bool) (tag : string)
| DidAddBlameNodes (nodes : list blame.Node)
| DidSetIsUnicast (isUnicast : bool)
| DidSetLastMsg (msg : Message)
| SentOut (msg : Message) (kind : p2p.THORChainTSSMessageType)
| NotifiedTaskDone
| SavedLocalState (item : storage.KeygenLocalState)
| SavedAddressBook.

(** What arrives at the [select] of [processKeyGen] / [processKeySign]:
    [errChan] closed, [stopChan] closed, the timer, a message on [outCh], a
    result on [endCh].  When nothing more arrives the timer fires. *)
Inductive Event (T : Type) : Type :=
| ErrChanClosed
| StopChanClosed
| TimerFired
| OutMsg (msg : Message)
| EndMsg (result : T).

Arguments ErrChanClosed {T}.
Arguments StopChanClosed {T}.
Arguments TimerFired {T}.
Arguments OutMsg {T} msg.
Arguments EndMsg {T} result.

Definition withVerdict (s : Session) (b : blame.Blame) : Session :=
  {| lastMsg := lastMsg s; verdict := b |}.

Definition SetLastMsg (msg : Message) (s : Session) : Session :=
  {| lastMsg := Some msg; verdict := verdict s |}.

Definition setIsUnicast (b : blame.Blame) (isUnicast : bool) : blame.Blame :=
  {| blame.FailReason := blame.FailReason b; blame.IsUnicast := isUnicast;
     blame.BlameNodes := blame.BlameNodes b |}.

(** [failReason := GetBlame().FailReason; if failReason == "" { failReason = blame.TssTimeout }] *)
Definition timeoutReason (s : Session) : string :=
  if bool_decide (blame.FailReason (verdict s) = EmptyString)
  then blame.TssTimeout else blame.FailReason (verdict s).

(** [if len(nodes) > 0 && len(nodes) <= threshold { SetBlame(failReason, nodes, true, tag) }] *)
Definition setBlameWithin (w : World) (failReason : string) (nodes : list blame.Node)
    (threshold : Z) (tag : string) (s : Session) : Session * list Effect :=
  if (0 <? len nodes) && (len nodes <=? threshold)
  then (withVerdict s (blame.SetBlame (blameMgr w) failReason nodes true tag (verdict s)),
        [DidSetBlame failReason nodes true tag])
  else (s, []).

(** The last part of both timeout branches: the missing-share sweep when no
    node is blamed yet. *)
Definition missingShareSweep (w : World) (nrounds : Z) (algo : messages.Algo)
    (threshold : Z) (s : Session) : Session * list Effect :=
  if len (blame.BlameNodes (verdict s)) =? 0 then
    let '(blameNodesMisingShare, isUnicast, _) :=
      blame.TssMissingShareBlame (blameMgr w) nrounds algo in
    if (0 <? len blameNodesMisingShare) && (len blameNodesMisingShare <=? threshold)
    then
      (withVerdict s
         (setIsUnicast (blame.AddBlameNodes (blameMgr w) blameNodesMisingShare (verdict s))
            isUnicast),
       [AskedMissingShareBlame nrounds algo;
        DidAddBlameNodes blameNodesMisingShare; DidSetIsUnicast isUnicast])
    else (s, [AskedMissingShareBlame nrounds algo])
  else (s, []).

(** *** processKeyGen *)

(** The case [<-time.After(tssConf.KeyGenTimeout)]. *)
Definition keyGenTimeout (w : World) (s : Session)
    : (option ECPoint * option error * string) * Session * list Effect :=
  let failReason := timeoutReason s in
  match lastMsg s with
  | None =>
      ((None, Some (errNew "[eddsa] timeout before shared message is generated"), EmptyString),
       s, [])
  | Some lastMsg =>
      let round := messages.EDDSAKEYGEN2a (rounds w) in
      let '(blameNodesUnicast, _) := blame.GetUnicastBlame (blameMgr w) round in
      let '(threshold, _) := conversion.GetThreshold (len (P2PPeers w) + 1) in
      let '(s, e1) :=
        setBlameWithin w failReason blameNodesUnicast threshold "KeyGenTimeout" s in
      let '(blameNodesBroadcast, _) :=
        blame.GetBroadcastBlame (blameMgr w) (MsgType lastMsg) in
      let s := withVerdict s (blame.AddBlameNodes (blameMgr w) blameNodesBroadcast (verdict s)) in
      let '(s, e2) :=
        missingShareSweep w (messages.EDDSAKEYGENROUNDS (rounds w)) messages.EDDSAKEYGEN
          threshold s in
      ((None, Some blame.ErrTssTimeOut, EmptyString), s,
       AskedUnicastBlame round :: e1
         ++ AskedBroadcastBlame (MsgType lastMsg) :: DidAddBlameNodes blameNodesBroadcast :: e2)
  end.

(** The case [msg := <-endCh]. *)
Definition keyGenEnd (w : World) (keyGenLocalStateItem : storage.KeygenLocalState)
    (msg : LocalPartySaveData) (s : Session)
    : (option ECPoint * option error * string) * Session * list Effect :=
  let '(strPubKey, err) := GetTssPubKeyEDDSA w (EDDSAPub msg) in
  match err with
  | Some err =>
      ((None, Some (errWrap "fail to get thorchain pubkey" err), EmptyString), s,
       [NotifiedTaskDone])
  | None =>
      let '(marshaledMsg, err) := Marshal w msg in
      match err with
      | Some _ =>
          ((None, Some (errNew "[eddsa] fail to marshal the result"), EmptyString), s,
           [NotifiedTaskDone])
      | None =>
          let item :=
            {| storage.PubKey := strPubKey; storage.LocalData := marshaledMsg;
               storage.ParticipantKeys := storage.ParticipantKeys keyGenLocalStateItem;
               storage.LocalPartyKey := storage.LocalPartyKey keyGenLocalStateItem |} in
          match SaveLocalState w item messages.EDDSAKEYGEN with
          | Some err =>
              ((None, Some (errWrap "[eddsa] fail to save keygen result to storage" err),
                EmptyString), s,
               [NotifiedTaskDone; SavedLocalState item])
          | None =>
              ((Some (EDDSAPub msg), None, strPubKey), s,
               [NotifiedTaskDone; SavedLocalState item; SavedAddressBook])
          end
      end
  end.

(** [processKeyGen]: the select loop over what its channels deliver. *)
Fixpoint processKeyGen (w : World) (keyGenLocalStateItem : storage.KeygenLocalState)
    (events : list (Event LocalPartySaveData)) (s : Session)
    : (option ECPoint * option error * string) * Session * list Effect :=
  match events with
  | [] | TimerFired :: _ => keyGenTimeout w s
  | ErrChanClosed :: _ =>
      ((None, Some (errNew "[eddsa] error channel closed fail to start local party"),
        EmptyString), s, [])
  | StopChanClosed :: _ =>
      ((None, Some (errNew "[eddsa] received exit signal"), EmptyString), s, [])
  | OutMsg msg :: events =>
      let s := SetLastMsg msg s in
      match ProcessOutCh w msg p2p.TSSKeyGenMsg with
      | Some err =>
          ((None, Some err, EmptyString), s, [DidSetLastMsg msg; SentOut msg p2p.TSSKeyGenMsg])
      | None =>
          let '(r, s, e) := processKeyGen w keyGenLocalStateItem events s in
          (r, s, DidSetLastMsg msg :: SentOut msg p2p.TSSKeyGenMsg :: e)
      end
  | EndMsg msg :: _ => keyGenEnd w keyGenLocalStateItem msg s
  end.

(** *** processKeySign *)

(** The case [<-time.After(tssConf.KeySignTimeout)].  [lastMsg] is used
    without a nil test: when no outbound message was recorded,
    [lastMsg.IsBroadcast()] is a call on a nil interface. *)
Definition keySignTimeout (w : World) (s : Session)
    : Run (list SignatureData * option error) * Session * list Effect :=
  let failReason := timeoutReason s in
  let '(threshold, _) := conversion.GetThreshold (len (P2PPeers w) + 1) in
  match lastMsg s with
  | None => (Panics "invalid memory address or nil pointer dereference", s, [])
  | Some lastMsg =>
      let round :=
        if negb (IsBroadcast lastMsg) then MsgType lastMsg
        else GetPreviousKeySignUicast w (MsgType lastMsg) in
      let tag :=
        if negb (IsBroadcast lastMsg) then "KeySignTimeout broadcast"
        else "KeySignTimeout unicast" in
      let '(blameNodesUnicast, _) := blame.GetUnicastBlame (blameMgr w) round in
      let '(s, e1) := setBlameWithin w failReason blameNodesUnicast threshold tag s in
      let '(blameNodesBroadcast, _) :=
        blame.GetBroadcastBlame (blameMgr w) (MsgType lastMsg) in
      let s := withVerdict s (blame.AddBlameNodes (blameMgr w) blameNodesBroadcast (verdict s)) in
      let '(s, e2) :=
        missingShareSweep w (messages.EDDSAKEYSIGNROUNDS (rounds w)) messages.EDDSAKEYSIGN
          threshold s in
      (Returns ([], Some blame.ErrTssTimeOut), s,
       AskedUnicastBlame round :: e1
         ++ AskedBroadcastBlame (MsgType lastMsg) :: DidAddBlameNodes blameNodesBroadcast :: e2)
  end.

(** [processKeySign]: the select loop, with the signatures collected so far. *)
Fixpoint keySignLoop (w : World) (reqNum : Z) (events : list (Event SignatureData))
    (signatures : list SignatureData) (s : Session)
    : Run (list SignatureData * option error) * Session * list Effect :=
  match events with
  | [] | TimerFired :: _ => keySignTimeout w s
  | ErrChanClosed :: _ =>
      (Returns ([], Some (errNew "error channel closed fail to start local party")), s, [])
  | StopChanClosed :: _ =>
      (Returns ([], Some (errNew "received exit signal")), s, [])
  | OutMsg msg :: events =>
      let s := SetLastMsg msg s in
      match ProcessOutCh w msg p2p.TSSKeySignMsg with
      | Some err =>
          (Returns ([], Some err), s, [DidSetLastMsg msg; SentOut msg p2p.TSSKeySignMsg])
      | None =>
          let '(r, s, e) := keySignLoop w reqNum events signatures s in
          (r, s, DidSetLastMsg msg :: SentOut msg p2p.TSSKeySignMsg :: e)
      end
  | EndMsg msg :: events =>
      let signatures := signatures ++ [msg] in
      if len signatures =? reqNum
      then (Returns (signatures, None), s, [NotifiedTaskDone; SavedAddressBook])
      else keySignLoop w reqNum events signatures s
  end.

Definition processKeySign (w : World) (reqNum : Z) (events : list (Event SignatureData))
    (s : Session) : Run (list SignatureData * option error) * Session * list Effect :=
  keySignLoop w reqNum events [] s.

(** The evidence tables a run asked, in order: the calls of
    [GetUnicastBlame] and [GetBroadcastBlame]. *)
Definition evidenceQueries (done : list Effect) : list Effect :=
  omap (λ e, match e with
             | AskedUnicastBlame _ | AskedBroadcastBlame _ => Some e
             | _ => None
             end) done.

(** The results [endCh] delivers among some events, in order. *)
Definition endResults {T : Type} (events : list (Event T)) : list T :=
  omap (λ ev, match ev with EndMsg result => Some result | _ => None end) events.

(** The outbound messages a run handed to [ProcessOutCh], in order. *)
Definition sentOut (done : list Effect) : list Message :=
  omap (λ e, match e with SentOut msg _ => Some msg | _ => None end) done.

(** *** SignMessage *)

(** [new(big.Int).SetBytes(buf)]: [buf] read as a big-endian unsigned
    integer; and [a.Cmp(b)]. *)
Definition SetBytes (buf : list byte) : Z :=
  fold_left (λ acc b, acc * 256 + byteVal b) buf 0.

Definition Cmp (a b : Z) : Z :=
  match a ?= b with
  | Lt => -1
  | Eq => 0
  | Gt => 1
  end.

(** The function [SignMessage] hands to [sort.SliceStable]:
    [a := SetBytes(results[i].M); b := SetBytes(results[j].M);
     if a.Cmp(b) == -1 { return false }; return true] *)
Definition signatureLess (ri rj : SignatureData) : bool :=
  let a := SetBytes (M ri) in
  let b := SetBytes (M rj) in
  if Cmp a b =? -1 then false else true.

(** [*btss.PartyID], of which the engine reads the id. *)
Record PartyID : Type := {
  Id : string;
  Moniker : string;
}.

(** What [SignMessage] asks besides what [processKeySign] asks: the
    parties of a key list, whether the local party is one of them, the hash
    of a message, whether the saved key-share unmarshals, the two calls of
    [SetupIDMaps], and what the channels deliver once the parties run (a
    local party that fails to start closes [errCh]). *)
Record Signing : Type := {
  world : World;
  GetParties : list string → string → list PartyID * PartyID * option error;
  Contains : list PartyID → PartyID → bool;
  MsgToHashInt : list byte → messages.Algo → Z * option error;
  Unmarshal : list byte → option error;
  SetupIDMaps1 : option error;
  SetupIDMaps2 : option error;
  delivered : list (Event SignatureData);
}.

(** The loop [for i, val := range msgsToSign] that builds one local party
    per message: the error it returns with, if any. *)
Fixpoint buildParties (g : Signing) (msgsToSign : list (list byte))
    (localStateItem : storage.KeygenLocalState) (parties : list string) : option error :=
  match msgsToSign with
  | [] => None
  | val :: msgsToSign =>
      let '(_, err) := MsgToHashInt g val messages.EDDSAKEYSIGN in
      match err with
      | Some err => Some (errWrap "fail to convert msg to hash int" err)
      | None =>
          let '(_, _, err) := GetParties g parties (storage.LocalPartyKey localStateItem) in
          match err with
          | Some err => Some (errWrap "error to create parties in batch signging" err)
          | None =>
              match Unmarshal g (storage.LocalData localStateItem) with
              | Some _ => Some (errNew "fail to unmarshal the local saved data")
              | None => buildParties g msgsToSign localStateItem parties
              end
          end
      end
  end.

(** [SignMessage].  When a [SetupIDMaps] call fails the code returns
    [nil, err] with the [err] of the enclosing scope, which is nil there. *)
Definition SignMessage (g : Signing) (msgsToSign : list (list byte))
    (localStateItem : storage.KeygenLocalState) (parties : list string) (s : Session)
    : Run (list SignatureData * option error) * Session * list Effect :=
  let '(partiesID, localPartyID, err) :=
    GetParties g parties (storage.LocalPartyKey localStateItem) in
  match err with
  | Some err => (Returns ([], Some (errWrap "fail to form key sign party" err)), s, [])
  | None =>
      if negb (Contains g partiesID localPartyID) then (Returns ([], None), s, [])
      else
        let '(threshold, err) :=
          conversion.GetThreshold (len (storage.ParticipantKeys localStateItem)) in
        match err with
        | Some _ => (Returns ([], Some (errNew "fail to get threshold")), s, [])
        | None =>
            match buildParties g msgsToSign localStateItem parties with
            | Some err => (Returns ([], Some err), s, [])
            | None =>
                match SetupIDMaps1 g, SetupIDMaps2 g with
                | None, None =>
                    let '(r, s, e) :=
                      processKeySign (world g) (len msgsToSign) (delivered g) s in
                    match r with
                    | Panics why => (Panics why, s, e)
                    | Returns (_, Some err) =>
                        (Returns ([], Some (errWrap "fail to process key sign" err)), s, e)
                    | Returns (results, None) =>
                        (Returns (sort.SliceStable signatureLess results, None), s, e)
                    end
                | _, _ => (Returns ([], err), s, [])
                end
            end
        end
  end.

(** The order the specification states for the returned signatures, and the
    opposite one: by the value of [M], smallest first or largest first. *)
Definition ascendingByM (results : list SignatureData) : Prop :=
  ∀ i j ri rj, (i < j)%nat → results !! i = Some ri → results !! j = Some rj →
    SetBytes (M ri) ≤ SetBytes (M rj).

Definition descendingByM (results : list SignatureData) : Prop :=
  ∀ i j ri rj, (i < j)%nat → results !! i = Some ri → results !! j = Some rj →
    SetBytes (M rj) ≤ SetBytes (M ri).

(** *** GenerateNewKey *)

(** What [GenerateNewKey] asks besides what [processKeyGen] asks: the node's
    own key, the parties of a key list, the two calls of [SetupIDMaps], and
    what the channels deliver once the local party runs (a party that fails
    to start closes [errChan]). *)
Record Generating : Type := {
  genWorld : World;
  localNodePubKey : string;
  genGetParties : list string → string → list PartyID * PartyID * option error;
  genSetupIDMaps1 : option error;
  genSetupIDMaps2 : option error;
  genDelivered : list (Event LocalPartySaveData);
}.

(** [GenerateNewKey].  When a [SetupIDMaps] call fails the code returns
    [nil, err] with the [err] of [GetThreshold], which is nil there. *)
Definition GenerateNewKey (g : Generating) (keygenReq : keygen.Request) (s : Session)
    : (option ECPoint * option error) * Session * list Effect :=
  let '(partiesID, localPartyID, err) :=
    genGetParties g (keygen.Keys keygenReq) (localNodePubKey g) in
  match err with
  | Some err => ((None, Some (errWrap "fail to get keygen parties" err)), s, [])
  | None =>
      let keyGenLocalStateItem :=
        {| storage.PubKey := EmptyString; storage.LocalData := [];
           storage.ParticipantKeys := keygen.Keys keygenReq;
           storage.LocalPartyKey := localNodePubKey g |} in
      let '(threshold, err) := conversion.GetThreshold (len partiesID) in
      match err with
      | Some err => ((None, Some err), s, [])
      | None =>
          match genSetupIDMaps1 g, genSetupIDMaps2 g with
          | None, None =>
              let '(r, err, _, s, e) :=
                processKeyGen (genWorld g) keyGenLocalStateItem (genDelivered g) s in
              match err with
              | Some err => ((None, Some (errWrap "fail to process key sign" err)), s, e)
              | None => ((r, None), s, e)
              end
          | _, _ => ((None, err), s, [])
          end
      end
  end.

End eddsa.

(** ** Packages common and keysign, as the [tss] file uses them *)

Module common.

(** Modelled from the spec: the status of a response, [Fail] or success;
    [NA] is the zero value of an empty [Response{}]. *)
Inductive Status : Type :=
| NA
| Success
| Fail.

(** Modelled from the spec: a blame verdict with its reason and nodes, the
    constructor [NewBlame] and the reason tags the code names. *)
Record Blame : Type := {
  FailReason : string;
  BlameNodes : list string;
}.

Definition NewBlame (reason : string) (blameNodes : list string) : Blame :=
  {| FailReason := reason; BlameNodes := blameNodes |}.

Definition NoBlame : Blame := NewBlame EmptyString [].

Definition BlameTssCoordinator : string := "BlameTssCoordinator".
Definition BlameTssSync : string := "BlameTssSync".

End common.

Module keysign.

(** [keysign.Request]. *)
Record Request : Type := {
  PoolPubKey : string;
  Messages : list string;
  SignerPubKeys : list string;
}.

(** [keysign.Signature]: message, R and S in base64. *)
Record Signature : Type := {
  Msg : string;
  SigR : string;
  SigS : string;
}.

(** [keysign.Response]. *)
Record Response : Type := {
  Signatures : list Signature;
  Status : common.Status;
  Blame : common.Blame;
}.

(** [keysign.Response{}], all fields at their zero value. *)
Definition emptyResponse : Response :=
  {| Signatures := []; Status := common.NA;
     Blame := {| common.FailReason := EmptyString; common.BlameNodes := [] |} |}.

End keysign.

(** ** Package tss: KeySign *)

Module tss.

Import keysign.

(** The answer of party formation. *)
Inductive JoinPartyResponseType : Type :=
| JoinPartyResponse_Success
| JoinPartyResponse_Other.

Record JoinPartyResponse : Type := {
  ResponseType : JoinPartyResponseType;
  PeerIDs : list string;
}.

(** The collaborators of one [KeySign] call, with their answers: the
    server's own helpers declared outside the files at hand, storage, base64,
    party formation, the signing instance and the signature notifier. *)
Record Server : Type := {
  localNodePubKey : string;
  requestToMsgId : Request → string * option error;
  GetLocalState : string → storage.KeygenLocalState * option error;
  DecodeString : string → list byte * option error;
  EncodeToString : list byte → string;
  WaitForSignature : string → string → list tsslib.SignatureData * option error;
  GetPeerIDs : list string → list peer.ID * option error;
  joinParty : string → string → list string → option JoinPartyResponse * peer.ID * option error;
  GetPubKeyFromPeerID : peer.ID → string * option error;
  getBlamePeers : list string → list string → string → common.Blame * option error;
  AddBlameNodes : string → common.Blame → common.Blame;
  SignMessage : list (list byte) → storage.KeygenLocalState → list string
                → list tsslib.SignatureData * option error;
  BlamePeers : common.Blame;
  BroadcastSignature : string → list tsslib.SignatureData → list peer.ID → option error;
}.

(** What a [KeySign] call does that others can see, in order. *)
Inductive Action : Type :=
| Subscribed (topic : p2p.THORChainTSSMessageType) (msgID : string)
| Cancelled (topic : p2p.THORChainTSSMessageType) (msgID : string)
| Waited (msgID : string)
| JoinedParty (msgID : string) (msgToSignID : string) (signers : list string)
| BroadcastFailure (msgID : string) (peers : list peer.ID)
| Signed (msgsToSign : list (list byte)) (signers : list string)
| CountedFailedKeySign
| CountedSucKeySign
| BroadcastSignatures (msgID : string).

(** The loop that decodes [req.Messages]; it stops at the first message
    that is not base64. *)
Fixpoint decodeMessages (t : Server) (messages : list string)
    : list (list byte) * option error :=
  match messages with
  | [] => ([], None)
  | val :: messages =>
      let '(msgToSign, err) := DecodeString t val in
      match err with
      | Some err => ([], Some (errWrap "fail to decode message" err))
      | None =>
          let '(msgsToSign, err) := decodeMessages t messages in
          (msgToSign :: msgsToSign, err)
      end
  end.

Definition batchSignatures (t : Server) (msgID : string)
    (sigs : list tsslib.SignatureData) : Response :=
  {| Signatures :=
       map (λ sig, {| Msg := EncodeToString t (tsslib.M sig);
                      SigR := EncodeToString t (tsslib.SigR sig);
                      SigS := EncodeToString t (tsslib.SigS sig) |}) sigs;
     Status := common.Success;
     Blame := common.NoBlame |}.

Definition isPartOfKeysignParty (t : Server) (parties : list string) : bool :=
  existsb (λ item, bool_decide (localNodePubKey t = item)) parties.

(** [sort.Strings]: ascending in byte order. *)
Definition sortStrings (l : list string) : list string :=
  merge_sort (λ a b, Is_true (String.leb a b)) l.

(** [strings.Join(elems, ",")]. *)
Fixpoint joinComma (elems : list string) : string :=
  match elems with
  | [] => EmptyString
  | [e] => e
  | e :: elems => String.append e (String.append "," (joinComma elems))
  end.

(** The part of [KeySign] after the two [SetSubscribe] calls; the deferred
    [CancelSubscribe] calls run when it returns. *)
Definition keySignBody (t : Server) (req : Request) (msgID : string)
    : Run (Response * option error) * list Action :=
  let '(localStateItem, err) := GetLocalState t (PoolPubKey req) in
  match err with
  | Some err =>
      (Returns (emptyResponse, Some (errWrap "fail to get local keygen state" err)), [])
  | None =>
  let '(msgsToSign, err) := decodeMessages t (Messages req) in
  match err with
  | Some err => (Returns (emptyResponse, Some err), [])
  | None =>
  if len (SignerPubKeys req) =? 0
  then (Returns (emptyResponse, Some (errNew "empty signer pub keys")), [])
  else
  let '(threshold, err) :=
    conversion.GetThreshold (len (storage.ParticipantKeys localStateItem)) in
  match err with
  | Some _ => (Returns (emptyResponse, Some (errNew "fail to get threshold")), [])
  | None =>
  if len (SignerPubKeys req) <=? threshold
  then (Returns (emptyResponse, Some (errNew "not enough signers")), [])
  else
  if negb (isPartOfKeysignParty t (SignerPubKeys req)) then
    let '(data, err) := WaitForSignature t msgID (PoolPubKey req) in
    match err with
    | Some err =>
        (Returns (emptyResponse, Some (errWrap "fail to get signature" err)), [Waited msgID])
    | None =>
        if len data =? 0
        then (Returns (emptyResponse, Some (errNew "keysign failed")), [Waited msgID])
        else (Returns (batchSignatures t msgID data, None), [Waited msgID])
    end
  else
  let '(signers, err) := GetPeerIDs t (storage.ParticipantKeys localStateItem) in
  match err with
  | Some err =>
      (Returns (emptyResponse, Some (errWrap "fail to convert pub keys to peer id" err)), [])
  | None =>
  let msgToSignID := joinComma (sortStrings (Messages req)) in
  let joined := JoinedParty msgID msgToSignID (SignerPubKeys req) in
  let '(result, leaderPeerID, err) := joinParty t msgID msgToSignID (SignerPubKeys req) in
  match err, result with
  | Some _, _ =>
      (* just blame the leader node *)
      let '(pKey, _) := GetPubKeyFromPeerID t leaderPeerID in
      (Returns ({| Signatures := []; Status := common.Fail;
                   Blame := common.NewBlame common.BlameTssCoordinator [pKey] |}, None),
       [joined; BroadcastFailure msgID signers])
  | None, None =>
      (* [result.Type] on a nil result *)
      (Panics "invalid memory address or nil pointer dereference", [joined])
  | None, Some result =>
  match ResponseType result with
  | JoinPartyResponse_Other =>
      let '(pKey, _) := GetPubKeyFromPeerID t leaderPeerID in
      let '(blame, _) :=
        getBlamePeers t (SignerPubKeys req) (PeerIDs result) common.BlameTssSync in
      (* make sure we blame the leader as well *)
      (Returns ({| Signatures := []; Status := common.Fail;
                   Blame := AddBlameNodes t pKey blame |}, None),
       [joined; BroadcastFailure msgID signers])
  | JoinPartyResponse_Success =>
  let signed := Signed msgsToSign (SignerPubKeys req) in
  let '(signaturesData, err) := SignMessage t msgsToSign localStateItem (SignerPubKeys req) in
  match err with
  | Some _ =>
      (Returns ({| Signatures := []; Status := common.Fail; Blame := BlamePeers t |}, None),
       [joined; signed; CountedFailedKeySign; BroadcastFailure msgID signers])
  | None =>
      match BroadcastSignature t msgID signaturesData signers with
      | Some err =>
          (Returns (emptyResponse, Some (errWrap "fail to broadcast signature" err)),
           [joined; signed; CountedSucKeySign; BroadcastSignatures msgID])
      | None =>
          (Returns (batchSignatures t msgID signaturesData, None),
           [joined; signed; CountedSucKeySign; BroadcastSignatures msgID])
      end
  end
  end
  end
  end
  end
  end
  end.

(** [KeySign]. *)
Definition KeySign (t : Server) (req : Request)
    : Run (Response * option error) * list Action :=
  let '(msgID, err) := requestToMsgId t req in
  match err with
  | Some err => (Returns (emptyResponse, Some err), [])
  | None =>
      let '(r, done) := keySignBody t req msgID in
      (r,
       [Subscribed p2p.TSSKeySignMsg msgID; Subscribed p2p.TSSKeySignVerMsg msgID]
         ++ done
         ++ [Cancelled p2p.TSSKeySignVerMsg msgID; Cancelled p2p.TSSKeySignMsg msgID])
  end.

(** Whether an action starts party formation or signing. *)
Definition startsSession (a : Action) : bool :=
  match a with
  | JoinedParty _ _ _ | Signed _ _ => true
  | _ => false
  end.

(** Whether an action is part of party formation, signing or the sending
    of blame to the peers. *)
Definition formsSignsOrBlames (a : Action) : bool :=
  match a with
  | JoinedParty _ _ _ | Signed _ _ | BroadcastFailure _ _ => true
  | _ => false
  end.

(** The call an action makes on the subscription table of
    [t.p2pCommunication]; [channel] is [keysignInstance.GetTssKeySignChannels()]. *)
Definition busCall (channel : p2p.Chan) (a : Action) : option p2p.BusCall :=
  match a with
  | Subscribed topic msgID => Some (p2p.CallSetSubscribe topic msgID channel)
  | Cancelled topic msgID => Some (p2p.CallCancelSubscribe topic msgID)
  | _ => None
  end.

(** The subscription table after a [KeySign] call that found it as [c]. *)
Definition tableAfter (channel : p2p.Chan) (done : list Action) (c : p2p.Communication)
    : p2p.Communication :=
  p2p.busRun (omap (busCall channel) done) c.

End tss.

(** ** Concrete nodes, networks and sessions

    Small instances of the collaborators, on which the definitions above
    can be run. *)

Module examples.

(** A node ["self"] in the cohort ["Asgard"], and a network on which
    discovery finds the peers ["A"] and ["B"] and every stream takes every
    write in full. *)
Definition node : p2p.Communication := p2p.NewCommunication "Asgard" "self".

Definition goodStream (n : Z) : p2p.OutStream :=
  {| p2p.writeDeadline1 := None; p2p.write1 := (4, None);
     p2p.writeDeadline2 := None; p2p.write2 := (n, None);
     p2p.closeAnswer := None |}.

Definition peerA : peer.AddrInfo := {| peer.AddrInfo_ID := "A"; peer.Addrs := [] |}.
Definition peerB : peer.AddrInfo := {| peer.AddrInfo_ID := "B"; peer.Addrs := [] |}.

Definition hello : list byte := [x68; x69].

Definition network : p2p.Network :=
  {| p2p.FindPeers := λ _, ([Some peerA; Some peerB], None);
     p2p.NewStream := λ _, (goodStream 2, None) |}.

(** An inbound stream from ["A"] whose first frame declares 81921 bytes
    (01 40 01 00, little-endian), and a node with a subscriber for what
    the frame would carry. *)
Definition oversizeStream : p2p.Stream :=
  {| p2p.RemotePeer := "A";
     p2p.arriving := [p2p.Arrived [x01; x40; x01; x00; x7b; x7d]];
     p2p.deadlineAnswers := [];
     p2p.stopPolls := [] |}.

Definition listeningNode : p2p.Communication :=
  p2p.SetSubscribe p2p.TSSKeySignMsg "msg-1" 7%nat node.

Definition unmarshalAny (buf : list byte) : option p2p.WrappedMessage :=
  Some {| p2p.MessageType := p2p.TSSKeySignMsg; p2p.MsgID := "msg-1"; p2p.WPayload := buf |}.

(** A blame manager with empty evidence tables, whose verdict takes what
    it is given. *)
Definition manager : blame.Manager :=
  {| blame.GetUnicastBlame := λ _, ([], None);
     blame.GetBroadcastBlame := λ _, ([], None);
     blame.TssMissingShareBlame := λ _ _, ([], false, None);
     blame.SetBlame := λ reason nodes isUnicast _ _,
       {| blame.FailReason := reason; blame.IsUnicast := isUnicast;
          blame.BlameNodes := nodes |};
     blame.AddBlameNodes := λ nodes b,
       {| blame.FailReason := blame.FailReason b; blame.IsUnicast := blame.IsUnicast b;
          blame.BlameNodes := blame.BlameNodes b ++ nodes |} |}.

(** A session of four nodes in which every outside call succeeds.  The
    round before ["SignRound3"] whose messages are unicast is
    ["SignRound2"]. *)
Definition world : eddsa.World :=
  {| eddsa.rounds :=
       {| messages.EDDSAKEYGEN2a := "KGRound2Message1";
          messages.EDDSAKEYGENROUNDS := 3;
          messages.EDDSAKEYSIGNROUNDS := 3 |};
     eddsa.blameMgr := manager;
     eddsa.GetPreviousKeySignUicast := λ _, "SignRound2"%string;
     eddsa.P2PPeers := ["B"; "C"; "D"]%string;
     eddsa.ProcessOutCh := λ _ _, None;
     eddsa.NotifyTaskDone := None;
     eddsa.SaveAddressBook := None;
     eddsa.GetTssPubKeyEDDSA := λ _, ("pubkey"%string, None);
     eddsa.Marshal := λ _, ([], None);
     eddsa.SaveLocalState := λ _ _, None |}.

Definition fresh : eddsa.Session :=
  {| eddsa.lastMsg := None;
     eddsa.verdict := {| blame.FailReason := EmptyString; blame.IsUnicast := false;
                         blame.BlameNodes := [] |} |}.

Definition unicast3 : tsslib.Message :=
  {| tsslib.MsgType := "SignRound3"; tsslib.IsBroadcast := false |}.

Definition broadcast3 : tsslib.Message :=
  {| tsslib.MsgType := "SignRound3"; tsslib.IsBroadcast := true |}.

Definition keyShare : storage.KeygenLocalState :=
  {| storage.PubKey := "pool"; storage.LocalData := [];
     storage.ParticipantKeys := ["A"; "B"; "C"; "D"]%string;
     storage.LocalPartyKey := "A" |}.

(** Two signatures, of the messages 01 and 02. *)
Definition sigOne : tsslib.SignatureData :=
  {| tsslib.Signature := [x0a]; tsslib.SigR := []; tsslib.SigS := []; tsslib.M := [x01] |}.

Definition sigTwo : tsslib.SignatureData :=
  {| tsslib.Signature := [x0b]; tsslib.SigR := []; tsslib.SigS := []; tsslib.M := [x02] |}.

Definition partyA : eddsa.PartyID := {| eddsa.Id := "A"; eddsa.Moniker := EmptyString |}.
Definition partyB : eddsa.PartyID := {| eddsa.Id := "B"; eddsa.Moniker := EmptyString |}.
Definition partyC : eddsa.PartyID := {| eddsa.Id := "C"; eddsa.Moniker := EmptyString |}.

(** A batch of two messages: the local parties send one message and
    deliver the signature of 01, then that of 02. *)
Definition signing : eddsa.Signing :=
  {| eddsa.world := world;
     eddsa.GetParties := λ _ _, ([partyA; partyB; partyC], partyA, None);
     eddsa.Contains := λ _ _, true;
     eddsa.MsgToHashInt := λ _ _, (0, None);
     eddsa.Unmarshal := λ _, None;
     eddsa.SetupIDMaps1 := None;
     eddsa.SetupIDMaps2 := None;
     eddsa.delivered :=
       [eddsa.OutMsg broadcast3; eddsa.EndMsg sigOne; eddsa.EndMsg sigTwo] |}.

(** A server that holds the key-share of ["pool"] and whose party
    formation fails, and one that holds no key-share. *)
Definition server : tss.Server :=
  {| tss.localNodePubKey := "A";
     tss.requestToMsgId := λ _, ("msg-1"%string, None);
     tss.GetLocalState := λ _, (keyShare, None);
     tss.DecodeString := λ _, ([x68; x69], None);
     tss.EncodeToString := λ _, "aGk="%string;
     tss.WaitForSignature := λ _ _, ([], None);
     tss.GetPeerIDs := λ keys, (keys, None);
     tss.joinParty := λ _ _ _, (None, "leader"%string, Some (errNew "fail to form party"));
     tss.GetPubKeyFromPeerID := λ _, ("leaderKey"%string, None);
     tss.getBlamePeers := λ _ _ reason, (common.NewBlame reason [], None);
     tss.AddBlameNodes := λ n b,
       common.NewBlame (common.FailReason b) (common.BlameNodes b ++ [n]);
     tss.SignMessage := λ _ _ _, ([], None);
     tss.BlamePeers := common.NoBlame;
     tss.BroadcastSignature := λ _ _ _, None |}.


Definition request (signers : list string) : keysign.Request :=
  {| keysign.PoolPubKey := "pool"; keysign.Messages := ["aGk="%string];
     keysign.SignerPubKeys := signers |}.

(** A session like [world] whose unicast evidence names the node ["B"]. *)
Definition accusingWorld : eddsa.World :=
  {| eddsa.rounds := eddsa.rounds world;
     eddsa.blameMgr :=
       {| blame.GetUnicastBlame := λ _, (["B"%string], None);
          blame.GetBroadcastBlame := blame.GetBroadcastBlame manager;
          blame.TssMissingShareBlame := blame.TssMissingShareBlame manager;
          blame.SetBlame := blame.SetBlame manager;
          blame.AddBlameNodes := blame.AddBlameNodes manager |};
     eddsa.GetPreviousKeySignUicast := eddsa.GetPreviousKeySignUicast world;
     eddsa.P2PPeers := eddsa.P2PPeers world;
     eddsa.ProcessOutCh := eddsa.ProcessOutCh world;
     eddsa.NotifyTaskDone := eddsa.NotifyTaskDone world;
     eddsa.SaveAddressBook := eddsa.SaveAddressBook world;
     eddsa.GetTssPubKeyEDDSA := eddsa.GetTssPubKeyEDDSA world;
     eddsa.Marshal := eddsa.Marshal world;
     eddsa.SaveLocalState := eddsa.SaveLocalState world |}.

(** A batch like [signing] for which the first [SetupIDMaps] call fails. *)
Definition signingWithoutIDMaps : eddsa.Signing :=
  {| eddsa.world := world;
     eddsa.GetParties := eddsa.GetParties signing;
     eddsa.Contains := eddsa.Contains signing;
     eddsa.MsgToHashInt := eddsa.MsgToHashInt signing;
     eddsa.Unmarshal := eddsa.Unmarshal signing;
     eddsa.SetupIDMaps1 := Some (errNew "invalid peer id");
     eddsa.SetupIDMaps2 := None;
     eddsa.delivered := eddsa.delivered signing |}.

(** A key generation among the nodes A, B and C in which the local party
    sends one message and ends with a key. *)
Definition newKey : tsslib.LocalPartySaveData :=
  {| tsslib.EDDSAPub := {| tsslib.X := 1; tsslib.Y := 2 |}; tsslib.saved := [x01] |}.

Definition keygenRound1 : tsslib.Message :=
  {| tsslib.MsgType := "KGRound1Message"; tsslib.IsBroadcast := true |}.

Definition generating : eddsa.Generating :=
  {| eddsa.genWorld := world;
     eddsa.localNodePubKey := "A";
     eddsa.genGetParties := λ _ _, ([partyA; partyB; partyC], partyA, None);
     eddsa.genSetupIDMaps1 := None;
     eddsa.genSetupIDMaps2 := None;
     eddsa.genDelivered := [eddsa.OutMsg keygenRound1; eddsa.EndMsg newKey] |}.

Definition generatingWithoutIDMaps : eddsa.Generating :=
  {| eddsa.genWorld := world;
     eddsa.localNodePubKey := "A";
     eddsa.genGetParties := eddsa.genGetParties generating;
     eddsa.genSetupIDMaps1 := None;
     eddsa.genSetupIDMaps2 := Some (errNew "invalid peer id");
     eddsa.genDelivered := eddsa.genDelivered generating |}.

Definition keygenRequest : keygen.Request :=
  {| keygen.Keys := ["A"; "B"; "C"]%string |}.

(** A server like [server] that is not one of the signers it is asked
    for and is told two signatures by the signers, and one whose party
    formation and signing succeed. *)
Definition observer : tss.Server :=
  {| tss.localNodePubKey := "Z";
     tss.requestToMsgId := tss.requestToMsgId server;
     tss.GetLocalState := tss.GetLocalState server;
     tss.DecodeString := tss.DecodeString server;
     tss.EncodeToString := tss.EncodeToString server;
     tss.WaitForSignature := λ _ _, ([sigOne; sigTwo], None);
     tss.GetPeerIDs := tss.GetPeerIDs server;
     tss.joinParty := tss.joinParty server;
     tss.GetPubKeyFromPeerID := tss.GetPubKeyFromPeerID server;
     tss.getBlamePeers := tss.getBlamePeers server;
     tss.AddBlameNodes := tss.AddBlameNodes server;
     tss.SignMessage := tss.SignMessage server;
     tss.BlamePeers := tss.BlamePeers server;
     tss.BroadcastSignature := tss.BroadcastSignature server |}.

Definition signer : tss.Server :=
  {| tss.localNodePubKey := "A";
     tss.requestToMsgId := tss.requestToMsgId server;
     tss.GetLocalState := tss.GetLocalState server;
     tss.DecodeString := tss.DecodeString server;
     tss.EncodeToString := tss.EncodeToString server;
     tss.WaitForSignature := tss.WaitForSignature server;
     tss.GetPeerIDs := tss.GetPeerIDs server;
     tss.joinParty := λ _ _ _,
       (Some {| tss.ResponseType := tss.JoinPartyResponse_Success; tss.PeerIDs := [] |},
        "leader"%string, None);
     tss.GetPubKeyFromPeerID := tss.GetPubKeyFromPeerID server;
     tss.getBlamePeers := tss.getBlamePeers server;
     tss.AddBlameNodes := tss.AddBlameNodes server;
     tss.SignMessage := λ _ _ _, ([sigOne], None);
     tss.BlamePeers := tss.BlamePeers server;
     tss.BroadcastSignature := tss.BroadcastSignature server |}.

(** A server like [server] for which ["%%%"] is not base64. *)
Definition strictServer : tss.Server :=
  {| tss.localNodePubKey := "A";
     tss.requestToMsgId := tss.requestToMsgId server;
     tss.GetLocalState := tss.GetLocalState server;
     tss.DecodeString := λ val,
       if bool_decide (val = "%%%"%string)
       then ([], Some (errNew "illegal base64 data at input byte 0"))
       else ([x68; x69], None);
     tss.EncodeToString := tss.EncodeToString server;
     tss.WaitForSignature := tss.WaitForSignature server;
     tss.GetPeerIDs := tss.GetPeerIDs server;
     tss.joinParty := tss.joinParty server;
     tss.GetPubKeyFromPeerID := tss.GetPubKeyFromPeerID server;
     tss.getBlamePeers := tss.getBlamePeers server;
     tss.AddBlameNodes := tss.AddBlameNodes server;
     tss.SignMessage := tss.SignMessage server;
     tss.BlamePeers := tss.BlamePeers server;
     tss.BroadcastSignature := tss.BroadcastSignature server |}.

End examples.

(** * What the code guarantees *)

(** ** The subscription table *)

Section Bus.
Import p2p.

Lemma SetSubscribe_noEmptyLeaves topic msgID channel c :
  noEmptyLeaves c → noEmptyLeaves (SetSubscribe topic msgID channel c).
Proof.
  intros Hc topic' ms. unfold SetSubscribe. cbn [subscribers withSubscribers].
  destruct (decide (topic = topic')) as [->|Hne].
  - rewrite lookup_insert_eq. intros [= <-].
    exists msgID, channel. unfold Subscribe. apply lookup_insert_eq.
  - rewrite lookup_insert_ne by done. apply Hc.
Qed.

Lemma CancelSubscribe_noEmptyLeaves topic msgID c :
  noEmptyLeaves c → noEmptyLeaves (CancelSubscribe topic msgID c).
Proof.
  intros Hc topic' ms. unfold CancelSubscribe.
  destruct (subscribers c !! topic) as [ms0|] eqn:Hlook; [|apply Hc].
  destruct (IsEmpty (UnSubscribe msgID ms0)) eqn:Hempty; cbn [subscribers withSubscribers].
  - destruct (decide (topic = topic')) as [->|Hne].
    + by rewrite lookup_delete_eq.
    + rewrite lookup_delete_ne by done. apply Hc.
  - destruct (decide (topic = topic')) as [->|Hne].
    + rewrite lookup_insert_eq. intros [= <-].
      unfold IsEmpty in Hempty. apply bool_decide_eq_false in Hempty.
      destruct (map_choose (UnSubscribe msgID ms0)) as (i & x & Hix).
      { intros E. apply Hempty. rewrite E. apply map_size_empty. }
      by exists i, x.
    + rewrite lookup_insert_ne by done. apply Hc.
Qed.

Lemma busRun_noEmptyLeaves calls : ∀ c, noEmptyLeaves c → noEmptyLeaves (busRun calls c).
Proof.
  induction calls as [|call calls IH]; intros c Hc; [done|].
  apply IH. destruct call; [by apply SetSubscribe_noEmptyLeaves|by apply CancelSubscribe_noEmptyLeaves].
Qed.

(** C8: after any sequence of SetSubscribe and CancelSubscribe calls on a new
    Communication, every message type present in the subscribers map has
    at least one registered (msg-id, channel) entry. *)
Theorem subscription_table_has_no_empty_leaf rendezvous hostID calls :
  noEmptyLeaves (busRun calls (NewCommunication rendezvous hostID)).
Proof.
  apply busRun_noEmptyLeaves. intros topic ms. cbn. by rewrite lookup_empty.
Qed.


End Bus.

(** ** The stream reader *)

Section Reader.
Import p2p.

Lemma readLoop_oversize unmarshal c fuel s data rest :
  (pollStop s).1 = false →
  (SetReadDeadline (pollStop s).2).1 = None →
  arriving s = Arrived data :: rest →
  (4 ≤ length data)%nat →
  MaxPayload < Uint32 (take 4 data) →
  readLoop unmarshal c (S fuel) s
  = ([Logged "trying to send bytes payload" (RemotePeer s) (Uint32 (take 4 data))],
     PayloadTooLarge).
Proof.
  intros Hstop Hdl Harr Hlen Hbig. cbn [readLoop].
  destruct (pollStop s) as [stop s1] eqn:Hp. cbn [fst snd] in *. subst stop.
  destruct (SetReadDeadline s1) as [err s2] eqn:Hd. cbn [fst] in Hdl. subst err.
  assert (arriving s2 = Arrived data :: rest) as Harr2.
  { unfold SetReadDeadline in Hd. unfold pollStop in Hp.
    destruct (stopPolls s); destruct (deadlineAnswers s1) eqn:E;
      simplify_eq; cbn in *; simplify_eq; cbn; done. }
  unfold Read. rewrite Harr2.
  assert (length (take LengthHeader data) = 4%nat) as Hl.
  { rewrite length_take. unfold LengthHeader. lia. }
  rewrite (proj2 (Nat.ltb_ge _ _)) by (rewrite Hl; unfold LengthHeader; lia).
  unfold LengthHeader at 1 2.
  by rewrite (proj2 (Z.ltb_lt _ _) Hbig).
Qed.


Lemma pollStop_arriving s : arriving (pollStop s).2 = arriving s.
Proof. unfold pollStop. by destruct (stopPolls s). Qed.

Lemma SetReadDeadline_arriving s : arriving (SetReadDeadline s).2 = arriving s.
Proof. unfold SetReadDeadline. by destruct (deadlineAnswers s). Qed.

(** The turn of the loop that meets an oversize header delivers nothing,
    whatever the stop channel and the deadline answer. *)
Lemma readLoop_oversize_delivers_nothing unmarshal c fuel s data rest :
  arriving s = Arrived data :: rest →
  (4 ≤ length data)%nat →
  MaxPayload < Uint32 (take 4 data) →
  deliveries (readLoop unmarshal c fuel s) = [].
Proof.
  intros Harr Hlen Hbig. destruct fuel as [|fuel]; [done|].
  destruct (pollStop s) as [stop s1] eqn:Hp.
  destruct (SetReadDeadline s1) as [err s2] eqn:Hd.
  destruct stop; [cbn [readLoop]; by rewrite Hp|].
  destruct err as [err|]; [cbn [readLoop]; by rewrite Hp, Hd|].
  rewrite (readLoop_oversize unmarshal c fuel s data rest); try done.
  - by rewrite Hp.
  - by rewrite Hp; cbn; rewrite Hd.
Qed.

(** C7: when the header of the frame at the head of an inbound stream
    declares more than 81920 bytes, [readFromStream] delivers nothing to
    any subscriber; unless the node is stopping or the deadline cannot be
    set, which end the reader as well, it logs the peer and the declared
    length and returns without reading further. *)
Theorem readFromStream_drops_oversize_frame unmarshal c s data rest :
  arriving s = Arrived data :: rest →
  (4 ≤ length data)%nat →
  MaxPayload < Uint32 (take 4 data) →
  deliveries (readFromStream unmarshal c s) = []
  ∧ ((pollStop s).1 = false →
     (SetReadDeadline (pollStop s).2).1 = None →
     readFromStream unmarshal c s
     = ([Logged "trying to send bytes payload" (RemotePeer s) (Uint32 (take 4 data))],
        PayloadTooLarge)).
Proof.
  intros Harr Hlen Hbig. split.
  - by eapply readLoop_oversize_delivers_nothing.
  - intros Hstop Hdl. by apply (readLoop_oversize unmarshal c (pending s) s data rest).
Qed.

Lemma readFromStream_drops_oversize_frame_witness :
  deliveries (readFromStream examples.unmarshalAny examples.listeningNode examples.oversizeStream)
    = []
  ∧ ((pollStop examples.oversizeStream).1 = false →
     (SetReadDeadline (pollStop examples.oversizeStream).2).1 = None →
     readFromStream examples.unmarshalAny examples.listeningNode examples.oversizeStream
     = ([Logged "trying to send bytes payload" "A" 81921], PayloadTooLarge)).
Proof.
  apply (readFromStream_drops_oversize_frame examples.unmarshalAny examples.listeningNode
           examples.oversizeStream [x01; x40; x01; x00; x7b; x7d] []).
  - reflexivity.
  - cbn. lia.
  - reflexivity.
Defined.

Lemma pending_arriving s s' : arriving s' = arriving s → pending s' = pending s.
Proof. unfold pending. by intros ->. Qed.

Lemma Read_pending k s : (pending (Read k s).2 ≤ pending s)%nat.
Proof.
  unfold Read, pending. destruct (arriving s) as [|[data|e] rest] eqn:E; cbn;
    [rewrite E; cbn; lia| |lia].
  pose proof (length_drop data k) as Hd.
  destruct (drop k data); cbn in *; lia.
Qed.

Lemma Read_pending_taken k s data rest :
  arriving s = Arrived data :: rest →
  (pending (Read k s).2 + length (Read k s).1.1 ≤ pending s)%nat.
Proof.
  unfold Read, pending. intros ->. cbn.
  pose proof (length_drop data k) as Hd. rewrite length_take.
  destruct (drop k data); cbn in *; lia.
Qed.



End Reader.

(** ** Broadcast *)

Section Broadcast.
Import p2p.

Lemma sentTo_app msg done1 done2 :
  sentTo msg (done1 ++ done2) = sentTo msg done1 ++ sentTo msg done2.
Proof. unfold sentTo. apply omap_app. Qed.

Lemma sentTo_elem msg done p :
  p ∈ sentTo msg done → WroteBody p msg ∈ done.
Proof.
  unfold sentTo. intros (a & Ha & Hp)%list_elem_of_omap.
  destruct a; try done. case_bool_decide; simplify_eq. done.
Qed.

(** Whatever [writeToStream] writes, it writes to the peer it was given. *)
Lemma writeToStream_sentTo c net ai msg p :
  p ∈ sentTo msg (writeToStream c net ai msg).2 → p = peer.AddrInfo_ID ai.
Proof.
  intros Hin%sentTo_elem. revert Hin. unfold writeToStream, connectToOnePeer.
  repeat case_match; simplify_eq; cbn [snd app]; intros Hin;
    repeat (apply elem_of_cons in Hin as [Hin|Hin]; simplify_eq);
    try (by apply elem_of_nil in Hin); done.
Qed.

Lemma shouldWeWriteToPeer_listed ai peers :
  peers ≠ [] → shouldWeWriteToPeer ai peers = true → peer.AddrInfo_ID ai ∈ peers.
Proof.
  intros Hne. unfold shouldWeWriteToPeer.
  destruct (len peers =? 0) eqn:E.
  { apply Z.eqb_eq in E. destruct peers; [done|]. unfold len in E. cbn in E. lia. }
  intros (p & Hp & Heq)%existsb_exists. apply bool_decide_eq_true in Heq as ->.
  by apply list_elem_of_In.
Qed.

Lemma broadcastLoop_sentTo c net peers msg found p :
  peers ≠ [] → p ∈ sentTo msg (broadcastLoop c net peers msg found) → p ∈ peers.
Proof.
  intros Hne. induction found as [|[ai|] found IH]; cbn [broadcastLoop].
  - intros H. by apply elem_of_nil in H.
  - rewrite sentTo_app. intros [H|H]%elem_of_app; [|by apply IH].
    destruct (shouldWeWriteToPeer ai peers) eqn:Hw; [|by apply elem_of_nil in H].
    pose proof (writeToStream_sentTo c net ai msg p) as Hto.
    destruct (writeToStream c net ai msg) as [[err|] done]; cbn [snd] in Hto.
    + rewrite sentTo_app in H. apply elem_of_app in H as [H|H].
      * rewrite (Hto H). by apply shouldWeWriteToPeer_listed.
      * cbn in H. by apply elem_of_nil in H.
    + rewrite (Hto H). by apply shouldWeWriteToPeer_listed.
  - intros H. by apply elem_of_nil in H.
Qed.

(** C2, as the code has it: [Broadcast] writes the message only to peers
    of the list it is given.  With an empty list it notes that the list is
    empty and returns: it starts no discovery, opens no stream and writes to
    no one, although [shouldWeWriteToPeer] alone accepts every peer for an
    empty list. *)
Theorem Broadcast_empty_peers_sends_nothing c net msg :
  Broadcast c net [] msg = [Noted "the peer list is empty"]
  ∧ sentTo msg (Broadcast c net [] msg) = []
  ∧ (∀ peers p, p ∈ sentTo msg (Broadcast c net peers msg) → p ∈ peers)
  ∧ (∀ ai, shouldWeWriteToPeer ai [] = true).
Proof.
  split; [done|]. split; [done|]. split; [|done].
  intros peers p. unfold Broadcast, broadcastToPeers.
  destruct peers as [|q peers]; [intros H; by apply elem_of_nil in H|].
  destruct (len (q :: peers) =? 0); [intros H; by apply elem_of_nil in H|].
  destruct (FindPeers net (rendezvous c)) as [peerChan [err|]].
  - intros H. by apply elem_of_nil in H.
  - change (Discovered ?r :: ?l) with ([Discovered r] ++ l). rewrite sentTo_app.
    intros [H|H]%elem_of_app; [by apply elem_of_nil in H|].
    by eapply broadcastLoop_sentTo.
Qed.

(** C2 fails as stated: discovery would find the peers A and B, and a
    broadcast to the empty list writes the message to neither, while a
    broadcast that names them reaches both. *)
Lemma Broadcast_empty_peers_counterexample :
  FindPeers examples.network (rendezvous examples.node)
    = ([Some examples.peerA; Some examples.peerB], None)
  ∧ sentTo examples.hello (Broadcast examples.node examples.network [] examples.hello) = []
  ∧ sentTo examples.hello
      (Broadcast examples.node examples.network ["A"%string; "B"%string] examples.hello)
    = ["A"%string; "B"%string].
Proof. repeat split; vm_compute; reflexivity. Qed.

End Broadcast.

(** ** The keygen and keysign select loops *)

Section KeyGen.
Import tsslib eddsa.

(** C9: when the keygen timer fires and no outbound message was recorded,
    [processKeyGen] returns the timeout error at once: it asks no evidence
    table, leaves the verdict as it was, and a verdict that named no node
    names none. *)
Theorem processKeyGen_timeout_before_first_message w item events s :
  lastMsg s = None →
  events = [] ∨ (∃ rest, events = TimerFired :: rest) →
  processKeyGen w item events s
    = ((None, Some (errNew "[eddsa] timeout before shared message is generated"), EmptyString),
       s, []).
Proof.
  intros Hlast [->|[rest ->]]; cbn [processKeyGen]; unfold keyGenTimeout;
    rewrite Hlast; reflexivity.
Qed.

Lemma processKeyGen_timeout_before_first_message_witness :
  processKeyGen examples.world examples.keyShare [TimerFired] examples.fresh
    = ((None, Some (errNew "[eddsa] timeout before shared message is generated"), EmptyString),
       examples.fresh, []).
Proof.
  apply (processKeyGen_timeout_before_first_message
           examples.world examples.keyShare [TimerFired] examples.fresh).
  - reflexivity.
  - right. exists []. reflexivity.
Defined.

End KeyGen.

Section KeySignTimeout.
Import tsslib eddsa.

Lemma evidenceQueries_app e1 e2 :
  evidenceQueries (e1 ++ e2) = evidenceQueries e1 ++ evidenceQueries e2.
Proof. unfold evidenceQueries. apply omap_app. Qed.

Lemma setBlameWithin_queries w failReason nodes threshold tag s :
  evidenceQueries (setBlameWithin w failReason nodes threshold tag s).2 = [].
Proof. unfold setBlameWithin. by destruct (_ && _). Qed.

Lemma missingShareSweep_queries w nrounds algo threshold s :
  evidenceQueries (missingShareSweep w nrounds algo threshold s).2 = [].
Proof.
  unfold missingShareSweep. destruct (_ =? _); [|done].
  destruct (blame.TssMissingShareBlame _ _ _) as [[nodes isUnicast] err].
  by destruct (_ && _).
Qed.

Lemma keySignTimeout_spec w s msg :
  lastMsg s = Some msg →
  (keySignTimeout w s).1.1 = Returns ([], Some blame.ErrTssTimeOut)
  ∧ evidenceQueries (keySignTimeout w s).2
    = [AskedUnicastBlame (if IsBroadcast msg
                          then GetPreviousKeySignUicast w (MsgType msg)
                          else MsgType msg);
       AskedBroadcastBlame (MsgType msg)].
Proof.
  intros Hlast. unfold keySignTimeout. rewrite Hlast.
  destruct (conversion.GetThreshold _) as [threshold err0].
  destruct (blame.GetUnicastBlame _ _) as [blameNodesUnicast err1].
  pose proof (setBlameWithin_queries w (timeoutReason s) blameNodesUnicast threshold
    (if negb (IsBroadcast msg) then "KeySignTimeout broadcast" else "KeySignTimeout unicast")%string
    s) as H1.
  destruct (setBlameWithin _ _ _ _ _ _) as [s1 e1].
  destruct (blame.GetBroadcastBlame _ _) as [blameNodesBroadcast err2].
  match goal with |- context [missingShareSweep ?a ?b ?c ?d ?e] =>
    pose proof (missingShareSweep_queries a b c d e) as H2;
    destruct (missingShareSweep a b c d e) as [s2 e2] end.
  cbn [fst snd] in *. split; [done|].
  change (AskedUnicastBlame ?r :: e1 ++ ?x :: ?y :: e2)
    with ([AskedUnicastBlame r] ++ e1 ++ [x; y] ++ e2).
  rewrite !evidenceQueries_app, H1, H2. cbn. by destruct (IsBroadcast msg).
Qed.

(** C3, as the code has it: when the keysign timer fires, the unicast
    evidence is asked for the round of the last outbound message when that
    message was unicast, and for the unicast round before it when it was
    broadcast; the broadcast evidence of the last message's round is asked
    next in both cases, and the call returns [ErrTssTimeOut]. *)
Theorem processKeySign_timeout_evidence_queries w reqNum rest s msg :
  lastMsg s = Some msg →
  (processKeySign w reqNum (TimerFired :: rest) s).1.1 = Returns ([], Some blame.ErrTssTimeOut)
  ∧ evidenceQueries (processKeySign w reqNum (TimerFired :: rest) s).2
    = [AskedUnicastBlame (if IsBroadcast msg
                          then GetPreviousKeySignUicast w (MsgType msg)
                          else MsgType msg);
       AskedBroadcastBlame (MsgType msg)].
Proof. intros Hlast. by apply keySignTimeout_spec. Qed.

Lemma processKeySign_timeout_evidence_queries_witness :
  evidenceQueries
    (processKeySign examples.world 1 [TimerFired] (SetLastMsg examples.broadcast3 examples.fresh)).2
  = [AskedUnicastBlame "SignRound2"; AskedBroadcastBlame "SignRound3"].
Proof.
  apply (processKeySign_timeout_evidence_queries examples.world 1 []
           (SetLastMsg examples.broadcast3 examples.fresh) examples.broadcast3).
  reflexivity.
Defined.

(** C3 fails as stated: the last outbound message is a unicast message of
    round 3, the unicast round before it is round 2, and on the timeout the
    unicast evidence asked is that of round 3, not of round 2. *)
Lemma processKeySign_timeout_counterexample :
  IsBroadcast examples.unicast3 = false
  ∧ GetPreviousKeySignUicast examples.world (MsgType examples.unicast3) = "SignRound2"%string
  ∧ evidenceQueries
      (processKeySign examples.world 1 [OutMsg examples.unicast3; TimerFired] examples.fresh).2
    = [AskedUnicastBlame "SignRound3"; AskedBroadcastBlame "SignRound3"]
  ∧ AskedUnicastBlame "SignRound2"
      ∉ (processKeySign examples.world 1 [OutMsg examples.unicast3; TimerFired] examples.fresh).2.
Proof.
  repeat split; try (vm_compute; reflexivity).
  vm_compute. intros H. repeat (apply elem_of_cons in H as [H|H]; [discriminate H|]).
  by apply elem_of_nil in H.
Qed.

(** When the keysign timer fires before any outbound message was
    recorded, [processKeySign] calls [IsBroadcast] on a nil message: unlike
    [processKeyGen] it has no test for nil. *)
Theorem processKeySign_timeout_before_first_message_panics w reqNum rest s :
  lastMsg s = None →
  (processKeySign w reqNum (TimerFired :: rest) s).1.1
    = Panics "invalid memory address or nil pointer dereference".
Proof.
  intros Hlast. unfold processKeySign. cbn [keySignLoop]. unfold keySignTimeout.
  rewrite Hlast. by destruct (conversion.GetThreshold _).
Qed.

Lemma processKeySign_timeout_before_first_message_panics_witness :
  (processKeySign examples.world 1 [TimerFired] examples.fresh).1.1
    = Panics "invalid memory address or nil pointer dereference".
Proof.
  apply (processKeySign_timeout_before_first_message_panics examples.world 1 [] examples.fresh).
  reflexivity.
Defined.

End KeySignTimeout.

Section ProcessKeySign.
Import tsslib eddsa.

Lemma keySignTimeout_fails w s sigs s' e :
  keySignTimeout w s ≠ (Returns (sigs, None), s', e).
Proof.
  unfold keySignTimeout.
  destruct (conversion.GetThreshold _) as [threshold err0].
  destruct (lastMsg s) as [msg|]; [|done].
  destruct (blame.GetUnicastBlame _ _) as [blameNodesUnicast err1].
  destruct (setBlameWithin _ _ _ _ _ _) as [s1 e1].
  destruct (blame.GetBroadcastBlame _ _) as [blameNodesBroadcast err2].
  destruct (missingShareSweep _ _ _ _ _) as [s2 e2]. done.
Qed.

Lemma endResults_app {T} (l1 l2 : list (Event T)) :
  endResults (l1 ++ l2) = endResults l1 ++ endResults l2.
Proof. unfold endResults. apply omap_app. Qed.

(** The loop with the signatures collected so far: a successful return
    happens at a result of [endCh], with everything [endCh] delivered up
    to there appended in order. *)
Lemma keySignLoop_success w reqNum events : ∀ signatures s sigs s' e,
  keySignLoop w reqNum events signatures s = (Returns (sigs, None), s', e) →
  ∃ taken last rest,
    events = taken ++ EndMsg last :: rest
    ∧ sigs = signatures ++ endResults taken ++ [last]
    ∧ len sigs = reqNum.
Proof.
  induction events as [|ev events IH]; intros signatures s sigs s' e H.
  - cbn [keySignLoop] in H. by apply keySignTimeout_fails in H.
  - destruct ev as [| | |msg|msg]; cbn [keySignLoop] in H.
    + done.
    + done.
    + by apply keySignTimeout_fails in H.
    + destruct (ProcessOutCh w msg p2p.TSSKeySignMsg); [done|].
      destruct (keySignLoop w reqNum events signatures (SetLastMsg msg s))
        as [[r s1] e1] eqn:E.
      simplify_eq. apply IH in E as (taken & last & rest & -> & -> & Hlen).
      exists (OutMsg msg :: taken), last, rest. done.
    + cbv zeta in H. destruct (len (signatures ++ [msg]) =? reqNum) eqn:E.
      * simplify_eq. exists [], msg, events. apply Z.eqb_eq in E. done.
      * apply IH in H as (taken & last & rest & -> & -> & Hlen).
        exists (EndMsg msg :: taken), last, rest.
        split; [done|]. split; [|done].
        cbn. by rewrite <- app_assoc.
Qed.

(** C4: when [processKeySign] returns without error, it returns at a
    result of [endCh]; the list it returns is what [endCh] delivered up to
    there, in order, and holds [reqNum] signatures, the number of messages
    [SignMessage] passes. *)
Theorem processKeySign_returns_reqNum_signatures w reqNum events s sigs s' e :
  processKeySign w reqNum events s = (Returns (sigs, None), s', e) →
  ∃ taken last rest,
    events = taken ++ EndMsg last :: rest
    ∧ sigs = endResults (taken ++ [EndMsg last])
    ∧ len sigs = reqNum.
Proof.
  intros H. apply keySignLoop_success in H as (taken & last & rest & -> & -> & Hlen).
  exists taken, last, rest. rewrite endResults_app. done.
Qed.

Lemma processKeySign_returns_reqNum_signatures_witness :
  ∃ taken last rest,
    eddsa.delivered examples.signing = taken ++ EndMsg last :: rest
    ∧ [examples.sigOne; examples.sigTwo] = endResults (taken ++ [EndMsg last])
    ∧ len [examples.sigOne; examples.sigTwo] = 2.
Proof.
  apply (processKeySign_returns_reqNum_signatures examples.world 2
           (eddsa.delivered examples.signing) examples.fresh
           [examples.sigOne; examples.sigTwo]
           (SetLastMsg examples.broadcast3 examples.fresh)
           [DidSetLastMsg examples.broadcast3; SentOut examples.broadcast3 p2p.TSSKeySignMsg;
            NotifiedTaskDone; SavedAddressBook]).
  reflexivity.
Defined.

End ProcessKeySign.

(** ** [sort.SliceStable] sorts

    For a comparison that is total and transitive, the result of
    [SliceStable] is a rearrangement of its input in which every element
    stands before the ones after it.  The proof follows the code: the swap
    loops rotate two neighbouring segments, [symMerge] merges two sorted
    neighbours, and the rounds of [stable] merge sorted blocks of doubling
    size. *)

Section SwapFacts.
Import sort.
Local Close Scope Z_scope.
Context {A : Type}.
Implicit Types data pre mid post us vs : list A.

Lemma Swap_apart pre x mid y post :
  Swap (pre ++ x :: mid ++ y :: post) (length pre) (length pre + S (length mid))
  = pre ++ y :: mid ++ x :: post.
Proof.
  unfold Swap.
  rewrite list_lookup_middle by done.
  replace (pre ++ x :: mid ++ y :: post) with ((pre ++ x :: mid) ++ y :: post)
    by (by rewrite <- app_assoc).
  rewrite (list_lookup_middle (pre ++ x :: mid) post y) by (rewrite length_app; simpl; lia).
  replace (length pre + S (length mid))%nat with (length (pre ++ x :: mid) + 0)%nat
    by (rewrite length_app; simpl; lia).
  rewrite insert_app_r. simpl.
  rewrite <- app_assoc. simpl.
  replace (length pre) with (length pre + 0)%nat at 1 by lia.
  rewrite insert_app_r. done.
Qed.

Lemma Swap_comm data i j : Swap data i j = Swap data j i.
Proof.
  unfold Swap.
  destruct (data !! i) as [x|] eqn:Hi, (data !! j) as [y|] eqn:Hj; try done.
  destruct (decide (i = j)) as [->|Hne].
  - congruence.
  - by rewrite list_insert_insert_ne.
Qed.

Lemma Swap_next pre x y post :
  Swap (pre ++ x :: y :: post) (length pre) (length pre + 1) = pre ++ y :: x :: post.
Proof. apply (Swap_apart pre x [] y post). Qed.

Lemma swapUp_spec ys : ∀ pre x post,
  swapUp (pre ++ x :: ys ++ post) (length pre) (length ys) = pre ++ ys ++ x :: post.
Proof.
  induction ys as [|y ys IH]; intros pre x post; simpl; [done|].
  rewrite Swap_next.
  replace (pre ++ y :: x :: ys ++ post) with ((pre ++ [y]) ++ x :: ys ++ post)
    by (by rewrite <- app_assoc).
  replace (length pre + 1)%nat with (length (pre ++ [y])) by (rewrite length_app; simpl; lia).
  rewrite IH. by rewrite <- app_assoc.
Qed.

Lemma swapDown_spec ys : ∀ pre x post,
  swapDown (pre ++ ys ++ x :: post) (length pre + length ys) (length ys)
  = pre ++ x :: ys ++ post.
Proof.
  induction ys as [|y ys IH] using rev_ind; intros pre x post; simpl.
  { done. }
  rewrite length_app. simpl.
  replace (length ys + 1)%nat with (S (length ys)) by lia. simpl.
  rewrite Swap_comm.
  replace (pre ++ (ys ++ [y]) ++ x :: post) with ((pre ++ ys) ++ y :: x :: post)
    by (by rewrite <- !app_assoc).
  replace (length pre + S (length ys) - 1)%nat with (length (pre ++ ys))
    by (rewrite length_app; lia).
  replace (length pre + S (length ys))%nat with (length (pre ++ ys) + 1)%nat
    by (rewrite length_app; lia).
  rewrite Swap_next.
  rewrite <- !app_assoc. rewrite length_app.
  rewrite (IH pre x (y :: post)). reflexivity.
Qed.

Lemma swapRange_spec n : ∀ pre us mid vs post,
  length us = n → length vs = n →
  swapRange_func (pre ++ us ++ mid ++ vs ++ post) (length pre)
    (length pre + n + length mid) n
  = pre ++ vs ++ mid ++ us ++ post.
Proof.
  induction n as [|n IH]; intros pre us mid vs post Hus Hvs.
  { destruct us, vs; done. }
  destruct us as [|u us]; [done|]. destruct vs as [|v vs]; [done|].
  simpl in Hus, Hvs. simpl.
  replace (pre ++ u :: us ++ mid ++ v :: vs ++ post)
    with (pre ++ u :: (us ++ mid) ++ v :: vs ++ post) by (by rewrite <- app_assoc).
  replace (length pre + S n + length mid)%nat with (length pre + S (length (us ++ mid)))%nat
    by (rewrite length_app; lia).
  rewrite Swap_apart.
  replace (pre ++ v :: (us ++ mid) ++ u :: vs ++ post)
    with ((pre ++ [v]) ++ us ++ (mid ++ [u]) ++ vs ++ post)
    by (by rewrite <- !app_assoc).
  replace (S (length pre)) with (length (pre ++ [v])) by (rewrite length_app; simpl; lia).
  replace (S (length pre + S (length (us ++ mid))))
    with (length (pre ++ [v]) + n + length (mid ++ [u]))%nat
    by (rewrite !length_app; simpl; lia).
  rewrite IH by lia. by rewrite <- !app_assoc.
Qed.

Lemma rotateLoop_spec fuel : ∀ pre us vs post,
  (0 < length us)%nat → (0 < length vs)%nat →
  (length us + length vs ≤ fuel)%nat →
  rotateLoop fuel (pre ++ us ++ vs ++ post) (length pre + length us)
    (length us) (length vs)
  = pre ++ vs ++ us ++ post.
Proof.
  induction fuel as [|fuel IH]; intros pre us vs post Hu Hv Hfuel; [lia|].
  simpl.
  destruct (Nat.eqb_spec (length us) (length vs)) as [Heq|Hne].
  - replace (length pre + length us - length us)%nat with (length pre) by lia.
    pose proof (swapRange_spec (length us) pre us [] vs post eq_refl (eq_sym Heq)) as H.
    simpl in H. rewrite Nat.add_0_r in H. done.
  - destruct (Nat.ltb_spec (length vs) (length us)) as [Hlt|Hge].
    + (* the left block is longer: its first [length vs] elements change places with vs *)
      replace (length pre + length us - length us)%nat with (length pre) by lia.
      rewrite <- (take_drop (length vs) us) at 1.
      rewrite <- (app_assoc (take (length vs) us)).
      pose proof (swapRange_spec (length vs) pre (take (length vs) us)
                    (drop (length vs) us) vs post) as H.
      rewrite length_take, length_drop in H.
      replace (length pre + length vs + (length us - length vs))%nat
        with (length pre + length us)%nat in H by lia.
      rewrite H by lia. clear H.
      replace (pre ++ vs ++ drop (length vs) us ++ take (length vs) us ++ post)
        with ((pre ++ vs) ++ drop (length vs) us ++ take (length vs) us ++ post)
        by (by rewrite <- app_assoc).
      pose proof (IH (pre ++ vs) (drop (length vs) us) (take (length vs) us) post) as H.
      rewrite length_app, length_take, length_drop in H.
      replace (length pre + length vs + (length us - length vs))%nat
        with (length pre + length us)%nat in H by lia.
      replace (length vs `min` length us)%nat with (length vs) in H by lia.
      rewrite H by lia.
      rewrite <- !app_assoc. f_equal. f_equal.
      by rewrite app_assoc, take_drop.
    + (* the right block is longer: us changes places with the last [length us] elements of vs *)
      replace (length pre + length us - length us)%nat with (length pre) by lia.
      rewrite <- (take_drop (length vs - length us) vs) at 1.
      rewrite <- (app_assoc (take _ vs)).
      pose proof (swapRange_spec (length us) pre us (take (length vs - length us) vs)
                    (drop (length vs - length us) vs) post) as H.
      rewrite length_take, length_drop in H.
      replace (length pre + length us + (length vs - length us) `min` length vs)%nat
        with (length pre + length us + length vs - length us)%nat in H by lia.
      rewrite H by lia. clear H.
      pose proof (IH pre (drop (length vs - length us) vs) (take (length vs - length us) vs)
                    (us ++ post)) as H.
      rewrite length_take, length_drop in H.
      replace (length pre + (length vs - (length vs - length us)))%nat
        with (length pre + length us)%nat in H by lia.
      replace (length vs - (length vs - length us))%nat with (length us) in H by lia.
      replace ((length vs - length us) `min` length vs)%nat
        with (length vs - length us)%nat in H by lia.
      rewrite H by lia.
      rewrite (app_assoc (take _ _)). by rewrite take_drop.
Qed.

Lemma rotate_func_spec pre us vs post :
  (0 < length us)%nat → (0 < length vs)%nat →
  rotate_func (pre ++ us ++ vs ++ post) (length pre) (length pre + length us)
    (length pre + length us + length vs)
  = pre ++ vs ++ us ++ post.
Proof.
  intros Hu Hv. unfold rotate_func.
  replace (length pre + length us - length pre)%nat with (length us) by lia.
  replace (length pre + length us + length vs - (length pre + length us))%nat
    with (length vs) by lia.
  apply rotateLoop_spec; lia.
Qed.

End SwapFacts.

Section Order.
Import sort.
Local Close Scope Z_scope.
Context {A : Type} (less : A → A → bool).
Hypothesis less_total : ∀ x y, less x y = true ∨ less y x = true.
Hypothesis less_trans : ∀ x y z, less x y = true → less y z = true → less x z = true.

Local Abbreviation before := (before less).
Local Abbreviation blocks := (blocks less).

Lemma before_refl x : before x x.
Proof. destruct (less_total x x); done. Qed.

Lemma not_less_before x y : less x y = false → before y x.
Proof. intros H. destruct (less_total x y) as [H'|H']; [congruence|done]. Qed.

Lemma sorted_lookup l i j x y :
  StronglySorted before l → (i ≤ j)%nat → l !! i = Some x → l !! j = Some y → before x y.
Proof.
  intros Hl. revert i j. induction Hl as [|z l Hl IH Hz]; intros i j Hij Hi Hj; [done|].
  destruct i as [|i], j as [|j]; simpl in *; simplify_eq.
  - apply before_refl.
  - rewrite Forall_forall in Hz. apply Hz. by eapply list_elem_of_lookup_2.
  - lia.
  - eapply IH; [|done..]. lia.
Qed.

Lemma search_spec (right : nat → bool) fuel : ∀ i j,
  (i ≤ j)%nat → (j - i ≤ fuel)%nat →
  (i ≤ search right fuel i j ≤ j)%nat
  ∧ (search right fuel i j ≠ i → right (search right fuel i j - 1)%nat = true)
  ∧ (search right fuel i j ≠ j → right (search right fuel i j) = false).
Proof.
  induction fuel as [|fuel IH]; intros i j Hij Hfuel; cbn [search].
  { assert (i = j) by lia. subst. repeat split; try lia; done. }
  destruct (Nat.ltb_spec i j) as [Hlt|Hge]; [|repeat split; try lia; done].
  assert (i ≤ (i + j) / 2 < j)%nat as Hh.
  { split; [apply Nat.div_le_lower_bound; lia|apply Nat.Div0.div_lt_upper_bound; lia]. }
  set (h := ((i + j) / 2)%nat) in *.
  destruct (right h) eqn:Hright.
  - destruct (IH (h + 1)%nat j) as (Hr & Hlo & Hhi); [lia..|].
    split; [lia|]. split; [|done].
    intros _. destruct (decide (search right fuel (h + 1) j = h + 1)%nat) as [->|Hne].
    + by replace (h + 1 - 1)%nat with h by lia.
    + by apply Hlo.
  - destruct (IH i h) as (Hr & Hlo & Hhi); [lia..|].
    split; [lia|]. split; [done|].
    intros _. destruct (decide (search right fuel i h = h)) as [->|Hne]; [done|].
    by apply Hhi.
Qed.

Lemma lookup_window (pre W post : list A) i x :
  W !! i = Some x → (pre ++ W ++ post) !! (length pre + i)%nat = Some x.
Proof.
  intros Hi. rewrite lookup_app_r by lia.
  replace (length pre + i - length pre)%nat with i by lia.
  by apply lookup_app_l_Some.
Qed.

Lemma Less_window (pre W post : list A) i j x y :
  W !! i = Some x → W !! j = Some y →
  Less less (pre ++ W ++ post) (length pre + i) (length pre + j) = less x y.
Proof.
  intros Hi Hj. unfold Less.
  by rewrite (lookup_window pre W post i x Hi), (lookup_window pre W post j y Hj).
Qed.

Lemma Less_at (pre W post : list A) a b i j x y :
  a = (length pre + i)%nat → b = (length pre + j)%nat →
  W !! i = Some x → W !! j = Some y →
  Less less (pre ++ W ++ post) a b = less x y.
Proof. intros -> ->. apply Less_window. Qed.

(** Putting [x] into a sorted list at a place where its neighbours agree. *)
Lemma sorted_insert_at l k x :
  StronglySorted before l → (k ≤ length l)%nat →
  (∀ z, (0 < k)%nat → l !! (k - 1)%nat = Some z → before z x) →
  (∀ z, l !! k = Some z → before x z) →
  StronglySorted before (take k l ++ x :: drop k l).
Proof.
  intros Hl Hk Hlo Hhi.
  apply StronglySorted_app_2.
  - intros x1 x2 H1 H2.
    apply list_elem_of_lookup_1 in H1 as [t Ht].
    apply lookup_take_Some in Ht as [Ht Htk].
    assert (is_Some (l !! (k - 1)%nat)) as [z Hz] by (apply lookup_lt_is_Some; lia).
    assert (before x1 z) by (eapply (sorted_lookup l t (k - 1)); [done|lia|done..]).
    assert (before z x) by (apply Hlo; [lia|done]).
    apply elem_of_cons in H2 as [->|H2]; [by eapply less_trans|].
    apply list_elem_of_lookup_1 in H2 as [u Hu]. rewrite lookup_drop in Hu.
    eapply (sorted_lookup l t (k + u)); [done|lia|done..].
  - rewrite <- (take_drop k l) in Hl. by apply StronglySorted_app_1_l in Hl.
  - constructor.
    + rewrite <- (take_drop k l) in Hl. by apply StronglySorted_app_1_r in Hl.
    + apply Forall_forall. intros y Hy.
      apply list_elem_of_lookup_1 in Hy as [u Hu]. rewrite lookup_drop in Hu.
      assert (is_Some (l !! k)) as [z Hz].
      { apply lookup_lt_is_Some. apply lookup_lt_Some in Hu. lia. }
      eapply less_trans; [by apply Hhi|].
      eapply (sorted_lookup l k (k + u)); [done|lia|done..].
Qed.

(** The two halves [symMerge] recurses on, once sorted, make a sorted whole. *)
Lemma sorted_halves L Rr s e M1 M2 :
  StronglySorted before L → StronglySorted before Rr →
  (s ≤ length L)%nat → (e ≤ length Rr)%nat →
  M1 ≡ₚ take s L ++ take e Rr → M2 ≡ₚ drop s L ++ drop e Rr →
  StronglySorted before M1 → StronglySorted before M2 →
  (∀ x y, (0 < s)%nat → L !! (s - 1)%nat = Some x → Rr !! e = Some y → before x y) →
  (∀ x y, (0 < e)%nat → Rr !! (e - 1)%nat = Some x → L !! s = Some y → before x y) →
  StronglySorted before (M1 ++ M2) ∧ M1 ++ M2 ≡ₚ L ++ Rr.
Proof.
  intros HL HR Hs He HM1 HM2 HS1 HS2 Hx1 Hx2. split.
  - apply StronglySorted_app_2; [|done..].
    intros x1 x2 H1 H2. rewrite HM1 in H1. rewrite HM2 in H2.
    apply elem_of_app in H1 as [H1|H1]; apply elem_of_app in H2 as [H2|H2];
      apply list_elem_of_lookup_1 in H1 as [i Hi];
      apply list_elem_of_lookup_1 in H2 as [j Hj];
      apply lookup_take_Some in Hi as [Hi Hlt];
      rewrite lookup_drop in Hj.
    + eapply (sorted_lookup L i (s + j)); [done|lia|done..].
    + assert (is_Some (L !! (s - 1)%nat)) as [z Hz].
      { apply lookup_lt_is_Some. apply lookup_lt_Some in Hi. lia. }
      assert (is_Some (Rr !! e)) as [z' Hz'].
      { apply lookup_lt_is_Some. apply lookup_lt_Some in Hj. lia. }
      eapply less_trans; [eapply (sorted_lookup L i (s - 1)); [done|lia|done..]|].
      eapply less_trans; [eapply (Hx1 z z'); [lia|done..]|].
      eapply (sorted_lookup Rr e (e + j)); [done|lia|done..].
    + assert (is_Some (Rr !! (e - 1)%nat)) as [z Hz].
      { apply lookup_lt_is_Some. apply lookup_lt_Some in Hi. lia. }
      assert (is_Some (L !! s)) as [z' Hz'].
      { apply lookup_lt_is_Some. apply lookup_lt_Some in Hj. lia. }
      eapply less_trans; [eapply (sorted_lookup Rr i (e - 1)); [done|lia|done..]|].
      eapply less_trans; [eapply (Hx2 z z'); [lia|done..]|].
      eapply (sorted_lookup L s (s + j)); [done|lia|done..].
    + eapply (sorted_lookup Rr i (e + j)); [done|lia|done..].
  - rewrite HM1, HM2.
    rewrite <- (take_drop s L) at 3. rewrite <- (take_drop e Rr) at 3.
    rewrite <- !app_assoc. f_equiv.
    rewrite !app_assoc. f_equiv. apply Permutation_app_comm.
Qed.


Lemma symMerge_spec fuel : ∀ pre L Rr post,
  (length L + length Rr ≤ fuel)%nat → (0 < length L)%nat → (0 < length Rr)%nat →
  StronglySorted before L → StronglySorted before Rr →
  ∃ Mg,
    symMerge_func less fuel (pre ++ L ++ Rr ++ post) (length pre)
      (length pre + length L) (length pre + length L + length Rr)
    = pre ++ Mg ++ post
    ∧ StronglySorted before Mg ∧ Mg ≡ₚ L ++ Rr.
Proof.
  induction fuel as [|fuel IH]; intros pre L Rr post Hfuel HLpos HRpos HL HR; [lia|].
  assert (pre ++ L ++ Rr ++ post = pre ++ (L ++ Rr) ++ post) as Hdata
    by (by rewrite <- app_assoc).
  cbn [symMerge_func].
  destruct (Nat.eqb_spec (length pre + length L - length pre) 1) as [HL1|HL1].
  { (* one element on the left: it goes up into the right part *)
    destruct L as [|x [|? ?]]; simpl in HL1, HLpos; try lia. clear HL1 HLpos.
    cbn [length] in *.
    replace (length pre + 1 + length Rr - (length pre + 1))%nat with (length Rr) by lia.
    destruct (search_spec
                (λ h, Less less (pre ++ [x] ++ Rr ++ post) h (length pre))
                (length Rr) (length pre + 1) (length pre + 1 + length Rr))
      as (Hi & Hlo & Hhi); [lia..|].
    set (i := search _ _ _ _) in *.
    set (k := (i - (length pre + 1))%nat).
    replace (i - 1 - length pre)%nat with (length (take k Rr))
      by (rewrite length_take; lia).
    replace (pre ++ [x] ++ Rr ++ post)
      with (pre ++ x :: take k Rr ++ drop k Rr ++ post)
      by (by rewrite (app_assoc (take k Rr)), take_drop).
    rewrite swapUp_spec.
    exists (take k Rr ++ x :: drop k Rr). split; [by rewrite <- app_assoc|]. split.
    - apply sorted_insert_at; [done|lia| |].
      + intros z Hk Hz. unfold before. rewrite <- Hlo by lia.
        rewrite Hdata. symmetry.
        apply (Less_at _ _ _ _ _ k 0%nat); [lia|lia| |done].
        destruct k; [lia|]. simpl in *. by rewrite Nat.sub_0_r in Hz.
      + intros z Hz. apply not_less_before.
        assert (k < length Rr)%nat by (by eapply lookup_lt_Some).
        rewrite <- Hhi by lia.
        rewrite Hdata. symmetry.
        by apply (Less_at _ _ _ _ _ (S k) 0%nat); [lia|lia|..].
    - rewrite <- Permutation_middle. simpl. by rewrite take_drop. }
  destruct (Nat.eqb_spec
              (length pre + length L + length Rr - (length pre + length L)) 1)
    as [HR1|HR1].
  { (* one element on the right: it goes down into the left part *)
    destruct Rr as [|x [|? ?]]; simpl in HR1, HRpos; try lia. clear HR1 HRpos.
    replace (length pre + length L - length pre)%nat with (length L) by lia.
    destruct (search_spec
                (λ h, negb (Less less (pre ++ L ++ [x] ++ post) (length pre + length L) h))
                (length L) (length pre) (length pre + length L))
      as (Hi & Hlo & Hhi); [lia..|].
    set (i := search _ _ _ _) in *.
    set (k := (i - length pre)%nat).
    replace (length pre + length L - i)%nat with (length (drop k L))
      by (rewrite length_drop; lia).
    replace (pre ++ L ++ [x] ++ post)
      with ((pre ++ take k L) ++ drop k L ++ x :: post)
      by (by rewrite <- app_assoc, (app_assoc (take k L)), take_drop).
    replace (length pre + length L)%nat
      with (length (pre ++ take k L) + length (drop k L))%nat
      by (rewrite length_app, length_take, length_drop; lia).
    rewrite swapDown_spec.
    exists (take k L ++ x :: drop k L). split; [by rewrite <- !app_assoc|]. split.
    - apply sorted_insert_at; [done|lia| |].
      + intros z Hk Hz. apply not_less_before.
        apply negb_true_iff. rewrite <- Hlo by lia.
        f_equal. rewrite Hdata. symmetry.
        apply (Less_at _ _ _ _ _ (length L) (k - 1)%nat); [lia|lia|..].
        * rewrite lookup_app_r by lia. by rewrite Nat.sub_diag.
        * by apply lookup_app_l_Some.
      + intros z Hz. unfold before.
        assert (k < length L)%nat by (by eapply lookup_lt_Some).
        apply negb_false_iff. rewrite <- Hhi by lia.
        f_equal. rewrite Hdata. symmetry.
        apply (Less_at _ _ _ _ _ (length L) k); [lia|lia|..].
        * rewrite lookup_app_r by lia. by rewrite Nat.sub_diag.
        * by apply lookup_app_l_Some.
    - rewrite <- Permutation_middle, take_drop.
      apply Permutation_cons_append. }
  assert (2 ≤ length L)%nat as HL2 by lia.
  assert (2 ≤ length Rr)%nat as HR2 by lia.
  clear HL1 HR1.
  set (a := length pre) in *.
  set (h := ((length L + length Rr) / 2)%nat).
  assert (2 * h ≤ length L + length Rr < 2 * h + 2)%nat as Hh.
  { unfold h. pose proof (Nat.div_mod_eq (length L + length Rr) 2) as E.
    pose proof (Nat.mod_upper_bound (length L + length Rr) 2). lia. }
  assert (((a + (a + length L + length Rr)) / 2)%nat = (a + h)%nat) as Hmid.
  { replace (a + (a + length L + length Rr))%nat
      with ((length L + length Rr) + a * 2)%nat by lia.
    rewrite Nat.div_add by lia. unfold h. lia. }
  rewrite Hmid. clearbody h.
  assert (sorted_take : ∀ k (l : list A), StronglySorted before l → StronglySorted before (take k l)).
  { intros k l Hl. rewrite <- (take_drop k l) in Hl. by apply StronglySorted_app_1_l in Hl. }
  assert (sorted_drop : ∀ k (l : list A), StronglySorted before l → StronglySorted before (drop k l)).
  { intros k l Hl. rewrite <- (take_drop k l) in Hl. by apply StronglySorted_app_1_r in Hl. }
  assert (Hcore : ∀ start,
    (a ≤ start ≤ a + length L)%nat → (start ≤ a + h)%nat → (a + h - start ≤ length Rr)%nat →
    (∀ x y, (a < start)%nat → L !! (start - a - 1)%nat = Some x →
            Rr !! (a + h - start)%nat = Some y → before x y) →
    (∀ x y, (start < a + h)%nat → Rr !! (a + h - start - 1)%nat = Some x →
            L !! (start - a)%nat = Some y → before x y) →
    ∃ Mg,
      (let end_ := (a + h + (a + length L) - start)%nat in
       let data1 :=
         if (start <? a + length L)%nat && (a + length L <? end_)%nat
         then rotate_func (pre ++ L ++ Rr ++ post) start (a + length L) end_
         else pre ++ L ++ Rr ++ post in
       let data2 :=
         if (a <? start)%nat && (start <? a + h)%nat
         then symMerge_func less fuel data1 a start (a + h) else data1 in
       if (a + h <? end_)%nat && (end_ <? a + length L + length Rr)%nat
       then symMerge_func less fuel data2 (a + h) end_ (a + length L + length Rr)
       else data2)
      = pre ++ Mg ++ post
      ∧ StronglySorted before Mg ∧ Mg ≡ₚ L ++ Rr).
  { intros start Hs1 Hs2 He Hx1 Hx2.
    set (s := (start - a)%nat) in *. set (e := (a + h - start)%nat) in *.
    cbv zeta.
    assert ((if (start <? a + length L)%nat
                && (a + length L <? a + h + (a + length L) - start)%nat
             then rotate_func (pre ++ L ++ Rr ++ post) start (a + length L)
                    (a + h + (a + length L) - start)
             else pre ++ L ++ Rr ++ post)
            = pre ++ take s L ++ take e Rr ++ drop s L ++ drop e Rr ++ post) as ->.
    { destruct (Nat.ltb_spec start (a + length L)) as [H1|H1];
        [destruct (Nat.ltb_spec (a + length L) (a + h + (a + length L) - start)) as [H2|H2]|];
        cbn [andb].
      - replace (pre ++ L ++ Rr ++ post)
          with ((pre ++ take s L) ++ drop s L ++ take e Rr ++ drop e Rr ++ post).
        2:{ rewrite <- (app_assoc pre). f_equal.
            rewrite (app_assoc (take s L)), take_drop. f_equal.
            by rewrite (app_assoc (take e Rr)), take_drop. }
        replace start with (length (pre ++ take s L)) at 1
          by (rewrite length_app, length_take; lia).
        replace (a + length L)%nat with (length (pre ++ take s L) + length (drop s L))%nat
          by (rewrite length_app, length_take, length_drop; lia).
        replace (a + h + (length (pre ++ take s L) + length (drop s L)) - start)%nat
          with (length (pre ++ take s L) + length (drop s L) + length (take e Rr))%nat
          by (rewrite length_app, !length_take, length_drop; lia).
        rewrite rotate_func_spec
          by (rewrite ?length_take, ?length_drop; lia).
        by rewrite <- (app_assoc pre).
      - assert (e = 0)%nat as -> by lia. rewrite take_0, drop_0. simpl.
        by rewrite (app_assoc (take s L)), take_drop.
      - assert (s = length L) as -> by lia. rewrite take_ge, drop_ge by lia. simpl.
        by rewrite (app_assoc (take e Rr)), take_drop. }
    assert (∃ M1,
      (if (a <? start)%nat && (start <? a + h)%nat
       then symMerge_func less fuel
              (pre ++ take s L ++ take e Rr ++ drop s L ++ drop e Rr ++ post) a start (a + h)
       else pre ++ take s L ++ take e Rr ++ drop s L ++ drop e Rr ++ post)
      = pre ++ M1 ++ drop s L ++ drop e Rr ++ post
      ∧ StronglySorted before M1 ∧ M1 ≡ₚ take s L ++ take e Rr) as (M1 & -> & HS1 & HP1).
    { destruct (Nat.ltb_spec a start) as [H1|H1];
        [destruct (Nat.ltb_spec start (a + h)) as [H2|H2]|]; cbn [andb].
      - destruct (IH pre (take s L) (take e Rr) (drop s L ++ drop e Rr ++ post))
          as (M1 & E & HS & HP);
          [rewrite ?length_take; lia..|by apply sorted_take|by apply sorted_take|].
        exists M1. split; [|done].
        rewrite <- E. f_equal; rewrite ?length_take; lia.
      - exists (take s L ++ take e Rr). split; [by rewrite <- app_assoc|]. split; [|done].
        assert (e = 0)%nat as -> by lia. rewrite take_0, app_nil_r. by apply sorted_take.
      - exists (take s L ++ take e Rr). split; [by rewrite <- app_assoc|]. split; [|done].
        assert (s = 0)%nat as -> by lia. rewrite take_0. by apply sorted_take. }
    assert (length M1 = h) as HlenM1.
    { rewrite HP1, length_app, !length_take. lia. }
    assert (∃ M2,
      (if (a + h <? a + h + (a + length L) - start)%nat
          && (a + h + (a + length L) - start <? a + length L + length Rr)%nat
       then symMerge_func less fuel (pre ++ M1 ++ drop s L ++ drop e Rr ++ post) (a + h)
              (a + h + (a + length L) - start) (a + length L + length Rr)
       else pre ++ M1 ++ drop s L ++ drop e Rr ++ post)
      = pre ++ M1 ++ M2 ++ post
      ∧ StronglySorted before M2 ∧ M2 ≡ₚ drop s L ++ drop e Rr) as (M2 & -> & HS2 & HP2).
    { destruct (Nat.ltb_spec (a + h) (a + h + (a + length L) - start)) as [H1|H1];
        [destruct (Nat.ltb_spec (a + h + (a + length L) - start)
                     (a + length L + length Rr)) as [H2|H2]|]; cbn [andb].
      - destruct (IH (pre ++ M1) (drop s L) (drop e Rr) post)
          as (M2 & E & HS & HP);
          [rewrite ?length_drop; lia..|by apply sorted_drop|by apply sorted_drop|].
        exists M2. split; [|done].
        rewrite <- !app_assoc in E. rewrite <- E.
        f_equal; rewrite ?length_app, ?length_drop; lia.
      - exists (drop s L ++ drop e Rr). split; [by rewrite <- app_assoc|]. split; [|done].
        assert (length Rr ≤ e)%nat by lia.
        rewrite (drop_ge Rr) by done. rewrite app_nil_r. by apply sorted_drop.
      - exists (drop s L ++ drop e Rr). split; [by rewrite <- app_assoc|]. split; [|done].
        assert (length L ≤ s)%nat by lia.
        rewrite (drop_ge L) by done. by apply sorted_drop. }
    exists (M1 ++ M2). split; [by rewrite <- app_assoc|].
    apply (sorted_halves L Rr s e); try done; try lia.
    - intros x y Hpos Hx Hy. apply Hx1; [lia| |done].
      by replace (start - a - 1)%nat with (s - 1)%nat by lia.
    - intros x y Hpos Hx Hy. apply Hx2; [lia| |done].
      by replace (a + h - start - 1)%nat with (e - 1)%nat by lia. }
  destruct (Nat.ltb_spec (a + h) (a + length L)) as [Hc|Hc]; cbv beta iota zeta.
  - destruct (search_spec
                (λ c, negb (Less less (pre ++ L ++ Rr ++ post)
                              (a + h + (a + length L) - 1 - c) c))
                (a + h - (a + h + (a + length L) - (a + length L + length Rr)))
                (a + h + (a + length L) - (a + length L + length Rr)) (a + h))
      as (Hi & Hlo & Hhi); [lia..|].
    set (start := search _ _ _ _) in *.
    apply Hcore; [lia..| |].
    + intros x y Hpos Hx Hy. apply not_less_before.
      assert (a + h - start < length Rr)%nat by (by eapply lookup_lt_Some).
      apply negb_true_iff. rewrite <- Hlo by lia.
      f_equal. rewrite Hdata. symmetry.
      apply (Less_at _ _ _ _ _ (length L + (a + h - start)) (start - a - 1)%nat); [lia|lia|..].
      * rewrite lookup_app_r by lia.
        by replace (length L + (a + h - start) - length L)%nat with (a + h - start)%nat by lia.
      * by apply lookup_app_l_Some.
    + intros x y Hpos Hx Hy. unfold before.
      assert (start - a < length L)%nat by (by eapply lookup_lt_Some).
      assert (a + h - start - 1 < length Rr)%nat by (by eapply lookup_lt_Some).
      apply negb_false_iff. rewrite <- Hhi by lia.
      f_equal. rewrite Hdata. symmetry.
      apply (Less_at _ _ _ _ _ (length L + (a + h - start - 1)) (start - a)%nat); [lia|lia|..].
      * rewrite lookup_app_r by lia.
        by replace (length L + (a + h - start - 1) - length L)%nat
          with (a + h - start - 1)%nat by lia.
      * by apply lookup_app_l_Some.
  - destruct (search_spec
                (λ c, negb (Less less (pre ++ L ++ Rr ++ post)
                              (a + h + (a + length L) - 1 - c) c))
                (a + length L - a) a (a + length L))
      as (Hi & Hlo & Hhi); [lia..|].
    set (start := search _ _ _ _) in *.
    apply Hcore; [lia..| |].
    + intros x y Hpos Hx Hy. apply not_less_before.
      assert (a + h - start < length Rr)%nat by (by eapply lookup_lt_Some).
      apply negb_true_iff. rewrite <- Hlo by lia.
      f_equal. rewrite Hdata. symmetry.
      apply (Less_at _ _ _ _ _ (length L + (a + h - start)) (start - a - 1)%nat); [lia|lia|..].
      * rewrite lookup_app_r by lia.
        by replace (length L + (a + h - start) - length L)%nat with (a + h - start)%nat by lia.
      * by apply lookup_app_l_Some.
    + intros x y Hpos Hx Hy. unfold before.
      assert (start - a < length L)%nat by (by eapply lookup_lt_Some).
      assert (a + h - start - 1 < length Rr)%nat by (by eapply lookup_lt_Some).
      apply negb_false_iff. rewrite <- Hhi by lia.
      f_equal. rewrite Hdata. symmetry.
      apply (Less_at _ _ _ _ _ (length L + (a + h - start - 1)) (start - a)%nat); [lia|lia|..].
      * rewrite lookup_app_r by lia.
        by replace (length L + (a + h - start - 1) - length L)%nat
          with (a + h - start - 1)%nat by lia.
      * by apply lookup_app_l_Some.
Qed.


Lemma insertDown_spec Q : ∀ pre x post j,
  j = (length pre + length Q)%nat → StronglySorted before Q →
  ∃ Q', insertDown less (pre ++ Q ++ x :: post) (length pre) j = pre ++ Q' ++ post
        ∧ StronglySorted before Q' ∧ Q' ≡ₚ Q ++ [x].
Proof.
  induction Q as [|y Q IH] using rev_ind; intros pre x post j -> HS.
  { exists [x]. split; [|split; [repeat constructor|done]].
    simpl. rewrite Nat.add_0_r.
    destruct (length pre) eqn:E; cbn [insertDown]; [done|].
    by rewrite (proj2 (Nat.ltb_ge (S n) (S n))) by lia. }
  rewrite length_app. simpl.
  replace (length pre + (length Q + 1))%nat with (S (length pre + length Q)) by lia.
  cbn [insertDown].
  rewrite (proj2 (Nat.ltb_lt (length pre) (S (length pre + length Q)))) by lia.
  cbn [andb].
  assert (pre ++ (Q ++ [y]) ++ x :: post = (pre ++ Q) ++ y :: x :: post) as ->
    by (by rewrite <- !app_assoc).
  assert (Less less ((pre ++ Q) ++ y :: x :: post) (S (length pre + length Q))
            (length pre + length Q) = less x y) as ->.
  { rewrite <- (app_nil_r post) at 1.
    change (y :: x :: post ++ []) with ([y; x] ++ post ++ []).
    rewrite (app_assoc [y; x]). rewrite app_nil_r.
    apply (Less_at _ _ _ _ _ 1%nat 0%nat); [rewrite length_app; lia..|done|done]. }
  apply StronglySorted_app in HS as (Hall & HS & _).
  destruct (less x y) eqn:Hxy.
  - assert (Swap ((pre ++ Q) ++ y :: x :: post) (S (length pre + length Q))
              (length pre + length Q) = pre ++ Q ++ x :: y :: post) as ->.
    { rewrite Swap_comm, <- length_app.
      replace (S (length (pre ++ Q))) with (length (pre ++ Q) + 1)%nat by lia.
      by rewrite Swap_next, <- app_assoc. }
    destruct (IH pre x (y :: post) (length pre + length Q)%nat eq_refl HS)
      as (Q' & E & HQ' & HP).
    rewrite E.
    exists (Q' ++ [y]). split; [by rewrite <- !app_assoc|]. split.
    + apply StronglySorted_app_2; [|done|repeat constructor].
      intros x1 x2 H1 H2. apply list_elem_of_singleton in H2 as ->.
      rewrite HP in H1. apply elem_of_app in H1 as [H1|H1].
      * apply Hall; [done|]. by apply list_elem_of_singleton.
      * by apply list_elem_of_singleton in H1 as ->.
    + rewrite HP. rewrite <- !app_assoc. f_equiv. apply Permutation_swap.
  - exists ((Q ++ [y]) ++ [x]). split; [by rewrite <- !app_assoc|]. split; [|done].
    apply StronglySorted_app_2; [| |repeat constructor].
    + intros x1 x2 H1 H2. apply list_elem_of_singleton in H2 as ->.
      assert (before y x) by (by apply not_less_before).
      apply elem_of_app in H1 as [H1|H1].
      * eapply less_trans; [|done]. apply Hall; [done|]. by apply list_elem_of_singleton.
      * by apply list_elem_of_singleton in H1 as ->.
    + apply StronglySorted_app_2; [done|done|repeat constructor].
Qed.

Lemma insertionLoop_spec T : ∀ pre Q post i,
  i = (length pre + length Q)%nat → StronglySorted before Q →
  ∃ Q', insertionLoop less (pre ++ Q ++ T ++ post) (length pre) i (length T)
        = pre ++ Q' ++ post
        ∧ StronglySorted before Q' ∧ Q' ≡ₚ Q ++ T.
Proof.
  induction T as [|x T IH]; intros pre Q post i -> HS.
  { exists Q. by rewrite app_nil_r. }
  cbn [length insertionLoop].
  destruct (insertDown_spec Q pre x (T ++ post) _ eq_refl HS) as (Q' & E & HQ' & HP).
  change ((x :: T) ++ post) with (x :: T ++ post). rewrite E.
  destruct (IH pre Q' post (S (length pre + length Q))) as (Q'' & E' & HQ'' & HP'); [|done|].
  { rewrite HP, length_app. simpl. lia. }
  rewrite E'. exists Q''. split; [done|]. split; [done|].
  rewrite HP', HP. by rewrite <- app_assoc.
Qed.

Lemma insertionSort_func_spec pre W post :
  ∃ W', insertionSort_func less (pre ++ W ++ post) (length pre) (length pre + length W)
        = pre ++ W' ++ post
        ∧ StronglySorted before W' ∧ W' ≡ₚ W.
Proof.
  unfold insertionSort_func. destruct W as [|w T].
  { exists []. replace (length pre + length [] - (length pre + 1))%nat with 0%nat
      by (simpl; lia). split; [done|]. split; [constructor|done]. }
  replace (length pre + length (w :: T) - (length pre + 1))%nat with (length T)
    by (simpl; lia).
  destruct (insertionLoop_spec T pre [w] post (length pre + 1)%nat)
    as (Q' & E & HS & HP); [done|repeat constructor|].
  exists Q'. done.
Qed.

Lemma blocks_short bs l : blocks bs l → (length l ≤ bs)%nat → StronglySorted before l.
Proof.
  intros [l' Hl' HS|b l' Hb HS Hl'] Hlen; [done|].
  rewrite length_app in Hlen. destruct l'; [|simpl in Hlen; lia].
  by rewrite app_nil_r.
Qed.

Lemma blocks_first bs l :
  blocks bs l → (bs ≤ length l)%nat →
  ∃ b r, l = b ++ r ∧ length b = bs ∧ StronglySorted before b ∧ blocks bs r.
Proof.
  intros [l' Hl' HS|b l' Hb HS Hl'] Hlen.
  - exists l', []. rewrite app_nil_r. repeat split; [lia|done|].
    apply blocks_last; [simpl; lia|constructor].
  - by exists b, l'.
Qed.

Lemma insertBlocks_spec bs fuel : ∀ pre rest,
  (0 < bs)%nat → (length rest ≤ fuel)%nat →
  ∃ rest',
    insertionSort_func less
      (insertBlocks less fuel (pre ++ rest) (length pre) (length pre + bs)
         (length pre + length rest) bs).1
      (insertBlocks less fuel (pre ++ rest) (length pre) (length pre + bs)
         (length pre + length rest) bs).2
      (length pre + length rest)
    = pre ++ rest'
    ∧ blocks bs rest' ∧ rest' ≡ₚ rest.
Proof.
  induction fuel as [|fuel IH]; intros pre rest Hbs Hfuel.
  { destruct rest; [|simpl in Hfuel; lia]. cbn [insertBlocks fst snd].
    destruct (insertionSort_func_spec pre [] []) as (W' & E & HS & HP).
    exists W'. rewrite !app_nil_r in *. split; [done|]. split; [|done].
    apply blocks_last; [|done]. rewrite HP. simpl. lia. }
  cbn [insertBlocks].
  destruct (Nat.leb_spec (length pre + bs) (length pre + length rest)) as [Hle|Hgt].
  - destruct (insertionSort_func_spec pre (take bs rest) (drop bs rest))
      as (B & E & HS & HP).
    rewrite take_drop, length_take in E.
    replace (bs `min` length rest)%nat with bs in E by lia.
    rewrite E.
    assert (length B = bs) as HB by (rewrite HP, length_take; lia).
    destruct (IH (pre ++ B) (drop bs rest) Hbs) as (rest' & E' & Hbl & HP').
    { rewrite length_drop. lia. }
    rewrite length_app, length_drop, HB, <- app_assoc in E'.
    replace (length pre + bs + (length rest - bs))%nat
      with (length pre + length rest)%nat in E' by lia.
    rewrite E'. exists (B ++ rest'). split; [by rewrite <- app_assoc|]. split.
    + by apply blocks_cons.
    + rewrite HP, HP'. by rewrite take_drop.
  - cbn [fst snd].
    destruct (insertionSort_func_spec pre rest []) as (W' & E & HS & HP).
    rewrite !app_nil_r in E. rewrite E. exists W'. split; [done|]. split; [|done].
    apply blocks_last; [|done]. rewrite HP. lia.
Qed.

Lemma mergeBlocks_spec bs fuel : ∀ pre rest,
  (0 < bs)%nat → (length rest ≤ fuel)%nat → blocks bs rest →
  ∃ rest',
    (let d := (mergeBlocks less fuel (pre ++ rest) (length pre) (length pre + 2 * bs)
                 (length pre + length rest) bs).1 in
     let a := (mergeBlocks less fuel (pre ++ rest) (length pre) (length pre + 2 * bs)
                 (length pre + length rest) bs).2 in
     if (a + bs <? length pre + length rest)%nat
     then symMerge_func less (length pre + length rest - a) d a (a + bs)
            (length pre + length rest)
     else d)
    = pre ++ rest'
    ∧ blocks (2 * bs) rest' ∧ rest' ≡ₚ rest.
Proof.
  induction fuel as [|fuel IH]; intros pre rest Hbs Hfuel Hbl.
  { destruct rest; [|simpl in Hfuel; lia]. cbn [mergeBlocks fst snd]. cbv zeta.
    rewrite (proj2 (Nat.ltb_ge _ _)) by (simpl; lia).
    exists []. split; [done|]. split; [|done]. apply blocks_last; [simpl; lia|constructor]. }
  cbn [mergeBlocks].
  destruct (Nat.leb_spec (length pre + 2 * bs) (length pre + length rest)) as [Hle|Hgt].
  - destruct (blocks_first bs rest Hbl) as (b1 & r1 & -> & Hb1 & HS1 & Hbl1); [lia|].
    rewrite length_app in Hle, Hfuel.
    destruct (blocks_first bs r1 Hbl1) as (b2 & r2 & -> & Hb2 & HS2 & Hbl2); [lia|].
    rewrite length_app in Hle, Hfuel.
    destruct (symMerge_spec (length pre + 2 * bs - length pre) pre b1 b2 r2)
      as (Mg & E & HSM & HPM); [lia..|done|done|].
    rewrite Hb1, Hb2 in E.
    replace (length pre + bs + bs)%nat with (length pre + 2 * bs)%nat in E by lia.
    rewrite E.
    assert (length Mg = (2 * bs)%nat) as HMg by (rewrite HPM, length_app; lia).
    destruct (IH (pre ++ Mg) r2 Hbs) as (rest' & E' & Hbl' & HP'); [lia|done|].
    cbv zeta in E'.
    rewrite length_app, HMg, <- app_assoc in E'.
    cbv zeta. rewrite !length_app, Hb1, Hb2.
    replace (length pre + (bs + (bs + length r2)))%nat
      with (length pre + 2 * bs + length r2)%nat by lia.
    rewrite E'. exists (Mg ++ rest'). split; [by rewrite <- app_assoc|]. split.
    + by apply blocks_cons.
    + rewrite HPM, HP'. by rewrite <- app_assoc.
  - cbn [fst snd]. cbv zeta.
    destruct (Nat.ltb_spec (length pre + bs) (length pre + length rest)) as [Hlt|Hge].
    + destruct (blocks_first bs rest Hbl) as (b1 & r1 & -> & Hb1 & HS1 & Hbl1); [lia|].
      rewrite length_app in Hlt, Hgt.
      assert (StronglySorted before r1) as HSr by (apply (blocks_short bs); [done|lia]).
      destruct (symMerge_spec (length pre + length (b1 ++ r1) - length pre) pre b1 r1 [])
        as (Mg & E & HSM & HPM); [rewrite ?length_app; lia..|done|done|].
      rewrite !app_nil_r in E. rewrite Hb1 in E.
      rewrite length_app, Hb1. rewrite length_app, Hb1 in E.
      replace (length pre + bs + length r1)%nat
        with (length pre + (bs + length r1))%nat in E by lia.
      rewrite E. exists Mg. split; [done|]. split; [|done].
      apply blocks_last; [|done]. rewrite HPM, length_app. lia.
    + exists rest. split; [done|]. split; [|done].
      apply blocks_last; [lia|]. apply (blocks_short bs); [done|lia].
Qed.

Lemma mergeRounds_spec fuel : ∀ data bs,
  (0 < bs)%nat → (length data ≤ bs * 2 ^ fuel)%nat → blocks bs data →
  StronglySorted before (mergeRounds less fuel data (length data) bs)
  ∧ mergeRounds less fuel data (length data) bs ≡ₚ data.
Proof.
  induction fuel as [|fuel IH]; intros data bs Hbs Hlen Hbl.
  { cbn [mergeRounds]. split; [|done]. apply (blocks_short bs); [done|]. simpl in Hlen. lia. }
  cbn [mergeRounds].
  destruct (Nat.ltb_spec bs (length data)) as [Hlt|Hge].
  - destruct (mergeBlocks_spec bs (length data) [] data Hbs) as (rest' & E & Hbl' & HP);
      [lia|done|].
    cbv zeta in E. cbn [length app Nat.add] in E.
    destruct (mergeBlocks less (length data) data 0 (2 * bs) (length data) bs)
      as [d a] eqn:Hm.
    cbn [fst snd] in E. rewrite E.
    assert (length rest' = length data) as Hl by (by rewrite HP).
    rewrite <- Hl.
    destruct (IH rest' (2 * bs)%nat) as (HS & HP'); [lia| |done|].
    { rewrite Hl. rewrite Nat.pow_succ_r' in Hlen. lia. }
    split; [done|]. by rewrite HP'.
  - split; [|done]. apply (blocks_short bs); [done|lia].
Qed.

Lemma stable_func_spec data :
  StronglySorted before (stable_func less data (length data))
  ∧ stable_func less data (length data) ≡ₚ data.
Proof.
  unfold stable_func.
  destruct (insertBlocks_spec 20 (length data) [] data) as (rest' & E & Hbl & HP); [lia..|].
  cbn [length app Nat.add] in E.
  destruct (insertBlocks less (length data) data 0 20 (length data) 20) as [d a] eqn:Hi.
  cbn [fst snd] in E. rewrite E.
  assert (length rest' = length data) as Hl by (by rewrite HP).
  rewrite <- Hl.
  destruct (mergeRounds_spec (length rest') rest' 20) as (HS & HP'); [lia| |done|].
  { pose proof (Nat.pow_gt_lin_r 2 (length rest')). lia. }
  split; [done|]. by rewrite HP'.
Qed.

Theorem SliceStable_sorted x : StronglySorted before (SliceStable less x).
Proof. apply stable_func_spec. Qed.


End Order.

(** ** SignMessage *)

Section SignMessage.
Import tsslib eddsa.

Lemma signatureLess_spec ri rj :
  signatureLess ri rj = true ↔ SetBytes (M rj) ≤ SetBytes (M ri).
Proof.
  unfold signatureLess, Cmp. cbv zeta.
  destruct (Z.compare_spec (SetBytes (M ri)) (SetBytes (M rj))); cbn; split; intros; try done; lia.
Qed.

Lemma signatureLess_total ri rj :
  signatureLess ri rj = true ∨ signatureLess rj ri = true.
Proof. rewrite !signatureLess_spec. lia. Qed.

Lemma signatureLess_trans ri rj rk :
  signatureLess ri rj = true → signatureLess rj rk = true → signatureLess ri rk = true.
Proof. rewrite !signatureLess_spec. lia. Qed.

Lemma SliceStable_signatureLess_descending results :
  descendingByM (sort.SliceStable signatureLess results).
Proof.
  intros i j ri rj Hij Hi Hj. apply signatureLess_spec.
  eapply (sorted_lookup signatureLess signatureLess_total _ i j);
    [|lia|done..].
  apply SliceStable_sorted; [apply signatureLess_total|apply signatureLess_trans].
Qed.

Lemma descendingByM_nil : descendingByM [].
Proof. intros i j ri rj _ Hi. done. Qed.

(** C1, as the code has it: the comparison handed to [sort.SliceStable]
    answers false exactly when the first [M] is the smaller one, so the
    signatures [SignMessage] returns are in descending order of the
    big-endian value of [M] (largest first, equal values next to each
    other). *)
Theorem SignMessage_sorted_descending g msgsToSign localStateItem parties s results s' e :
  SignMessage g msgsToSign localStateItem parties s = (Returns (results, None), s', e) →
  descendingByM results.
Proof.
  unfold SignMessage. intros H.
  destruct (GetParties g parties _) as [[partiesID localPartyID] [err|]]; [done|].
  destruct (negb _); [simplify_eq; apply descendingByM_nil|].
  destruct (conversion.GetThreshold _) as [threshold [err|]]; [done|].
  destruct (buildParties _ _ _ _); [done|].
  destruct (SetupIDMaps1 g), (SetupIDMaps2 g);
    try (simplify_eq; apply descendingByM_nil).
  destruct (processKeySign _ _ _ _) as [[[[sigs [err|]]|why] s1] e1]; simplify_eq.
  apply SliceStable_signatureLess_descending.
Qed.

Lemma SignMessage_sorted_descending_witness :
  descendingByM [examples.sigTwo; examples.sigOne].
Proof.
  apply (SignMessage_sorted_descending examples.signing [[x01]; [x02]] examples.keyShare
           ["A"; "B"; "C"]%string examples.fresh
           [examples.sigTwo; examples.sigOne]
           (SetLastMsg examples.broadcast3 examples.fresh)
           [DidSetLastMsg examples.broadcast3; SentOut examples.broadcast3 p2p.TSSKeySignMsg;
            NotifiedTaskDone; SavedAddressBook]).
  vm_compute. reflexivity.
Defined.

(** C1 fails as stated: a batch of the messages 01 and 02, whose
    signatures arrive in that order, comes back as the signature of 02
    followed by that of 01, which is not ascending. *)
Lemma SignMessage_ascending_counterexample :
  (SignMessage examples.signing [[x01]; [x02]] examples.keyShare
     ["A"; "B"; "C"]%string examples.fresh).1.1
    = Returns ([examples.sigTwo; examples.sigOne], None)
  ∧ ¬ ascendingByM [examples.sigTwo; examples.sigOne].
Proof.
  split; [vm_compute; reflexivity|].
  intros H. specialize (H 0%nat 1%nat examples.sigTwo examples.sigOne).
  vm_compute in H. by apply H.
Qed.



End SignMessage.

(** ** KeySign *)

Section Threshold.

Lemma GetThreshold_formula n :
  3 * (conversion.GetThreshold n).1 < 2 * n ≤ 3 * (conversion.GetThreshold n).1 + 3.
Proof.
  unfold conversion.GetThreshold. cbn [fst].
  unfold Qround.Qceiling, Qround.Qfloor, QArith_base.Qopp, QArith_base.Qmult,
    QArith_base.inject_Z. cbn [QArith_base.Qnum QArith_base.Qden].
  change (Z.pos (3 * 1)) with 3.
  pose proof (Z.div_mod (- (2 * n)) 3 ltac:(lia)) as E.
  pose proof (Z.mod_pos_bound (- (2 * n)) 3 ltac:(lia)) as B.
  lia.
Qed.

End Threshold.

Section KeySignEntry.
Import keysign tss.

(** [KeySign] wraps what its body does between the two subscriptions and
    their cancellation. *)
Lemma KeySign_unfold t req :
  KeySign t req =
    match (requestToMsgId t req).2 with
    | Some err => (Returns (emptyResponse, Some err), [])
    | None =>
        let msgID := (requestToMsgId t req).1 in
        ((keySignBody t req msgID).1,
         [Subscribed p2p.TSSKeySignMsg msgID; Subscribed p2p.TSSKeySignVerMsg msgID]
           ++ (keySignBody t req msgID).2
           ++ [Cancelled p2p.TSSKeySignVerMsg msgID; Cancelled p2p.TSSKeySignMsg msgID])
    end.
Proof.
  unfold KeySign. destruct (requestToMsgId t req) as [msgID [err|]]; [done|].
  cbn. by destruct (keySignBody t req msgID).
Qed.

(** The body returns with an error, having started nothing, when the
    signers are no more than the threshold of the stored key-share. *)
Lemma keySignBody_not_enough_signers t req msgID :
  len (SignerPubKeys req)
    ≤ (conversion.GetThreshold
         (len (storage.ParticipantKeys (GetLocalState t (PoolPubKey req)).1))).1 →
  ∃ e, keySignBody t req msgID = (Returns (emptyResponse, Some e), [])
       ∧ ((GetLocalState t (PoolPubKey req)).2 = None →
          (decodeMessages t (Messages req)).2 = None →
          SignerPubKeys req ≠ [] →
          e = errNew "not enough signers").
Proof.
  intros Hle. unfold keySignBody.
  destruct (GetLocalState t (PoolPubKey req)) as [localStateItem [err|]]; [by eexists|].
  destruct (decodeMessages t (Messages req)) as [msgsToSign [err|]]; [by eexists|].
  cbn [fst snd] in *.
  destruct (len (SignerPubKeys req) =? 0) eqn:E0.
  { eexists; split; [done|]. intros _ _ Hne. apply Z.eqb_eq in E0.
    destruct (SignerPubKeys req); [done|]. unfold len in E0. cbn in E0. lia. }
  unfold conversion.GetThreshold in *. cbn [fst] in Hle.
  rewrite (proj2 (Z.leb_le _ _) Hle). by eexists.
Qed.

(** C5: the threshold of a key-share of [n] participants is
    [ceil(2n/3) - 1], that is [3 * threshold < 2 * n <= 3 * threshold + 3];
    a request with no more signers than that returns the empty response
    with an error, and neither party formation nor signing is started. *)
Theorem KeySign_fails_at_or_below_threshold t req n threshold :
  n = len (storage.ParticipantKeys (GetLocalState t (PoolPubKey req)).1) →
  threshold = (conversion.GetThreshold n).1 →
  len (SignerPubKeys req) ≤ threshold →
  3 * threshold < 2 * n ≤ 3 * threshold + 3
  ∧ ∃ e, (KeySign t req).1 = Returns (emptyResponse, Some e)
         ∧ Forall (λ a, startsSession a = false) (KeySign t req).2
         ∧ ((requestToMsgId t req).2 = None →
            (GetLocalState t (PoolPubKey req)).2 = None →
            (decodeMessages t (Messages req)).2 = None →
            SignerPubKeys req ≠ [] →
            e = errNew "not enough signers").
Proof.
  intros -> -> Hle. split; [apply GetThreshold_formula|].
  rewrite KeySign_unfold.
  destruct (requestToMsgId t req) as [msgID [err|]]; cbn [fst snd].
  { eexists. split; [done|]. split; [constructor|done]. }
  destruct (keySignBody_not_enough_signers t req msgID Hle) as (e & -> & He).
  exists e. split; [done|]. split; [|auto].
  cbn. repeat constructor.
Qed.

Lemma KeySign_fails_at_or_below_threshold_witness :
  3 * 2 < 2 * 4 ≤ 3 * 2 + 3
  ∧ ∃ e, (KeySign examples.server (examples.request ["A"; "B"]%string)).1
           = Returns (emptyResponse, Some e)
         ∧ Forall (λ a, startsSession a = false)
             (KeySign examples.server (examples.request ["A"; "B"]%string)).2
         ∧ ((requestToMsgId examples.server (examples.request ["A"; "B"]%string)).2 = None →
            (GetLocalState examples.server
               (PoolPubKey (examples.request ["A"; "B"]%string))).2 = None →
            (decodeMessages examples.server
               (Messages (examples.request ["A"; "B"]%string))).2 = None →
            SignerPubKeys (examples.request ["A"; "B"]%string) ≠ [] →
            e = errNew "not enough signers").
Proof.
  apply (KeySign_fails_at_or_below_threshold examples.server
           (examples.request ["A"; "B"]%string) 4 2).
  - reflexivity.
  - reflexivity.
  - vm_compute. discriminate.
Defined.








End KeySignEntry.

(** * More of what the code guarantees *)

(** ** The length header *)

Section Header.
Import p2p.




End Header.

(** ** Frames on an inbound stream *)

Section Frames.
Import p2p.

(** Fuel beyond what is pending changes nothing. *)
Lemma readLoop_fuel unmarshal c : ∀ fuel1 fuel2 s,
  (pending s < fuel1)%nat → (pending s < fuel2)%nat →
  readLoop unmarshal c fuel1 s = readLoop unmarshal c fuel2 s.
Proof.
  induction fuel1 as [|fuel1 IH]; intros fuel2 s H1 H2; [lia|].
  destruct fuel2 as [|fuel2]; [lia|].
  cbn [readLoop].
  pose proof (pending_arriving _ _ (pollStop_arriving s)) as Hp.
  destruct (pollStop s) as [stop s1]. cbn [snd] in Hp.
  destruct stop; [done|].
  pose proof (pending_arriving _ _ (SetReadDeadline_arriving s1)) as Hd.
  destruct (SetReadDeadline s1) as [err s2]. cbn [snd] in Hd.
  destruct err; [done|].
  destruct (arriving s2) as [|[data|e] rest] eqn:Harr.
  - unfold Read. rewrite Harr. done.
  - pose proof (Read_pending_taken LengthHeader s2 data rest Harr) as Ht.
    destruct (Read LengthHeader s2) as [[length err] s3]. cbn [fst snd] in Ht.
    destruct err as [[|]|]; [done..|].
    destruct (base.length length <? LengthHeader)%nat eqn:Hlen; [done|].
    apply Nat.ltb_ge in Hlen. unfold LengthHeader in Hlen.
    destruct (MaxPayload <? Uint32 length); [done|].
    pose proof (pending_arriving _ _ (SetReadDeadline_arriving s3)) as Hd2.
    destruct (SetReadDeadline s3) as [err2 s4]. cbn [snd] in Hd2.
    pose proof (Read_pending (Z.to_nat (Uint32 length)) s4) as Hr.
    destruct (Read (Z.to_nat (Uint32 length)) s4) as [[read err3] s5]. cbn [snd] in Hr.
    destruct err3; [done|].
    by rewrite (IH fuel2 s5) by lia.
  - unfold Read. rewrite Harr. by destruct e.
Qed.

(** One turn of the loop on a frame whose header and [part] of whose
    payload have arrived. *)
Lemma readLoop_frame unmarshal c fuel from hdr part rest :
  length hdr = 4%nat →
  part ≠ [] →
  Uint32 hdr ≤ MaxPayload →
  len part ≤ Uint32 hdr →
  readLoop unmarshal c (S fuel) (inbound from (Arrived (hdr ++ part) :: rest))
  = ((if len part =? Uint32 hdr then []
      else [Logged "we are expecting bytes" from (len part)])
     ++ dispatch unmarshal c from
          (part ++ replicate (Z.to_nat (Uint32 hdr) - length part) x00)
     :: (readLoop unmarshal c fuel (inbound from rest)).1,
     (readLoop unmarshal c fuel (inbound from rest)).2).
Proof.
  intros Hhdr Hpart Hmax Hlen.
  cbn [readLoop inbound pollStop SetReadDeadline stopPolls deadlineAnswers RemotePeer].
  unfold Read at 1. cbn [arriving inbound]. unfold LengthHeader.
  rewrite take_app_length' by done. rewrite drop_app_length' by done.
  rewrite Hhdr. cbn [Nat.ltb Nat.leb].
  rewrite (proj2 (Z.ltb_ge _ _) Hmax).
  destruct part as [|b part]; [done|].
  unfold SetReadDeadline, Read, withArriving, inbound.
  cbn [deadlineAnswers arriving RemotePeer stopPolls].
  assert (length (b :: part) ≤ Z.to_nat (Uint32 hdr))%nat as Hle by (unfold len in Hlen; lia).
  rewrite take_ge by done. rewrite drop_ge by done.
  destruct (readLoop unmarshal c fuel _) as [more exit].
  unfold dispatch. cbn [fst snd app].
  destruct (len (b :: part) =? Uint32 hdr);
    destruct (unmarshal _) as [wm|]; [destruct (getSubscriber _ _ _)| |destruct (getSubscriber _ _ _)|];
    reflexivity.
Qed.

Lemma pending_inbound_cons from data rest :
  pending (inbound from (Arrived data :: rest))
  = S (length data + pending (inbound from rest)).
Proof. reflexivity. Qed.

Lemma readFromStream_frame_aux unmarshal c from hdr part rest :
  length hdr = 4%nat →
  part ≠ [] →
  Uint32 hdr ≤ MaxPayload →
  len part ≤ Uint32 hdr →
  readFromStream unmarshal c (inbound from (Arrived (hdr ++ part) :: rest))
  = ((if len part =? Uint32 hdr then []
      else [Logged "we are expecting bytes" from (len part)])
     ++ dispatch unmarshal c from
          (part ++ replicate (Z.to_nat (Uint32 hdr) - length part) x00)
     :: (readFromStream unmarshal c (inbound from rest)).1,
     (readFromStream unmarshal c (inbound from rest)).2).
Proof.
  intros Hhdr Hpart Hmax Hlen. unfold readFromStream.
  rewrite readLoop_frame by done.
  rewrite (readLoop_fuel unmarshal c _ (S (pending (inbound from rest))) (inbound from rest));
    [done| |lia].
  rewrite pending_inbound_cons. lia.
Qed.



(** A payload that arrives short of the declared length is not waited
    for: after one [Read] the reader pads what it got with zero bytes, hands
    that to [dispatch], and takes what follows as the next frame. *)
Theorem readFromStream_short_read unmarshal c from hdr part rest :
  length hdr = 4%nat →
  Uint32 hdr ≤ MaxPayload →
  0 < len part < Uint32 hdr →
  readFromStream unmarshal c (inbound from (Arrived (hdr ++ part) :: rest))
  = (Logged "we are expecting bytes" from (len part)
       :: dispatch unmarshal c from
            (part ++ replicate (Z.to_nat (Uint32 hdr) - length part) x00)
       :: (readFromStream unmarshal c (inbound from rest)).1,
     (readFromStream unmarshal c (inbound from rest)).2).
Proof.
  intros Hhdr Hmax Hlen.
  rewrite readFromStream_frame_aux; [|done| |lia|lia].
  - by rewrite (proj2 (Z.eqb_neq _ _)) by lia.
  - intros ->. unfold len in Hlen. cbn in Hlen. lia.
Qed.

Lemma readFromStream_short_read_witness :
  readFromStream examples.unmarshalAny examples.listeningNode
    (inbound "A" [Arrived ([x03; x00; x00; x00] ++ [x7b]); Arrived [x7d; x0a]])
  = (Logged "we are expecting bytes" "A" (len [x7b])
       :: dispatch examples.unmarshalAny examples.listeningNode "A"
            ([x7b] ++ replicate (Z.to_nat (Uint32 [x03; x00; x00; x00]) - length [x7b]) x00)
       :: (readFromStream examples.unmarshalAny examples.listeningNode
             (inbound "A" [Arrived [x7d; x0a]])).1,
     (readFromStream examples.unmarshalAny examples.listeningNode
        (inbound "A" [Arrived [x7d; x0a]])).2).
Proof.
  apply (readFromStream_short_read examples.unmarshalAny examples.listeningNode "A"
           [x03; x00; x00; x00] [x7b] [Arrived [x7d; x0a]]).
  - reflexivity.
  - vm_compute. discriminate.
  - vm_compute. split; reflexivity.
Defined.

End Frames.

(** ** From writer to reader, and the streams of a broadcast *)

Section Writer.
Import p2p.






Lemma opened_app d1 d2 : opened (d1 ++ d2) = opened d1 ++ opened d2.
Proof. unfold opened. apply omap_app. Qed.

Lemma closed_app d1 d2 : closed (d1 ++ d2) = closed d1 ++ closed d2.
Proof. unfold closed. apply omap_app. Qed.

Lemma wire_app to d1 d2 : wire to (d1 ++ d2) = wire to d1 ++ wire to d2.
Proof. unfold wire. apply flat_map_app. Qed.

(** [writeToStream] closes the stream it opens, and opens none to the
    node itself or to a peer other than the one it is given. *)
Lemma writeToStream_streams c net ai msg :
  closed (writeToStream c net ai msg).2 = opened (writeToStream c net ai msg).2
  ∧ (opened (writeToStream c net ai msg).2 = []
     ∨ opened (writeToStream c net ai msg).2 = [peer.AddrInfo_ID ai]
       ∧ peer.AddrInfo_ID ai ≠ host c)
  ∧ wire (host c) (writeToStream c net ai msg).2 = [].
Proof.
  unfold writeToStream, connectToOnePeer.
  destruct (decide (peer.AddrInfo_ID ai = host c)) as [Heq|Hne].
  { rewrite !bool_decide_eq_true_2 by done. cbn. auto. }
  rewrite !bool_decide_eq_false_2 by done.
  assert (bool_decide (peer.AddrInfo_ID ai = host c) = false) as Hb.
  { by apply bool_decide_eq_false_2. }
  repeat case_match; simplify_eq; cbn [snd app]; unfold wire, closed, opened;
    cbn [omap flat_map option_bind mbind app]; rewrite ?Hb; cbn [app]; auto.
Qed.

Lemma writeToStream_not_self c net ai msg :
  host c ∉ opened (writeToStream c net ai msg).2.
Proof.
  destruct (writeToStream_streams c net ai msg) as (_ & [->|[-> Hne]] & _).
  - apply not_elem_of_nil.
  - intros Heq%list_elem_of_singleton. by apply Hne.
Qed.

Lemma broadcastLoop_streams c net peers msg found :
  closed (broadcastLoop c net peers msg found) = opened (broadcastLoop c net peers msg found)
  ∧ (host c ∉ opened (broadcastLoop c net peers msg found))
  ∧ wire (host c) (broadcastLoop c net peers msg found) = [].
Proof.
  induction found as [|[ai|] found (IH1 & IH2 & IH3)]; cbn [broadcastLoop].
  - split; [done|]. split; [apply not_elem_of_nil|done].
  - rewrite closed_app, opened_app, wire_app, IH1, IH3, app_nil_r, not_elem_of_app.
    destruct (shouldWeWriteToPeer ai peers).
    + destruct (writeToStream_streams c net ai msg) as (H1 & _ & H3).
      pose proof (writeToStream_not_self c net ai msg) as H2.
      destruct (writeToStream c net ai msg) as [[err|] done]; cbn [snd] in *.
      * rewrite closed_app, opened_app, wire_app, H1, H3, not_elem_of_app.
        repeat split; try done. apply not_elem_of_nil.
      * rewrite H1, H3. done.
    + repeat split; try done. apply not_elem_of_nil.
  - split; [done|]. split; [apply not_elem_of_nil|done].
Qed.

(** [Broadcast] closes every stream it opens, in the order it opened
    them, and opens no stream to the node itself, to which it writes
    nothing. *)
Theorem Broadcast_closes_what_it_opens c net peers msg :
  closed (Broadcast c net peers msg) = opened (Broadcast c net peers msg)
  ∧ (host c ∉ opened (Broadcast c net peers msg))
  ∧ wire (host c) (Broadcast c net peers msg) = [].
Proof.
  unfold Broadcast, broadcastToPeers.
  destruct (len peers =? 0).
  { split; [done|]. split; [apply not_elem_of_nil|done]. }
  destruct (FindPeers net (rendezvous c)) as [peerChan [err|]].
  { split; [done|]. split; [apply not_elem_of_nil|done]. }
  destruct (broadcastLoop_streams c net peers msg peerChan) as (H1 & H2 & H3).
  change (Discovered ?r :: ?l) with ([Discovered r] ++ l).
  rewrite closed_app, opened_app, wire_app. cbn -[wire opened closed].
  done.
Qed.




End Writer.

(** ** Lookups in the subscription table, and the bootstrap peers *)

Section Lookups.
Import p2p.

Lemma getSubscriber_SetSubscribe topic msgID channel c topic' msgID' :
  getSubscriber topic' msgID' (SetSubscribe topic msgID channel c)
  = if decide (topic' = topic ∧ msgID' = msgID) then Some channel
    else getSubscriber topic' msgID' c.
Proof.
  unfold getSubscriber, SetSubscribe. cbn [subscribers withSubscribers].
  destruct (decide (topic' = topic)) as [->|Hne].
  - rewrite lookup_insert_eq.
    destruct (subscribers c !! topic) as [ms|] eqn:Hms;
      unfold GetSubscriber, Subscribe, NewMessageIDSubscriber, MessageIDSubscriber;
      (destruct (decide (msgID' = msgID)) as [->|Hne'];
       [rewrite lookup_insert_eq; by rewrite decide_True
       |rewrite lookup_insert_ne by done; rewrite decide_False by (by intros [_ ?])]).
    + done.
    + apply lookup_empty.
  - rewrite lookup_insert_ne by done. by rewrite decide_False by (by intros [? _]).
Qed.

Lemma getSubscriber_CancelSubscribe topic msgID c topic' msgID' :
  getSubscriber topic' msgID' (CancelSubscribe topic msgID c)
  = if decide (topic' = topic ∧ msgID' = msgID) then None
    else getSubscriber topic' msgID' c.
Proof.
  unfold getSubscriber, CancelSubscribe.
  destruct (subscribers c !! topic) as [ms|] eqn:Hms.
  - destruct (IsEmpty (UnSubscribe msgID ms)) eqn:Hempty; cbn [subscribers withSubscribers].
    + unfold IsEmpty in Hempty. apply bool_decide_eq_true in Hempty.
      apply map_size_empty_iff in Hempty.
      destruct (decide (topic' = topic)) as [->|Hne].
      * rewrite lookup_delete_eq, Hms.
        destruct (decide (msgID' = msgID)) as [->|Hne'].
        -- by rewrite decide_True.
        -- rewrite decide_False by (by intros [_ ?]).
           unfold GetSubscriber, UnSubscribe, MessageIDSubscriber in *.
           rewrite <- (lookup_delete_ne ms msgID msgID') by done.
           by rewrite Hempty, lookup_empty.
      * rewrite lookup_delete_ne by done. by rewrite decide_False by (by intros [? _]).
    + destruct (decide (topic' = topic)) as [->|Hne].
      * rewrite lookup_insert_eq, Hms.
        unfold GetSubscriber, UnSubscribe, MessageIDSubscriber in *.
        destruct (decide (msgID' = msgID)) as [->|Hne'].
        -- rewrite decide_True by done. apply lookup_delete_eq.
        -- rewrite decide_False by (by intros [_ ?]). by apply lookup_delete_ne.
      * rewrite lookup_insert_ne by done. by rewrite decide_False by (by intros [? _]).
  - destruct (decide (topic' = topic ∧ msgID' = msgID)) as [[-> ->]|]; [|done].
    by rewrite Hms.
Qed.

(** After [SetSubscribe(topic, msgID, channel)] the subscriber of
    [(topic, msgID)] is [channel], whatever it was before, and the
    subscriber of every other pair is what it was. *)
Theorem SetSubscribe_then_getSubscriber topic msgID channel c :
  getSubscriber topic msgID (SetSubscribe topic msgID channel c) = Some channel
  ∧ ∀ topic' msgID', (topic', msgID') ≠ (topic, msgID) →
      getSubscriber topic' msgID' (SetSubscribe topic msgID channel c)
      = getSubscriber topic' msgID' c.
Proof.
  split.
  - rewrite getSubscriber_SetSubscribe. by rewrite decide_True.
  - intros topic' msgID' Hne. rewrite getSubscriber_SetSubscribe.
    rewrite decide_False; [done|]. intros [-> ->]. done.
Qed.

(** After [CancelSubscribe(topic, msgID)] the pair [(topic, msgID)] has no
    subscriber, and the subscriber of every other pair is what it was, also
    when the cancellation removes the last subscriber of [topic]. *)
Theorem CancelSubscribe_then_getSubscriber topic msgID c :
  getSubscriber topic msgID (CancelSubscribe topic msgID c) = None
  ∧ ∀ topic' msgID', (topic', msgID') ≠ (topic, msgID) →
      getSubscriber topic' msgID' (CancelSubscribe topic msgID c)
      = getSubscriber topic' msgID' c.
Proof.
  split.
  - rewrite getSubscriber_CancelSubscribe. by rewrite decide_True.
  - intros topic' msgID' Hne. rewrite getSubscriber_CancelSubscribe.
    rewrite decide_False; [done|]. intros [-> ->]. done.
Qed.

End Lookups.

Section Bootstrap.
Import p2p.

(** [connectToBootstrapPeers] fails exactly when one of the addresses does
    not parse.  When it succeeds it has tried every peer, and what
    [host.Connect] answered made no difference. *)
Theorem connectToBootstrapPeers_fails_only_on_bad_address b bootstrapPeers :
  ((connectToBootstrapPeers b bootstrapPeers).1 = None
   ↔ Forall (λ peerAddr, (AddrInfoFromP2pAddr b peerAddr).2 = None) bootstrapPeers)
  ∧ ((connectToBootstrapPeers b bootstrapPeers).1 = None →
     (connectToBootstrapPeers b bootstrapPeers).2
     = map (λ peerAddr, ((AddrInfoFromP2pAddr b peerAddr).1,
                         Connect b (AddrInfoFromP2pAddr b peerAddr).1)) bootstrapPeers).
Proof.
  induction bootstrapPeers as [|peerAddr bootstrapPeers [IH1 IH2]]; cbn [connectToBootstrapPeers].
  - split; [|done]. split; [constructor|done].
  - destruct (AddrInfoFromP2pAddr b peerAddr) as [pi [err|]] eqn:E.
    + split; [|done]. split; [done|]. intros H. inversion H as [|?? H1]; subst.
      rewrite E in H1. done.
    + destruct (connectToBootstrapPeers b bootstrapPeers) as [err tried].
      cbn [fst snd] in *. split.
      * rewrite IH1. split.
        -- intros H. constructor; [by rewrite E|done].
        -- intros H. by inversion H.
      * intros H. cbn [map]. rewrite E. cbn [fst]. by rewrite IH2.
Qed.

End Bootstrap.

(** ** The key generation loop *)

Section KeyGenLoop.
Import tsslib eddsa.

Lemma keyGenTimeout_fails w s r pk s' e :
  keyGenTimeout w s = ((r, None, pk), s', e) → False.
Proof.
  unfold keyGenTimeout. destruct (lastMsg s) as [msg|]; [|done].
  destruct (blame.GetUnicastBlame _ _) as [blameNodesUnicast err1].
  destruct (conversion.GetThreshold _) as [threshold err0].
  destruct (setBlameWithin _ _ _ _ _ _) as [s1 e1].
  destruct (blame.GetBroadcastBlame _ _) as [blameNodesBroadcast err2].
  destruct (missingShareSweep _ _ _ _ _) as [s2 e2]. done.
Qed.

Lemma evidence_not_address_book (e : list Effect) :
  SavedAddressBook ∈ e → Forall (λ a, a ≠ SavedAddressBook) e → False.
Proof. intros Hin Hall. rewrite Forall_forall in Hall. by apply (Hall _ Hin). Qed.

Lemma setBlameWithin_effects w failReason nodes threshold tag s :
  Forall (λ a, a ≠ SavedAddressBook) (setBlameWithin w failReason nodes threshold tag s).2.
Proof. unfold setBlameWithin. destruct (_ && _); repeat constructor; done. Qed.

Lemma missingShareSweep_effects w nrounds algo threshold s :
  Forall (λ a, a ≠ SavedAddressBook) (missingShareSweep w nrounds algo threshold s).2.
Proof.
  unfold missingShareSweep. destruct (_ =? _); [|constructor].
  destruct (blame.TssMissingShareBlame _ _ _) as [[nodes isUnicast] err].
  destruct (_ && _); repeat constructor; done.
Qed.

Lemma keyGenTimeout_effects w s :
  Forall (λ a, a ≠ SavedAddressBook) (keyGenTimeout w s).2.
Proof.
  unfold keyGenTimeout. destruct (lastMsg s) as [msg|]; [|constructor].
  destruct (blame.GetUnicastBlame _ _) as [blameNodesUnicast err1].
  destruct (conversion.GetThreshold _) as [threshold err0].
  pose proof (setBlameWithin_effects w (timeoutReason s) blameNodesUnicast threshold
                "KeyGenTimeout" s) as H1.
  destruct (setBlameWithin _ _ _ _ _ _) as [s1 e1].
  destruct (blame.GetBroadcastBlame _ _) as [blameNodesBroadcast err2].
  match goal with |- context [missingShareSweep ?a ?b ?c ?d ?e] =>
    pose proof (missingShareSweep_effects a b c d e) as H2;
    destruct (missingShareSweep a b c d e) as [s2 e2] end.
  cbn [snd] in *. constructor; [done|]. apply Forall_app. split; [done|].
  repeat (constructor; [done|]). done.
Qed.

(** What a return of [processKeyGen] without error comes with. *)
Lemma processKeyGen_success w item events : ∀ s r pk s' e,
  processKeyGen w item events s = ((r, None, pk), s', e) →
  ∃ msg data,
    r = Some (EDDSAPub msg)
    ∧ EndMsg msg ∈ events
    ∧ GetTssPubKeyEDDSA w (EDDSAPub msg) = (pk, None)
    ∧ Marshal w msg = (data, None)
    ∧ SaveLocalState w
        {| storage.PubKey := pk; storage.LocalData := data;
           storage.ParticipantKeys := storage.ParticipantKeys item;
           storage.LocalPartyKey := storage.LocalPartyKey item |} messages.EDDSAKEYGEN = None
    ∧ SavedLocalState
        {| storage.PubKey := pk; storage.LocalData := data;
           storage.ParticipantKeys := storage.ParticipantKeys item;
           storage.LocalPartyKey := storage.LocalPartyKey item |} ∈ e
    ∧ SavedAddressBook ∈ e.
Proof.
  induction events as [|ev events IH]; intros s r pk s' e H.
  - cbn [processKeyGen] in H. by apply keyGenTimeout_fails in H.
  - destruct ev as [| | |msg|msg]; cbn [processKeyGen] in H.
    + done.
    + done.
    + by apply keyGenTimeout_fails in H.
    + destruct (ProcessOutCh w msg p2p.TSSKeyGenMsg); [done|].
      destruct (processKeyGen w item events (SetLastMsg msg s)) as [[[[r1 err1] pk1] s1] e1] eqn:E.
      simplify_eq. apply IH in E as (m & data & -> & Hin & Hpk & Hm & Hsave & Hs & Ha).
      exists m, data. repeat split; try done;
        repeat (apply elem_of_cons; right); done.
    + unfold keyGenEnd in H.
      destruct (GetTssPubKeyEDDSA w (EDDSAPub msg)) as [strPubKey [err|]] eqn:Hpk; [done|].
      destruct (Marshal w msg) as [marshaledMsg [err|]] eqn:Hm; [done|].
      destruct (SaveLocalState w _ messages.EDDSAKEYGEN) eqn:Hsave; [done|].
      simplify_eq. exists msg, marshaledMsg. repeat split; try done;
        repeat first [by (apply elem_of_cons; left)|apply elem_of_cons; right].
Qed.

(** [processKeyGen] returns no key with an error, and has not saved the
    address book then. *)
Theorem processKeyGen_error_returns_no_key w item events : ∀ s r err pk s' e,
  processKeyGen w item events s = ((r, Some err, pk), s', e) →
  r = None ∧ pk = EmptyString ∧ SavedAddressBook ∉ e.
Proof.
  induction events as [|ev events IH]; intros s r err pk s' e H.
  - cbn [processKeyGen] in H. pose proof (keyGenTimeout_effects w s) as He.
    rewrite H in He. cbn [snd] in He.
    split; [|split].
    + revert H. unfold keyGenTimeout. repeat case_match; by intros [= <- _ _ _ _].
    + revert H. unfold keyGenTimeout. repeat case_match; by intros [= _ _ <- _ _].
    + intros Hin. by eapply evidence_not_address_book.
  - destruct ev as [| | |msg|msg]; cbn [processKeyGen] in H.
    + simplify_eq. repeat split. apply not_elem_of_nil.
    + simplify_eq. repeat split. apply not_elem_of_nil.
    + pose proof (keyGenTimeout_effects w s) as He.
      rewrite H in He. cbn [snd] in He.
      split; [|split].
      * revert H. unfold keyGenTimeout. repeat case_match; by intros [= <- _ _ _ _].
      * revert H. unfold keyGenTimeout. repeat case_match; by intros [= _ _ <- _ _].
      * intros Hin. by eapply evidence_not_address_book.
    + destruct (ProcessOutCh w msg p2p.TSSKeyGenMsg).
      { simplify_eq. repeat split.
        intros Hin. repeat (apply elem_of_cons in Hin as [Hin|Hin]; [done|]).
        by apply elem_of_nil in Hin. }
      destruct (processKeyGen w item events (SetLastMsg msg s)) as [[[[r1 err1] pk1] s1] e1] eqn:E.
      simplify_eq. apply IH in E as (-> & -> & Hno). repeat split.
      intros Hin. repeat (apply elem_of_cons in Hin as [Hin|Hin]; [done|]). done.
    + unfold keyGenEnd in H. repeat case_match; simplify_eq; repeat split;
        intros Hin; repeat (apply elem_of_cons in Hin as [Hin|Hin]; [done|]);
        by apply elem_of_nil in Hin.
Qed.

Lemma processKeyGen_error_returns_no_key_witness :
  (None : option ECPoint) = None ∧ EmptyString = EmptyString
  ∧ SavedAddressBook ∉ ([] : list Effect).
Proof.
  apply (processKeyGen_error_returns_no_key examples.world examples.keyShare
           [StopChanClosed] examples.fresh None (errNew "[eddsa] received exit signal")
           EmptyString examples.fresh []).
  reflexivity.
Defined.

End KeyGenLoop.

(** ** Timeouts and what the loops record *)

Section Timeouts.
Import tsslib eddsa.

(** When the keygen timer fires after an outbound message was recorded,
    [processKeyGen] asks the unicast evidence of round 2a, whatever the last
    message was, then the broadcast evidence of the last message's round,
    and returns [ErrTssTimeOut]. *)
Theorem processKeyGen_timeout_evidence_queries w item rest s msg :
  lastMsg s = Some msg →
  (processKeyGen w item (TimerFired :: rest) s).1.1
    = (None, Some blame.ErrTssTimeOut, EmptyString)
  ∧ evidenceQueries (processKeyGen w item (TimerFired :: rest) s).2
    = [AskedUnicastBlame (messages.EDDSAKEYGEN2a (rounds w));
       AskedBroadcastBlame (MsgType msg)].
Proof.
  intros Hlast. cbn [processKeyGen]. unfold keyGenTimeout. rewrite Hlast.
  destruct (blame.GetUnicastBlame _ _) as [blameNodesUnicast err1].
  destruct (conversion.GetThreshold _) as [threshold err0].
  pose proof (setBlameWithin_queries w (timeoutReason s) blameNodesUnicast threshold
                "KeyGenTimeout" s) as H1.
  destruct (setBlameWithin _ _ _ _ _ _) as [s1 e1].
  destruct (blame.GetBroadcastBlame _ _) as [blameNodesBroadcast err2].
  match goal with |- context [missingShareSweep ?a ?b ?c ?d ?e] =>
    pose proof (missingShareSweep_queries a b c d e) as H2;
    destruct (missingShareSweep a b c d e) as [s2 e2] end.
  cbn [fst snd] in *. split; [done|].
  change (AskedUnicastBlame ?r :: e1 ++ ?x :: ?y :: e2)
    with ([AskedUnicastBlame r] ++ e1 ++ [x; y] ++ e2).
  rewrite !evidenceQueries_app, H1, H2. reflexivity.
Qed.

Lemma processKeyGen_timeout_evidence_queries_witness :
  (processKeyGen examples.world examples.keyShare [TimerFired]
     (SetLastMsg examples.keygenRound1 examples.fresh)).1.1
    = (None, Some blame.ErrTssTimeOut, EmptyString)
  ∧ evidenceQueries
      (processKeyGen examples.world examples.keyShare [TimerFired]
         (SetLastMsg examples.keygenRound1 examples.fresh)).2
    = [AskedUnicastBlame "KGRound2Message1"; AskedBroadcastBlame "KGRound1Message"].
Proof.
  apply (processKeyGen_timeout_evidence_queries examples.world examples.keyShare []
           (SetLastMsg examples.keygenRound1 examples.fresh) examples.keygenRound1).
  reflexivity.
Defined.

Lemma sentOut_app e1 e2 : sentOut (e1 ++ e2) = sentOut e1 ++ sentOut e2.
Proof. unfold sentOut. apply omap_app. Qed.

Lemma setBlameWithin_spec w failReason nodes threshold tag s :
  lastMsg (setBlameWithin w failReason nodes threshold tag s).1 = lastMsg s
  ∧ sentOut (setBlameWithin w failReason nodes threshold tag s).2 = []
  ∧ ∀ reason' nodes' isUnicast' tag',
      DidSetBlame reason' nodes' isUnicast' tag'
        ∈ (setBlameWithin w failReason nodes threshold tag s).2 →
      nodes' = nodes ∧ isUnicast' = true ∧ tag' = tag ∧ 0 < len nodes ≤ threshold.
Proof.
  unfold setBlameWithin. destruct (_ && _) eqn:E; cbn [fst snd].
  - split; [done|]. split; [done|]. intros ???? Hin.
    apply list_elem_of_singleton in Hin. simplify_eq.
    apply andb_prop in E as [E1 E2]. repeat split; lia.
  - split; [done|]. split; [done|]. intros ???? Hin. by apply elem_of_nil in Hin.
Qed.

Lemma missingShareSweep_spec w nrounds algo threshold s :
  lastMsg (missingShareSweep w nrounds algo threshold s).1 = lastMsg s
  ∧ sentOut (missingShareSweep w nrounds algo threshold s).2 = []
  ∧ ∀ reason nodes isUnicast tag,
      DidSetBlame reason nodes isUnicast tag
        ∉ (missingShareSweep w nrounds algo threshold s).2.
Proof.
  unfold missingShareSweep. destruct (_ =? _).
  - destruct (blame.TssMissingShareBlame _ _ _) as [[nodes isUnicast] err].
    destruct (_ && _); cbn [fst snd]; (split; [done|]); (split; [done|]);
      intros ???? Hin; repeat (apply elem_of_cons in Hin as [Hin|Hin]; [done|]);
      by apply elem_of_nil in Hin.
  - split; [done|]. split; [done|]. intros ????. apply not_elem_of_nil.
Qed.

Lemma keySignTimeout_blame w s :
  lastMsg (keySignTimeout w s).1.2 = lastMsg s
  ∧ sentOut (keySignTimeout w s).2 = []
  ∧ ∀ reason nodes isUnicast tag,
      DidSetBlame reason nodes isUnicast tag ∈ (keySignTimeout w s).2 →
      ∃ msg,
        lastMsg s = Some msg
        ∧ nodes = (blame.GetUnicastBlame (blameMgr w)
                     (if IsBroadcast msg then GetPreviousKeySignUicast w (MsgType msg)
                      else MsgType msg)).1
        ∧ 0 < len nodes ≤ (conversion.GetThreshold (len (P2PPeers w) + 1)).1
        ∧ isUnicast = true
        ∧ tag = (if IsBroadcast msg then "KeySignTimeout unicast"
                 else "KeySignTimeout broadcast")%string.
Proof.
  unfold keySignTimeout.
  destruct (conversion.GetThreshold _) as [threshold err0].
  destruct (lastMsg s) as [msg|] eqn:Hlast; cbn [fst snd].
  2:{ split; [done|]. split; [done|]. intros ???? Hin. by apply elem_of_nil in Hin. }
  destruct (blame.GetUnicastBlame _ _) as [blameNodesUnicast err1] eqn:Hq.
  match goal with |- context [setBlameWithin ?a ?b ?c ?d ?e ?f] =>
    destruct (setBlameWithin_spec a b c d e f) as (L1 & S1 & B1);
    destruct (setBlameWithin a b c d e f) as [s1 e1] end.
  destruct (blame.GetBroadcastBlame _ _) as [blameNodesBroadcast err2].
  match goal with |- context [missingShareSweep ?a ?b ?c ?d ?e] =>
    destruct (missingShareSweep_spec a b c d e) as (L2 & S2 & B2);
    destruct (missingShareSweep a b c d e) as [s2 e2] end.
  cbn [fst snd withVerdict lastMsg] in *.
  split; [by rewrite L2, L1|]. split.
  - change (AskedUnicastBlame ?r :: e1 ++ ?x :: ?y :: e2)
      with ([AskedUnicastBlame r] ++ e1 ++ [x; y] ++ e2).
    by rewrite !sentOut_app, S1, S2.
  - intros reason nodes isUnicast tag Hin.
    apply elem_of_cons in Hin as [Hin|Hin]; [done|].
    apply elem_of_app in Hin as [Hin|Hin].
    + apply B1 in Hin as (-> & -> & -> & Hlen). exists msg.
      split; [done|]. destruct (IsBroadcast msg); cbn [negb] in *; by rewrite Hq.
    + repeat (apply elem_of_cons in Hin as [Hin|Hin]; [done|]). by apply B2 in Hin.
Qed.

Lemma keySignLoop_blame w reqNum events : ∀ signatures s,
  (lastMsg (keySignLoop w reqNum events signatures s).1.2
   = match last (sentOut (keySignLoop w reqNum events signatures s).2) with
     | Some msg => Some msg
     | None => lastMsg s
     end)
  ∧ ∀ reason nodes isUnicast tag,
      DidSetBlame reason nodes isUnicast tag
        ∈ (keySignLoop w reqNum events signatures s).2 →
      ∃ msg,
        lastMsg (keySignLoop w reqNum events signatures s).1.2 = Some msg
        ∧ nodes = (blame.GetUnicastBlame (blameMgr w)
                     (if IsBroadcast msg then GetPreviousKeySignUicast w (MsgType msg)
                      else MsgType msg)).1
        ∧ 0 < len nodes ≤ (conversion.GetThreshold (len (P2PPeers w) + 1)).1
        ∧ isUnicast = true
        ∧ tag = (if IsBroadcast msg then "KeySignTimeout unicast"
                 else "KeySignTimeout broadcast")%string.
Proof.
  assert (∀ s, (lastMsg (keySignTimeout w s).1.2
     = match last (sentOut (keySignTimeout w s).2) with
       | Some msg => Some msg
       | None => lastMsg s
       end)
    ∧ ∀ reason nodes isUnicast tag,
      DidSetBlame reason nodes isUnicast tag ∈ (keySignTimeout w s).2 →
      ∃ msg,
        lastMsg (keySignTimeout w s).1.2 = Some msg
        ∧ nodes = (blame.GetUnicastBlame (blameMgr w)
                     (if IsBroadcast msg then GetPreviousKeySignUicast w (MsgType msg)
                      else MsgType msg)).1
        ∧ 0 < len nodes ≤ (conversion.GetThreshold (len (P2PPeers w) + 1)).1
        ∧ isUnicast = true
        ∧ tag = (if IsBroadcast msg then "KeySignTimeout unicast"
                 else "KeySignTimeout broadcast")%string) as Htimeout.
  { intros s. destruct (keySignTimeout_blame w s) as (L & S & B).
    rewrite L, S. split; [done|]. intros ???? Hin. by eapply B. }
  induction events as [|ev events IH]; intros signatures s; [apply Htimeout|].
  destruct ev as [| | |msg|msg]; cbn [keySignLoop].
  - cbn. split; [done|]. intros ???? Hin. by apply elem_of_nil in Hin.
  - cbn. split; [done|]. intros ???? Hin. by apply elem_of_nil in Hin.
  - apply Htimeout.
  - destruct (ProcessOutCh w msg p2p.TSSKeySignMsg).
    { cbn. split; [done|]. intros ???? Hin.
      repeat (apply elem_of_cons in Hin as [Hin|Hin]; [done|]). by apply elem_of_nil in Hin. }
    destruct (IH signatures (SetLastMsg msg s)) as [IH1 IH2].
    destruct (keySignLoop w reqNum events signatures (SetLastMsg msg s)) as [[r s1] e1].
    cbn [fst snd] in *. split.
    + rewrite IH1.
      change (sentOut (DidSetLastMsg msg :: SentOut msg p2p.TSSKeySignMsg :: e1))
        with (msg :: sentOut e1).
      rewrite last_cons. by destruct (last (sentOut e1)).
    + intros ???? Hin. repeat (apply elem_of_cons in Hin as [Hin|Hin]; [done|]).
      by eapply IH2.
  - cbv zeta. destruct (len (signatures ++ [msg]) =? reqNum); [|apply IH].
    cbn. split; [done|]. intros ???? Hin.
    repeat (apply elem_of_cons in Hin as [Hin|Hin]; [done|]). by apply elem_of_nil in Hin.
Qed.

(** The last message the blame manager holds when [processKeySign]
    returns is the last outbound message the loop handed on, or the one it
    held before when the loop handed on none. *)
Theorem processKeySign_lastMsg_is_last_sent w reqNum events s :
  lastMsg (processKeySign w reqNum events s).1.2
  = match last (sentOut (processKeySign w reqNum events s).2) with
    | Some msg => Some msg
    | None => lastMsg s
    end.
Proof. apply keySignLoop_blame. Qed.

(** When [processKeySign] calls [SetBlame] it does so on a timeout, with a
    last message recorded: the nodes are the answer of the unicast evidence
    (of the message's own round for a unicast message, of the previous
    unicast round for a broadcast one), at least one and at most the
    threshold of the session, and the call is tagged ["KeySignTimeout
    broadcast"] for a unicast last message and ["KeySignTimeout unicast"]
    for a broadcast one. *)
Theorem processKeySign_SetBlame_within_threshold
    w reqNum events s reason nodes isUnicast tag :
  DidSetBlame reason nodes isUnicast tag ∈ (processKeySign w reqNum events s).2 →
  ∃ msg,
    lastMsg (processKeySign w reqNum events s).1.2 = Some msg
    ∧ nodes = (blame.GetUnicastBlame (blameMgr w)
                 (if IsBroadcast msg then GetPreviousKeySignUicast w (MsgType msg)
                  else MsgType msg)).1
    ∧ 0 < len nodes ≤ (conversion.GetThreshold (len (P2PPeers w) + 1)).1
    ∧ isUnicast = true
    ∧ tag = (if IsBroadcast msg then "KeySignTimeout unicast"
             else "KeySignTimeout broadcast")%string.
Proof. apply keySignLoop_blame. Qed.

Lemma processKeySign_SetBlame_within_threshold_witness :
  ∃ msg,
    lastMsg (processKeySign examples.accusingWorld 1
               [OutMsg examples.unicast3; TimerFired] examples.fresh).1.2 = Some msg
    ∧ ["B"%string]
      = (blame.GetUnicastBlame (blameMgr examples.accusingWorld)
           (if IsBroadcast msg
            then GetPreviousKeySignUicast examples.accusingWorld (MsgType msg)
            else MsgType msg)).1
    ∧ 0 < len ["B"%string]
        ≤ (conversion.GetThreshold (len (P2PPeers examples.accusingWorld) + 1)).1
    ∧ true = true
    ∧ "KeySignTimeout broadcast"%string
      = (if IsBroadcast msg then "KeySignTimeout unicast"
         else "KeySignTimeout broadcast")%string.
Proof.
  apply (processKeySign_SetBlame_within_threshold examples.accusingWorld 1
           [OutMsg examples.unicast3; TimerFired] examples.fresh "TssTimeout").
  vm_compute. do 3 (apply elem_of_cons; right). apply elem_of_cons; left. reflexivity.
Defined.

(** A batch of no message never ends well: for [reqNum] below one
    [processKeySign] returns no signatures without an error; it ends by an
    error or by a panic. *)
Theorem processKeySign_empty_batch_never_succeeds w reqNum events s sigs :
  reqNum ≤ 0 →
  (processKeySign w reqNum events s).1.1 ≠ Returns (sigs, None).
Proof.
  intros Hreq H.
  destruct (processKeySign w reqNum events s) as [[r s'] e] eqn:E. cbn [fst] in H. subst r.
  apply keySignLoop_success in E as (taken & last & rest & _ & -> & Hlen).
  unfold len in Hlen. rewrite !length_app in Hlen. cbn in Hlen. lia.
Qed.

Lemma processKeySign_empty_batch_never_succeeds_witness :
  (processKeySign examples.world 0 [EndMsg examples.sigOne] examples.fresh).1.1
    ≠ Returns ([examples.sigOne], None).
Proof.
  apply (processKeySign_empty_batch_never_succeeds examples.world 0
           [EndMsg examples.sigOne] examples.fresh [examples.sigOne]).
  reflexivity.
Defined.

Lemma keySignLoop_error w reqNum events : ∀ signatures s sigs err,
  (keySignLoop w reqNum events signatures s).1.1 = Returns (sigs, Some err) → sigs = [].
Proof.
  assert (∀ s sigs err, (keySignTimeout w s).1.1 = Returns (sigs, Some err) → sigs = [])
    as Htimeout.
  { intros s sigs err. unfold keySignTimeout. repeat case_match; cbn; congruence. }
  induction events as [|ev events IH]; intros signatures s sigs err; [apply Htimeout|].
  destruct ev as [| | |msg|msg]; cbn [keySignLoop].
  - cbn. congruence.
  - cbn. congruence.
  - apply Htimeout.
  - destruct (ProcessOutCh w msg p2p.TSSKeySignMsg); [cbn; congruence|].
    specialize (IH signatures (SetLastMsg msg s) sigs err).
    destruct (keySignLoop w reqNum events signatures (SetLastMsg msg s)) as [[r s1] e1].
    done.
  - cbv zeta. destruct (len (signatures ++ [msg]) =? reqNum); [cbn; congruence|apply IH].
Qed.

(** [processKeySign] returns no signature with an error: what it had
    collected when it fails is dropped. *)
Theorem processKeySign_error_returns_no_signature w reqNum events s sigs err :
  (processKeySign w reqNum events s).1.1 = Returns (sigs, Some err) → sigs = [].
Proof. apply keySignLoop_error. Qed.

Lemma processKeySign_error_returns_no_signature_witness :
  ([] : list SignatureData) = [].
Proof.
  apply (processKeySign_error_returns_no_signature examples.world 2
           [EndMsg examples.sigOne; StopChanClosed] examples.fresh []
           (errNew "received exit signal")).
  reflexivity.
Defined.

End Timeouts.

(** ** SetupIDMaps, and the key GenerateNewKey returns *)

Section IDMaps.
Import tsslib eddsa.

(** When a [SetupIDMaps] call fails, [SignMessage] returns no signature
    and no error: the [err] it returns is the one [GetThreshold] left, which
    is nil.  Nothing is signed. *)
Theorem SignMessage_SetupIDMaps_failure_returns_nil_error
    g msgsToSign localStateItem parties s partiesID localPartyID :
  GetParties g parties (storage.LocalPartyKey localStateItem)
    = (partiesID, localPartyID, None) →
  Contains g partiesID localPartyID = true →
  buildParties g msgsToSign localStateItem parties = None →
  SetupIDMaps1 g ≠ None ∨ SetupIDMaps2 g ≠ None →
  SignMessage g msgsToSign localStateItem parties s = (Returns ([], None), s, []).
Proof.
  intros Hparties Hcontains Hbuild Hmaps. unfold SignMessage.
  rewrite Hparties, Hcontains, Hbuild. cbn [negb].
  destruct (conversion.GetThreshold _) as [threshold [err|]] eqn:E; [done|].
  destruct (SetupIDMaps1 g), (SetupIDMaps2 g); try done. by destruct Hmaps.
Qed.

Lemma SignMessage_SetupIDMaps_failure_returns_nil_error_witness :
  SignMessage examples.signingWithoutIDMaps [[x01]; [x02]] examples.keyShare
    ["A"; "B"; "C"]%string examples.fresh
  = (Returns ([], None), examples.fresh, []).
Proof.
  apply (SignMessage_SetupIDMaps_failure_returns_nil_error examples.signingWithoutIDMaps
           [[x01]; [x02]] examples.keyShare ["A"; "B"; "C"]%string examples.fresh
           [examples.partyA; examples.partyB; examples.partyC] examples.partyA).
  - reflexivity.
  - reflexivity.
  - reflexivity.
  - left. discriminate.
Defined.

(** [GenerateNewKey] does the same: when a [SetupIDMaps] call fails it
    returns no key and no error, and no key generation is run. *)
Theorem GenerateNewKey_SetupIDMaps_failure_returns_nil_error
    g keygenReq s partiesID localPartyID :
  genGetParties g (keygen.Keys keygenReq) (localNodePubKey g)
    = (partiesID, localPartyID, None) →
  genSetupIDMaps1 g ≠ None ∨ genSetupIDMaps2 g ≠ None →
  GenerateNewKey g keygenReq s = ((None, None), s, []).
Proof.
  intros Hparties Hmaps. unfold GenerateNewKey. rewrite Hparties.
  destruct (conversion.GetThreshold _) as [threshold [err|]] eqn:E; [done|].
  destruct (genSetupIDMaps1 g), (genSetupIDMaps2 g); try done. by destruct Hmaps.
Qed.

Lemma GenerateNewKey_SetupIDMaps_failure_returns_nil_error_witness :
  GenerateNewKey examples.generatingWithoutIDMaps examples.keygenRequest examples.fresh
  = ((None, None), examples.fresh, []).
Proof.
  apply (GenerateNewKey_SetupIDMaps_failure_returns_nil_error
           examples.generatingWithoutIDMaps examples.keygenRequest examples.fresh
           [examples.partyA; examples.partyB; examples.partyC] examples.partyA).
  - reflexivity.
  - right. discriminate.
Defined.

(** A key [GenerateNewKey] returns comes with no error, and the key-share
    was saved before: under the public key derived from the new key, with
    the keys of the request as participants and the node's own key as local
    party key. *)
Theorem GenerateNewKey_key_is_saved g keygenReq s point err s' e :
  GenerateNewKey g keygenReq s = ((Some point, err), s', e) →
  err = None
  ∧ ∃ pk data,
      GetTssPubKeyEDDSA (genWorld g) point = (pk, None)
      ∧ SaveLocalState (genWorld g)
          {| storage.PubKey := pk; storage.LocalData := data;
             storage.ParticipantKeys := keygen.Keys keygenReq;
             storage.LocalPartyKey := localNodePubKey g |} messages.EDDSAKEYGEN = None
      ∧ SavedLocalState
          {| storage.PubKey := pk; storage.LocalData := data;
             storage.ParticipantKeys := keygen.Keys keygenReq;
             storage.LocalPartyKey := localNodePubKey g |} ∈ e.
Proof.
  unfold GenerateNewKey. intros H.
  destruct (genGetParties g _ _) as [[partiesID localPartyID] [err0|]]; [done|].
  destruct (conversion.GetThreshold _) as [threshold [err1|]]; [done|].
  destruct (genSetupIDMaps1 g), (genSetupIDMaps2 g); try done.
  destruct (processKeyGen _ _ _ _) as [[[[r [err2|]] pk] s1] e1] eqn:E; [done|].
  simplify_eq. split; [done|].
  apply processKeyGen_success in E as (msg & data & Hr & _ & Hpk & _ & Hsave & Hin & _).
  simplify_eq. exists pk, data. done.
Qed.

Lemma GenerateNewKey_key_is_saved_witness :
  (None : option error) = None
  ∧ ∃ pk data,
      GetTssPubKeyEDDSA (genWorld examples.generating) (EDDSAPub examples.newKey) = (pk, None)
      ∧ SaveLocalState (genWorld examples.generating)
          {| storage.PubKey := pk; storage.LocalData := data;
             storage.ParticipantKeys := keygen.Keys examples.keygenRequest;
             storage.LocalPartyKey := localNodePubKey examples.generating |}
          messages.EDDSAKEYGEN = None
      ∧ SavedLocalState
          {| storage.PubKey := pk; storage.LocalData := data;
             storage.ParticipantKeys := keygen.Keys examples.keygenRequest;
             storage.LocalPartyKey := localNodePubKey examples.generating |}
        ∈ [DidSetLastMsg examples.keygenRound1;
           SentOut examples.keygenRound1 p2p.TSSKeyGenMsg;
           NotifiedTaskDone;
           SavedLocalState
             {| storage.PubKey := "pubkey"; storage.LocalData := [];
                storage.ParticipantKeys := ["A"; "B"; "C"]%string;
                storage.LocalPartyKey := "A" |};
           SavedAddressBook].
Proof.
  apply (GenerateNewKey_key_is_saved examples.generating examples.keygenRequest
           examples.fresh (EDDSAPub examples.newKey) None
           (SetLastMsg examples.keygenRound1 examples.fresh)).
  reflexivity.
Defined.

End IDMaps.

(** ** The answers of KeySign *)

Ltac in_list H :=
  repeat (apply elem_of_cons in H as [H|H]; simplify_eq);
  try (by apply elem_of_nil in H).

Ltac run_body :=
  unfold tss.keySignBody; repeat case_match; simplify_eq; cbn [fst snd].

Ltac here := solve [repeat first [by (apply elem_of_cons; left)|apply elem_of_cons; right]].

Section KeySignAnswers.
Import keysign tss.

(** An error of [KeySign] comes with the empty response. *)
Theorem KeySign_error_has_empty_response t req resp err :
  (KeySign t req).1 = Returns (resp, Some err) → resp = emptyResponse.
Proof.
  rewrite KeySign_unfold.
  destruct (requestToMsgId t req) as [msgID [e|]]; cbn [fst snd]; [congruence|].
  run_body; congruence.
Qed.

Lemma KeySign_error_has_empty_response_witness :
  emptyResponse = emptyResponse.
Proof.
  apply (KeySign_error_has_empty_response examples.server
           (examples.request ["A"; "B"]%string) emptyResponse
           (errNew "not enough signers")).
  reflexivity.
Defined.

Lemma keySignBody_failure t req msgID resp err :
  (keySignBody t req msgID).1 = Returns (resp, err) →
  (Status resp = common.Fail
   ↔ ∃ id peers, BroadcastFailure id peers ∈ (keySignBody t req msgID).2)
  ∧ (Status resp = common.Fail → err = None)
  ∧ ∀ a, a ∈ (keySignBody t req msgID).2 → busCall 0%nat a = None.
Proof.
  run_body; intros Heq; simplify_eq; (split; [split|split]);
    try (intros (id & peers & Hin); in_list Hin);
    try (intros a Hin; in_list Hin; done);
    try done; try (intros _; eexists _, _; repeat first [by (apply elem_of_cons; left)|apply elem_of_cons; right]).
Qed.

(** [KeySign] answers [Fail] exactly when it has told the peers of the
    key generation that the keysign failed, and a [Fail] answer comes with a
    nil error. *)
Theorem KeySign_Fail_iff_failure_broadcast t req resp err :
  (KeySign t req).1 = Returns (resp, err) →
  (Status resp = common.Fail ↔ ∃ id peers, BroadcastFailure id peers ∈ (KeySign t req).2)
  ∧ (Status resp = common.Fail → err = None).
Proof.
  rewrite KeySign_unfold.
  destruct (requestToMsgId t req) as [msgID [e|]]; cbn [fst snd].
  { intros [= <- <-]. split; [|done]. split; [done|].
    intros (id & peers & Hin). by apply elem_of_nil in Hin. }
  intros H. destruct (keySignBody_failure t req msgID resp err H) as ([H1 H2] & H3 & _).
  split; [|done]. split.
  - intros Hf. destruct (H1 Hf) as (id & peers & Hin). exists id, peers.
    do 2 (apply elem_of_cons; right). apply elem_of_app. by left.
  - intros (id & peers & Hin). apply H2.
    do 2 (apply elem_of_cons in Hin as [Hin|Hin]; [done|]).
    apply elem_of_app in Hin as [Hin|Hin]; [by eauto|].
    in_list Hin.
Qed.

Lemma KeySign_Fail_iff_failure_broadcast_witness :
  (Status {| Signatures := []; Status := common.Fail;
             Blame := common.NewBlame common.BlameTssCoordinator ["leaderKey"%string] |}
     = common.Fail
   ↔ ∃ id peers,
       BroadcastFailure id peers
         ∈ (KeySign examples.server (examples.request ["A"; "B"; "C"]%string)).2)
  ∧ (Status {| Signatures := []; Status := common.Fail;
               Blame := common.NewBlame common.BlameTssCoordinator ["leaderKey"%string] |}
       = common.Fail → (None : option error) = None).
Proof.
  apply (KeySign_Fail_iff_failure_broadcast examples.server
           (examples.request ["A"; "B"; "C"]%string)).
  reflexivity.
Defined.

End KeySignAnswers.

Section KeySignRuns.
Import keysign tss.

Lemma isPartOfKeysignParty_spec t parties :
  isPartOfKeysignParty t parties = true ↔ localNodePubKey t ∈ parties.
Proof.
  unfold isPartOfKeysignParty. rewrite existsb_exists. split.
  - intros (item & Hin & Heq). apply bool_decide_eq_true in Heq as ->.
    by apply list_elem_of_In.
  - intros Hin. exists (localNodePubKey t). split; [by apply list_elem_of_In|].
    by apply bool_decide_eq_true_2.
Qed.

Lemma keySignBody_observer t req msgID :
  isPartOfKeysignParty t (SignerPubKeys req) = false →
  Forall (λ a, formsSignsOrBlames a = false) (keySignBody t req msgID).2
  ∧ ∀ resp, (keySignBody t req msgID).1 = Returns (resp, None) →
      resp = batchSignatures t msgID (WaitForSignature t msgID (PoolPubKey req)).1
      ∧ (WaitForSignature t msgID (PoolPubKey req)).1 ≠ [].
Proof.
  intros Hnot. unfold keySignBody. rewrite Hnot. cbn [negb].
  repeat case_match; simplify_eq; cbn [fst snd]; (split; [repeat constructor|]);
    intros resp Heq; simplify_eq.
  split; [done|]. intros ->. done.
Qed.

(** A node that is not one of the signers of a request forms no party,
    signs nothing and tells no peer of a failure; when it answers without
    error, the answer is [Success] with the signatures [WaitForSignature]
    brought, at least one. *)
Theorem KeySign_observer_only_waits t req :
  localNodePubKey t ∉ SignerPubKeys req →
  Forall (λ a, formsSignsOrBlames a = false) (KeySign t req).2
  ∧ ∀ resp, (KeySign t req).1 = Returns (resp, None) →
      Status resp = common.Success
      ∧ Signatures resp ≠ []
      ∧ resp = batchSignatures t (requestToMsgId t req).1
                 (WaitForSignature t (requestToMsgId t req).1 (PoolPubKey req)).1.
Proof.
  intros Hnot. rewrite KeySign_unfold.
  assert (isPartOfKeysignParty t (SignerPubKeys req) = false) as Hb.
  { apply not_true_is_false. by rewrite isPartOfKeysignParty_spec. }
  destruct (requestToMsgId t req) as [msgID [e|]]; cbn [fst snd].
  { split; [constructor|]. intros resp Heq. done. }
  destruct (keySignBody_observer t req msgID Hb) as [H1 H2].
  split.
  - repeat (constructor; [done|]). apply Forall_app. split; [done|]. repeat constructor.
  - intros resp Heq. destruct (H2 resp Heq) as [-> Hne]. split; [done|]. split; [|done].
    cbn. destruct (WaitForSignature t msgID (PoolPubKey req)).1; done.
Qed.

Lemma KeySign_observer_only_waits_witness :
  Forall (λ a, formsSignsOrBlames a = false)
    (KeySign examples.observer (examples.request ["A"; "B"; "C"]%string)).2
  ∧ ∀ resp,
      (KeySign examples.observer (examples.request ["A"; "B"; "C"]%string)).1
        = Returns (resp, None) →
      Status resp = common.Success
      ∧ Signatures resp ≠ []
      ∧ resp = batchSignatures examples.observer
                 (requestToMsgId examples.observer
                    (examples.request ["A"; "B"; "C"]%string)).1
                 (WaitForSignature examples.observer
                    (requestToMsgId examples.observer
                       (examples.request ["A"; "B"; "C"]%string)).1
                    (PoolPubKey (examples.request ["A"; "B"; "C"]%string))).1.
Proof.
  apply (KeySign_observer_only_waits examples.observer
           (examples.request ["A"; "B"; "C"]%string)).
  intros Hin. repeat (apply elem_of_cons in Hin as [Hin|Hin]; [discriminate Hin|]).
  by apply elem_of_nil in Hin.
Defined.

Lemma keySignBody_counts_signed t req msgID msgsToSign signers :
  Signed msgsToSign signers ∈ (keySignBody t req msgID).2 →
  CountedFailedKeySign ∈ (keySignBody t req msgID).2
  ∨ CountedSucKeySign ∈ (keySignBody t req msgID).2.
Proof. run_body; intros Hin; in_list Hin; first [left; here|right; here]. Qed.

Lemma keySignBody_counted_signed t req msgID :
  CountedFailedKeySign ∈ (keySignBody t req msgID).2
  ∨ CountedSucKeySign ∈ (keySignBody t req msgID).2 →
  ∃ msgsToSign signers, Signed msgsToSign signers ∈ (keySignBody t req msgID).2.
Proof. run_body; intros [Hin|Hin]; in_list Hin; eexists _, _; here. Qed.

Lemma keySignBody_counts_once t req msgID :
  CountedFailedKeySign ∈ (keySignBody t req msgID).2 →
  (CountedSucKeySign ∉ (keySignBody t req msgID).2)
  ∧ (keySignBody t req msgID).1
    = Returns ({| Signatures := []; Status := common.Fail; Blame := BlamePeers t |}, None).
Proof. run_body; intros Hin; in_list Hin; split; [|done]; intros Hin; in_list Hin. Qed.

Lemma keySignBody_counts t req msgID :
  ((∃ msgsToSign signers, Signed msgsToSign signers ∈ (keySignBody t req msgID).2)
   ↔ CountedFailedKeySign ∈ (keySignBody t req msgID).2
     ∨ CountedSucKeySign ∈ (keySignBody t req msgID).2)
  ∧ ¬ (CountedFailedKeySign ∈ (keySignBody t req msgID).2
       ∧ CountedSucKeySign ∈ (keySignBody t req msgID).2)
  ∧ (CountedFailedKeySign ∈ (keySignBody t req msgID).2 →
     (keySignBody t req msgID).1
     = Returns ({| Signatures := []; Status := common.Fail; Blame := BlamePeers t |}, None)).
Proof.
  split; [split|split].
  - intros (m & sg & Hin). by eapply keySignBody_counts_signed.
  - apply keySignBody_counted_signed.
  - intros [Hf Hs]. by apply keySignBody_counts_once in Hf as [Hf _].
  - intros Hf. by apply keySignBody_counts_once in Hf as [_ Hf].
Qed.

(** [KeySign] counts a keysign, failed or successful and never both,
    exactly when it called [SignMessage]; a keysign counted as failed is
    answered by [Fail] with the blame of the signing instance, and a keysign
    is counted as successful even if the call then fails to tell the
    signatures to the peers. *)
Theorem KeySign_counts_what_it_signs t req :
  ((∃ msgsToSign signers, Signed msgsToSign signers ∈ (KeySign t req).2)
   ↔ CountedFailedKeySign ∈ (KeySign t req).2 ∨ CountedSucKeySign ∈ (KeySign t req).2)
  ∧ ¬ (CountedFailedKeySign ∈ (KeySign t req).2 ∧ CountedSucKeySign ∈ (KeySign t req).2)
  ∧ (CountedFailedKeySign ∈ (KeySign t req).2 →
     (KeySign t req).1
     = Returns ({| Signatures := []; Status := common.Fail; Blame := BlamePeers t |}, None)).
Proof.
  rewrite KeySign_unfold.
  destruct (requestToMsgId t req) as [msgID [e|]]; cbn [fst snd].
  { split; [split|split].
    - intros (m & sg & Hin). by apply elem_of_nil in Hin.
    - intros [Hin|Hin]; by apply elem_of_nil in Hin.
    - intros [Hin _]. by apply elem_of_nil in Hin.
    - intros Hin. by apply elem_of_nil in Hin. }
  destruct (keySignBody_counts t req msgID) as ([H1 H2] & H3 & H4).
  assert (∀ a, (∀ topic id, a ≠ Subscribed topic id) → (∀ topic id, a ≠ Cancelled topic id) →
            a ∈ [Subscribed p2p.TSSKeySignMsg msgID; Subscribed p2p.TSSKeySignVerMsg msgID]
                ++ (keySignBody t req msgID).2
                ++ [Cancelled p2p.TSSKeySignVerMsg msgID; Cancelled p2p.TSSKeySignMsg msgID]
            ↔ a ∈ (keySignBody t req msgID).2) as Hmid.
  { intros a Hs Hc. rewrite !elem_of_app. split.
    - intros [Hin|[Hin|Hin]]; [|done|].
      + exfalso. repeat (apply elem_of_cons in Hin as [->|Hin]; [by eapply Hs|]).
        by apply elem_of_nil in Hin.
      + exfalso. repeat (apply elem_of_cons in Hin as [->|Hin]; [by eapply Hc|]).
        by apply elem_of_nil in Hin.
    - auto. }
  assert (∀ m sg, Signed m sg
            ∈ [Subscribed p2p.TSSKeySignMsg msgID; Subscribed p2p.TSSKeySignVerMsg msgID]
                ++ (keySignBody t req msgID).2
                ++ [Cancelled p2p.TSSKeySignVerMsg msgID; Cancelled p2p.TSSKeySignMsg msgID]
            ↔ Signed m sg ∈ (keySignBody t req msgID).2) as Hsigned.
  { intros m sg. by apply Hmid. }
  rewrite !(Hmid CountedFailedKeySign), !(Hmid CountedSucKeySign) by done.
  split; [split|split]; try done.
  - intros (m & sg & Hin). apply H1. exists m, sg. by apply Hsigned.
  - intros Hc. destruct (H2 Hc) as (m & sg & Hin). exists m, sg. by apply Hsigned.
Qed.

End KeySignRuns.

(** ** KeySign and the subscription table *)

Section KeySignTable.
Import keysign tss.

Lemma keySignBody_no_busCall channel t req msgID :
  omap (busCall channel) (keySignBody t req msgID).2 = [].
Proof. unfold keySignBody. repeat case_match; reflexivity. Qed.

Lemma tableAfter_KeySign channel t req c msgID :
  requestToMsgId t req = (msgID, None) →
  tableAfter channel (KeySign t req).2 c
  = p2p.CancelSubscribe p2p.TSSKeySignMsg msgID
      (p2p.CancelSubscribe p2p.TSSKeySignVerMsg msgID
         (p2p.SetSubscribe p2p.TSSKeySignVerMsg msgID channel
            (p2p.SetSubscribe p2p.TSSKeySignMsg msgID channel c))).
Proof.
  intros Hid. unfold tableAfter. rewrite KeySign_unfold, Hid. cbn [fst snd].
  rewrite !omap_app, keySignBody_no_busCall. reflexivity.
Qed.

(** Whatever way [KeySign] returns, its two subscriptions are gone
    afterwards: the message id of the request has no subscriber for keysign
    messages and none for keysign verification messages, and every other
    subscription of the table is as the call found it. *)
Theorem KeySign_cancels_its_subscriptions channel t req c msgID :
  requestToMsgId t req = (msgID, None) →
  p2p.getSubscriber p2p.TSSKeySignMsg msgID (tableAfter channel (KeySign t req).2 c) = None
  ∧ p2p.getSubscriber p2p.TSSKeySignVerMsg msgID (tableAfter channel (KeySign t req).2 c)
    = None
  ∧ ∀ topic id,
      id ≠ msgID ∨ (topic ≠ p2p.TSSKeySignMsg ∧ topic ≠ p2p.TSSKeySignVerMsg) →
      p2p.getSubscriber topic id (tableAfter channel (KeySign t req).2 c)
      = p2p.getSubscriber topic id c.
Proof.
  intros Hid. rewrite (tableAfter_KeySign _ _ _ _ _ Hid).
  split; [|split].
  - rewrite getSubscriber_CancelSubscribe. by rewrite decide_True.
  - rewrite !getSubscriber_CancelSubscribe.
    rewrite decide_False by (by intros [? _]). by rewrite decide_True.
  - intros topic id Hother.
    rewrite !getSubscriber_CancelSubscribe, !getSubscriber_SetSubscribe.
    repeat case_decide; first [done|exfalso; intuition congruence].
Qed.

Lemma KeySign_cancels_its_subscriptions_witness :
  p2p.getSubscriber p2p.TSSKeySignMsg "msg-1"
    (tableAfter 9%nat (KeySign examples.signer (examples.request ["A"; "B"; "C"]%string)).2
       examples.listeningNode) = None
  ∧ p2p.getSubscriber p2p.TSSKeySignVerMsg "msg-1"
      (tableAfter 9%nat (KeySign examples.signer (examples.request ["A"; "B"; "C"]%string)).2
         examples.listeningNode) = None
  ∧ ∀ topic id,
      id ≠ "msg-1"%string ∨ (topic ≠ p2p.TSSKeySignMsg ∧ topic ≠ p2p.TSSKeySignVerMsg) →
      p2p.getSubscriber topic id
        (tableAfter 9%nat (KeySign examples.signer (examples.request ["A"; "B"; "C"]%string)).2
           examples.listeningNode)
      = p2p.getSubscriber topic id examples.listeningNode.
Proof.
  apply (KeySign_cancels_its_subscriptions 9%nat examples.signer
           (examples.request ["A"; "B"; "C"]%string) examples.listeningNode "msg-1").
  reflexivity.
Defined.

End KeySignTable.

(** ** The name of what is signed *)

Section MessageOrder.
Import keysign tss.

Lemma string_leb_trans s1 : ∀ s2 s3,
  String.leb s1 s2 = true → String.leb s2 s3 = true → String.leb s1 s3 = true.
Proof.
  unfold String.leb.
  induction s1 as [|c1 s1 IH]; intros [|c2 s2] [|c3 s3]; cbn [String.compare]; try done.
  unfold Ascii.compare.
  destruct (N.compare_spec (Ascii.N_of_ascii c1) (Ascii.N_of_ascii c2)),
    (N.compare_spec (Ascii.N_of_ascii c2) (Ascii.N_of_ascii c3)),
    (N.compare_spec (Ascii.N_of_ascii c1) (Ascii.N_of_ascii c3));
    try done; try lia.
  apply IH.
Qed.

#[local] Instance string_le_total : Total (λ a b : string, Is_true (String.leb a b)).
Proof. intros a b. destruct (String.leb_total a b) as [->| ->]; [by left|by right]. Qed.

#[local] Instance string_le_trans : Transitive (λ a b : string, Is_true (String.leb a b)).
Proof.
  intros a b c Hab Hbc. apply Is_true_true in Hab, Hbc. apply Is_true_true.
  by eapply string_leb_trans.
Qed.

#[local] Instance string_le_antisym :
  AntiSymm (=) (λ a b : string, Is_true (String.leb a b)).
Proof.
  intros a b Hab Hba. apply Is_true_true in Hab, Hba. by apply String.leb_antisym.
Qed.

Lemma sortStrings_Permutation l1 l2 : l1 ≡ₚ l2 → sortStrings l1 = sortStrings l2.
Proof.
  intros Hperm. unfold sortStrings.
  apply (Sorted_unique (λ a b : string, Is_true (String.leb a b))).
  - apply Sorted_merge_sort; apply _.
  - apply Sorted_merge_sort; apply _.
  - by rewrite !merge_sort_Permutation.
Qed.

Lemma keySignBody_msgToSignID t req msgID id msgToSignID signers :
  JoinedParty id msgToSignID signers ∈ (keySignBody t req msgID).2 →
  msgToSignID = joinComma (sortStrings (Messages req)).
Proof.
  unfold keySignBody. repeat case_match; simplify_eq; cbn [snd]; intros Hin;
    repeat (apply elem_of_cons in Hin as [Hin|Hin]; simplify_eq);
    try (by apply elem_of_nil in Hin); done.
Qed.

Lemma KeySign_msgToSignID t req id msgToSignID signers :
  JoinedParty id msgToSignID signers ∈ (KeySign t req).2 →
  msgToSignID = joinComma (sortStrings (Messages req)).
Proof.
  rewrite KeySign_unfold.
  destruct (requestToMsgId t req) as [msgID [e|]]; cbn [fst snd].
  { intros Hin. by apply elem_of_nil in Hin. }
  intros Hin. do 2 (apply elem_of_cons in Hin as [Hin|Hin]; [done|]).
  apply elem_of_app in Hin as [Hin|Hin]; [by eapply keySignBody_msgToSignID|].
  repeat (apply elem_of_cons in Hin as [Hin|Hin]; [done|]). by apply elem_of_nil in Hin.
Qed.

(** The name of what is signed that [KeySign] hands to party formation
    does not depend on the order of the messages in the request: two
    requests with the same messages in another order form their parties
    under the same name. *)
Theorem KeySign_msgToSignID_ignores_message_order
    t1 req1 id1 name1 signers1 t2 req2 id2 name2 signers2 :
  Messages req1 ≡ₚ Messages req2 →
  JoinedParty id1 name1 signers1 ∈ (KeySign t1 req1).2 →
  JoinedParty id2 name2 signers2 ∈ (KeySign t2 req2).2 →
  name1 = name2.
Proof.
  intros Hperm H1%KeySign_msgToSignID H2%KeySign_msgToSignID. subst.
  by rewrite (sortStrings_Permutation _ _ Hperm).
Qed.

Lemma KeySign_msgToSignID_ignores_message_order_witness :
  "YQ==,Yg=="%string = "YQ==,Yg=="%string.
Proof.
  apply (KeySign_msgToSignID_ignores_message_order
           examples.server
           {| PoolPubKey := "pool"; Messages := ["Yg=="; "YQ=="]%string;
              SignerPubKeys := ["A"; "B"; "C"]%string |}
           "msg-1" "YQ==,Yg==" ["A"; "B"; "C"]%string
           examples.signer
           {| PoolPubKey := "pool"; Messages := ["YQ=="; "Yg=="]%string;
              SignerPubKeys := ["A"; "B"; "C"]%string |}
           "msg-1" "YQ==,Yg==" ["A"; "B"; "C"]%string).
  - apply Permutation_swap.
  - vm_compute. do 2 (apply elem_of_cons; right). apply elem_of_cons; left. reflexivity.
  - vm_compute. do 2 (apply elem_of_cons; right). apply elem_of_cons; left. reflexivity.
Defined.

End MessageOrder.

(** ** The broadcast queue, and messages that do not decode *)

Section Queue.
Import p2p.

Lemma writeToStream_opened c net ai msg p :
  p ∈ opened (writeToStream c net ai msg).2 → p = peer.AddrInfo_ID ai ∧ p ≠ host c.
Proof.
  destruct (writeToStream_streams c net ai msg) as (_ & [->|[-> Hne]] & _).
  - intros Hin. by apply elem_of_nil in Hin.
  - intros ->%list_elem_of_singleton. done.
Qed.

Lemma broadcastLoop_opened c net peers msg found p :
  peers ≠ [] → p ∈ opened (broadcastLoop c net peers msg found) → p ∈ peers ∧ p ≠ host c.
Proof.
  intros Hne. induction found as [|[ai|] found IH]; cbn [broadcastLoop].
  - intros Hin. by apply elem_of_nil in Hin.
  - rewrite opened_app. intros [Hin|Hin]%elem_of_app; [|by apply IH].
    destruct (shouldWeWriteToPeer ai peers) eqn:Hw; [|by apply elem_of_nil in Hin].
    pose proof (writeToStream_opened c net ai msg p) as Hto.
    destruct (writeToStream c net ai msg) as [[err|] done]; cbn [snd] in Hto.
    + rewrite opened_app in Hin. apply elem_of_app in Hin as [Hin|Hin].
      * destruct (Hto Hin) as [-> Hself]. split; [|done]. by apply shouldWeWriteToPeer_listed.
      * cbn in Hin. by apply elem_of_nil in Hin.
    + destruct (Hto Hin) as [-> Hself]. split; [|done]. by apply shouldWeWriteToPeer_listed.
  - intros Hin. by apply elem_of_nil in Hin.
Qed.

Lemma Broadcast_opened c net peers msg p :
  p ∈ opened (Broadcast c net peers msg) → p ∈ peers ∧ p ≠ host c.
Proof.
  unfold Broadcast, broadcastToPeers.
  destruct peers as [|q peers]; [intros Hin; by apply elem_of_nil in Hin|].
  destruct (len (q :: peers) =? 0); [intros Hin; by apply elem_of_nil in Hin|].
  destruct (FindPeers net (rendezvous c)) as [peerChan [err|]].
  - intros Hin. by apply elem_of_nil in Hin.
  - change (Discovered ?r :: ?l) with ([Discovered r] ++ l). rewrite opened_app.
    intros [Hin|Hin]%elem_of_app; [by apply elem_of_nil in Hin|].
    by eapply broadcastLoop_opened.
Qed.

(** [ProcessBroadcast] opens a stream only to a peer that a queued
    message names, for a message that was queued before the node stopped and
    that [json.Marshal] accepts, and never to the node itself. *)
Theorem ProcessBroadcast_opens_only_to_named_peers marshal c net queue p :
  p ∈ opened (ProcessBroadcast marshal c net queue) →
  p ≠ host c
  ∧ ∃ before msg after,
      queue = before ++ Some msg :: after
      ∧ Forall is_Some before
      ∧ (marshal (Wrapped msg)).2 = None
      ∧ p ∈ PeersID msg.
Proof.
  induction queue as [|[msg|] queue IH]; cbn [ProcessBroadcast].
  - intros Hin. by apply elem_of_nil in Hin.
  - destruct (marshal (Wrapped msg)) as [wrappedMsgBytes [err|]] eqn:E.
    + change (Noted ?t :: ?l) with ([Noted t] ++ l). rewrite opened_app.
      intros [Hin|Hin]%elem_of_app; [by apply elem_of_nil in Hin|].
      destruct (IH Hin) as (Hself & before & m & after & -> & Hall & Hm & Hp).
      split; [done|]. exists (Some msg :: before), m, after.
      repeat split; try done. constructor; [by eexists|done].
    + rewrite opened_app. intros [Hin|Hin]%elem_of_app.
      * apply Broadcast_opened in Hin as [Hp Hself]. split; [done|].
        exists [], msg, queue. repeat split; try done. by rewrite E.
      * destruct (IH Hin) as (Hself & before & m & after & -> & Hall & Hm & Hp).
        split; [done|]. exists (Some msg :: before), m, after.
        repeat split; try done. constructor; [by eexists|done].
  - intros Hin. by apply elem_of_nil in Hin.
Qed.

Lemma ProcessBroadcast_opens_only_to_named_peers_witness :
  "B"%string ≠ host examples.node
  ∧ ∃ before msg after,
      [Some {| Wrapped := {| MessageType := TSSKeySignMsg; MsgID := "msg-1";
                             WPayload := [] |};
               PeersID := ["B"%string] |}; None]
      = before ++ Some msg :: after
      ∧ Forall is_Some before
      ∧ ((λ _ : WrappedMessage, (examples.hello, None : option error)) (Wrapped msg)).2 = None
      ∧ "B"%string ∈ PeersID msg.
Proof.
  apply (ProcessBroadcast_opens_only_to_named_peers
           (λ _, (examples.hello, None)) examples.node examples.network).
  vm_compute. apply elem_of_cons; left. reflexivity.
Defined.

End Queue.

Section Decoding.
Import keysign tss.

Lemma decodeMessages_fails t before val after cause :
  Forall (λ v, (DecodeString t v).2 = None) before →
  (DecodeString t val).2 = Some cause →
  (decodeMessages t (before ++ val :: after)).2
  = Some (errWrap "fail to decode message" cause).
Proof.
  intros Hall Hval. induction Hall as [|v before Hv Hall IH]; cbn [app decodeMessages].
  - destruct (DecodeString t val) as [m c]. cbn in Hval. by subst.
  - destruct (DecodeString t v) as [m c]. cbn in Hv. subst.
    by destruct (decodeMessages t (before ++ val :: after)).
Qed.

(** A request with a message that is not base64 is refused as a whole:
    when the message id and the key-share are found, [KeySign] returns the
    empty response and the error of the first such message, whatever the
    signers are, and neither forms a party nor signs. *)
Theorem KeySign_refuses_undecodable_message t req before val after cause :
  (requestToMsgId t req).2 = None →
  (GetLocalState t (PoolPubKey req)).2 = None →
  Messages req = before ++ val :: after →
  Forall (λ v, (DecodeString t v).2 = None) before →
  (DecodeString t val).2 = Some cause →
  (KeySign t req).1
    = Returns (emptyResponse, Some (errWrap "fail to decode message" cause))
  ∧ Forall (λ a, formsSignsOrBlames a = false) (KeySign t req).2.
Proof.
  intros Hid Hstate Hmsgs Hall Hval. rewrite KeySign_unfold, Hid.
  pose proof (decodeMessages_fails t before val after cause Hall Hval) as Hd.
  unfold keySignBody. rewrite Hmsgs.
  destruct (decodeMessages t (before ++ val :: after)) as [decoded err].
  destruct (GetLocalState t (PoolPubKey req)) as [item e].
  cbn in Hstate, Hd. subst. cbn. split; [done|repeat constructor].
Qed.

Lemma KeySign_refuses_undecodable_message_witness :
  (KeySign examples.strictServer
     {| PoolPubKey := "pool"; Messages := ["aGk="; "%%%"; "aGk="]%string;
        SignerPubKeys := ["A"; "B"; "C"]%string |}).1
    = Returns (emptyResponse,
               Some (errWrap "fail to decode message"
                       (errNew "illegal base64 data at input byte 0")))
  ∧ Forall (λ a, formsSignsOrBlames a = false)
      (KeySign examples.strictServer
         {| PoolPubKey := "pool"; Messages := ["aGk="; "%%%"; "aGk="]%string;
            SignerPubKeys := ["A"; "B"; "C"]%string |}).2.
Proof.
  apply (KeySign_refuses_undecodable_message examples.strictServer
           {| PoolPubKey := "pool"; Messages := ["aGk="; "%%%"; "aGk="]%string;
              SignerPubKeys := ["A"; "B"; "C"]%string |}
           ["aGk="%string] "%%%" ["aGk="%string]
           (errNew "illegal base64 data at input byte 0")).
  - reflexivity.
  - reflexivity.
  - reflexivity.
  - repeat constructor.
  - reflexivity.
Defined.

End Decoding.
